(** * TreeSearch: pattern generator, road building and hit pairing

    A shallow embedding of the parts of the TreeSearch reconstruction
    library that its specification makes claims about:

    - [MWDC::GetRefTime]                       (MWDC.h)
    - [Road]: construction, copy, assignment, [CheckMatch], [Add],
      [Finish]                                 (Road.cxx)
    - [HitPairIter]: construction, assignment, [Reset], [Next]
                                               (Hit.cxx)
    - [WireHit::Compare], [WireNumLess], [WireDistLess]  (WireHit.h)
    - [ChildIter], [HashNode], [PatternGenerator] and the [WritePattern]
      visitor                                  (PatternGenerator.cxx)

    Part I is the embedding, Part II the properties the specification
    states, Part III further properties of the same code.

    Conventions.  C++ integers are [Z] with the wrap-around written where a
    value is stored in a narrower type.  [Double_t] is IEEE-754 binary64,
    given by the executable operations of [SpecFloat].  Pointers are
    addresses ([positive] or an arena index); a [std::set<Hit*>] is a
    [gset] of addresses.  A failed [assert] aborts: functions that contain
    one return [option], with [None] for the abort. *)

From Stdlib Require Import ZArith List Bool Lia.
From Stdlib Require Import SpecFloat.
From stdpp Require Import gmap list.

Open Scope Z_scope.

(* ====================================================================== *)
(** * Part I: the embedding                                                *)
(* ====================================================================== *)

(** ** Machine numbers *)

Module Num.

(** [Double_t] is [spec_float] at the binary64 format. *)
Definition prec : Z := 53.
Definition emax : Z := 1024.

Definition dadd : spec_float -> spec_float -> spec_float := SFadd prec emax.
Definition dsub : spec_float -> spec_float -> spec_float := SFsub prec emax.
Definition dmul : spec_float -> spec_float -> spec_float := SFmul prec emax.
Definition ddiv : spec_float -> spec_float -> spec_float := SFdiv prec emax.
Definition dabs : spec_float -> spec_float := SFabs.
Definition dltb : spec_float -> spec_float -> bool := SFltb.
Definition dleb : spec_float -> spec_float -> bool := SFleb.

(** [a >= b] and [a > b] on doubles are false as soon as one side is NaN,
    like [<=] and [<]. *)
Definition dgeb (a b : spec_float) : bool := SFleb b a.
Definition dgtb (a b : spec_float) : bool := SFltb b a.

(** Conversion of an integer to double, [(double)n]. *)
Definition of_Z (n : Z) : spec_float := binary_normalize prec emax n 0 false.

(** An integer as a [float] (binary32). *)
Definition float_of_Z (n : Z) : spec_float := binary_normalize 24 128 n 0 false.

(** Conversion of a [float] (binary32) to double: exact. *)
Definition float_to_double (f : spec_float) : spec_float :=
  match f with
  | S754_finite s m e => binary_normalize prec emax (cond_Zopp s (Zpos m)) e s
  | _ => f
  end.

(** Storing into an unsigned type of [w] bits. *)
Definition wrap (w : Z) (x : Z) : Z := x mod 2 ^ w.
Definition UShort (x : Z) : Z := wrap 16 x.
Definition UInt (x : Z) : Z := wrap 32 x.

(** ROOT's [kMaxUShort]. *)
Definition kMaxUShort : Z := 65535.

End Num.

Import Num.

(** ** MWDC.h *)

Module MWDC.

(** The two members [GetRefTime] looks at: the size reported by the
    reference-channel map ([THaDetMap::GetSize], an [Int_t]) and the
    vector of reference times ([vector<float>]). *)
Record t := mk {
  fRefMap_GetSize : Z;
  fRefTime : list spec_float
}.

(** What a call hands back: a double, or nothing defined when the vector
    was indexed past its end. *)
Inductive value :=
| Value (d : spec_float)
| OutOfBounds.

(** [fRefTime[i]]: the element converted to [Double_t]. *)
Definition vector_at (v : list spec_float) (i : Z) : value :=
  match v !! Z.to_nat i with
  | Some f => Value (float_to_double f)
  | None => OutOfBounds
  end.

Section GetRefTime.
(** [kBig] comes from the analysis framework. *)
Variable kBig : spec_float.

(** [GetRefTime(i)], with the list of vector indices it reads.
<<
  { return (i<(UInt_t)fRefMap->GetSize()) ? fRefTime[i] : kBig; }
>> *)
Definition GetRefTime (d : t) (i : Z) : list Z * value :=
  if i <? UInt (fRefMap_GetSize d)
  then ([i], vector_at (fRefTime d) i)
  else ([], Value kBig).
End GetRefTime.

End MWDC.

(** ** Road.cxx *)

Module Road.

(** A [NodeDescriptor] as the road builder sees it: the number of bits of
    the pattern behind its link, the hits attached to it and the [used]
    mark.  [binAt] stands for [NodeDescriptor::operator[]], which gives
    the bin the pattern has in a layer. *)
Record NodeDescriptor := mkND {
  nbits : Z;
  binAt : Z -> Z;
  hits : gset positive;
  used : Z
}.

Definition set_used (u : Z) (nd : NodeDescriptor) : NodeDescriptor :=
  {| nbits := nbits nd; binAt := binAt nd; hits := hits nd; used := u |}.

(** [BuildInfo_t]. [fPatterns] holds addresses of node descriptors. *)
Record BuildInfo_t := mkBuild {
  fPatterns : list positive;
  fCommonHits : gset positive;
  fHitpattern : positive;
  fNlayers : Z;
  fNplanes : Z
}.

Record Road := mkRoad {
  fLeft : Z * Z;
  fRight : Z * Z;
  fSlope : spec_float;
  fPos : spec_float;
  fChi2 : spec_float;
  fErr : spec_float * spec_float;
  fHits : gset positive;
  fBuild : option BuildInfo_t
}.

(** What the constructor reads from a [Projection]. *)
Record Projection := mkProj {
  GetHitpattern : option positive;
  GetNlayers : Z;
  GetNplanes : Z
}.

Section Build.
Variable kBig : spec_float.

(** [GetWirePlane()->GetPlaneNum()] of the hit at an address. *)
Variable GetPlaneNum : positive -> Z.

(** [Road::Road( const Projection* proj )]; [None] when an assertion
    fails. *)
Definition Road_new (proj : option Projection) : option Road :=
  match proj with
  | None => None
  | Some pr =>
      match GetHitpattern pr with
      | Some hp =>
          if negb (GetNlayers pr =? 0) && (GetNlayers pr <=? GetNplanes pr)
          then Some {| fLeft := (kMaxUShort, kMaxUShort);
                       fRight := (0, 0);
                       fSlope := kBig; fPos := kBig; fChi2 := kBig;
                       fErr := (kBig, kBig);
                       fHits := ∅;
                       fBuild := Some {| fPatterns := [];
                                         fCommonHits := ∅;
                                         fHitpattern := hp;
                                         fNlayers := GetNlayers pr;
                                         fNplanes := GetNplanes pr |} |}
          else None
      | None => None
      end
  end.

(** [Road::Road( const Road& orig )].  The initializer list gives
    [fPos] the value [orig.fSlope]; [fHits] is not mentioned and is
    default-constructed. *)
Definition Road_copy (orig : Road) : Road :=
  {| fSlope := fSlope orig; fPos := fSlope orig; fChi2 := fChi2 orig;
     fLeft := fLeft orig; fRight := fRight orig; fErr := fErr orig;
     fHits := ∅;
     fBuild := fBuild orig |}.

(** Body of [Road::operator=] when [this != &rhs]. [fHits] is not
    assigned. *)
Definition Road_assign_fields (this rhs : Road) : Road :=
  {| fLeft := fLeft rhs; fRight := fRight rhs;
     fSlope := fSlope rhs;
     fPos := fPos rhs;
     fChi2 := fChi2 rhs;
     fErr := fErr rhs;
     fHits := fHits this;
     fBuild := fBuild rhs |}.

(** [Road::operator=] on a store of roads: [this] and [rhs] are
    addresses, so that [r = r] is the identity. [None] for a dangling
    address. *)
Definition Road_assign (roads : gmap positive Road) (this rhs : positive)
  : option (gmap positive Road) :=
  match roads !! this, roads !! rhs with
  | Some t, Some o =>
      if decide (this = rhs) then Some roads
      else Some (<[this := Road_assign_fields t o]> roads)
  | _, _ => None
  end.

(** The counting loop of [CheckMatch]: [i] runs over the planes,
    [nmiss] counts the planes without a bit, and the loop leaves with
    [false] as soon as [nmiss > kMaxmiss]. *)
Definition kMaxmiss : Z := 1.

Fixpoint count_missing (curpat : gset Z) (todo : nat) (i nmiss : Z) : bool :=
  match todo with
  | O => true
  | S todo' =>
      if decide (i ∈ curpat) then count_missing curpat todo' (i + 1) nmiss
      else
        let nmiss' := nmiss + 1 in
        if kMaxmiss <? nmiss' then false
        else count_missing curpat todo' (i + 1) nmiss'
  end.

(** [Road::CheckMatch]: [curpat] gets the bit of the plane of every
    hit. *)
Definition CheckMatch (b : BuildInfo_t) (hs : gset positive) : bool :=
  let curpat : gset Z := set_map GetPlaneNum hs in
  count_missing curpat (Z.to_nat (fNplanes b)) 0 0.

(** The outcome of the hit bookkeeping in [Add]: rejected, or the new
    common hits and the new [fHits]. *)
Inductive commons :=
| Rejected
| Accepted (common all : gset positive).

Definition Add_hits (r : Road) (b : BuildInfo_t) (nd : NodeDescriptor)
  : option commons :=
  if bool_decide (fPatterns b = []) then
    if negb (CheckMatch b (hits nd)) then Some Rejected
    else Some (Accepted (hits nd) (hits nd))
  else
    let new_commons := hits nd ∩ fCommonHits b in
    if negb (size new_commons <=? size (fCommonHits b))%nat then None
    else
      let new_hits := fHits r ∪ hits nd in
      let all :=
        if negb (size new_hits =? size (fHits r))%nat then new_hits
        else fHits r in
      if (size new_commons <? size (fCommonHits b))%nat then
        if negb (CheckMatch b new_commons) then Some Rejected
        else Some (Accepted new_commons all)
      else Some (Accepted (fCommonHits b) all).

(** [Road::Add]; [p] is the address of the node descriptor, [nds] the
    store it lives in. *)
Definition Add (nds : gmap positive NodeDescriptor) (p : positive) (r : Road)
  : option (bool * Road) :=
  match fBuild r with
  | None => Some (false, r)
  | Some b =>
      match nds !! p with
      | None => None
      | Some nd =>
          match Add_hits r b nd with
          | None => None
          | Some Rejected => Some (false, r)
          | Some (Accepted common all) =>
              if negb (nbits nd =? fNlayers b) then None
              else
                let n := fNlayers b - 1 in
                Some (true,
                  {| fLeft := (Z.min (binAt nd 0) (fst (fLeft r)),
                               Z.min (binAt nd n) (snd (fLeft r)));
                     fRight := (Z.max (binAt nd 0) (fst (fRight r)),
                                Z.max (binAt nd n) (snd (fRight r)));
                     fSlope := fSlope r; fPos := fPos r; fChi2 := fChi2 r;
                     fErr := fErr r;
                     fHits := all;
                     fBuild := Some {| fPatterns := fPatterns b ++ [p];
                                       fCommonHits := common;
                                       fHitpattern := fHitpattern b;
                                       fNlayers := fNlayers b;
                                       fNplanes := fNplanes b |} |})
          end
      end
  end.

(** One turn of the loop of [Finish] for the descriptor at [p]. *)
Definition Finish_mark (common : gset positive)
    (nds : gmap positive NodeDescriptor) (p : positive)
  : option (gmap positive NodeDescriptor) :=
  match nds !! p with
  | None => None
  | Some nd =>
      if negb (used nd <? 2) then None
      else
        let not_in_common := elements (hits nd ∖ common) in
        let u := match not_in_common with [] => 2 | _ => 1 end in
        Some (<[p := set_used u nd]> nds)
  end.

Fixpoint Finish_loop (common : gset positive)
    (nds : gmap positive NodeDescriptor) (ps : list positive)
  : option (gmap positive NodeDescriptor) :=
  match ps with
  | [] => Some nds
  | p :: ps' =>
      match Finish_mark common nds p with
      | None => None
      | Some nds' => Finish_loop common nds' ps'
      end
  end.

(** [Road::Finish]. *)
Definition Finish (nds : gmap positive NodeDescriptor) (r : Road)
  : option (gmap positive NodeDescriptor * Road) :=
  match fBuild r with
  | None => None
  | Some b =>
      match Finish_loop (fCommonHits b) nds (fPatterns b) with
      | None => None
      | Some nds' =>
          Some (nds',
                {| fLeft := fLeft r; fRight := fRight r;
                   fSlope := fSlope r; fPos := fPos r; fChi2 := fChi2 r;
                   fErr := fErr r; fHits := fHits r;
                   fBuild := None |})
      end
  end.

(** The hits shared by all descriptors of a list of addresses. *)
Definition hits_at (nds : gmap positive NodeDescriptor) (p : positive)
  : gset positive :=
  match nds !! p with
  | Some nd => hits nd
  | None => ∅
  end.

Definition common_of (nds : gmap positive NodeDescriptor)
    (ps : list positive) : gset positive :=
  match ps with
  | [] => ∅
  | p :: ps' => foldl (fun acc q => acc ∩ hits_at nds q) (hits_at nds p) ps'
  end.

(** Roads under construction: made by the constructor, then changed by
    [Add], copied, or assigned from another road under construction. *)
Inductive building (nds : gmap positive NodeDescriptor) : Road -> Prop :=
| building_new proj r :
    Road_new proj = Some r -> building nds r
| building_add r p ok r' :
    building nds r -> Add nds p r = Some (ok, r') -> building nds r'
| building_copy r :
    building nds r -> building nds (Road_copy r)
| building_assign r rhs :
    building nds r -> building nds rhs ->
    building nds (Road_assign_fields r rhs).

End Build.

End Road.

(** ** WireHit.h and Hit.cxx *)

Module HitPair.

(** The members of a [WireHit] that [Compare] reads. *)
Record WireHit := mkWireHit {
  fPosL : spec_float;
  fPosR : spec_float
}.

(** [WireHit::Compare( const Hit* hit, Double_t maxdist )]. *)
Definition WireHit_Compare (this rhs : WireHit) (maxdist : spec_float) : Z :=
  if dltb (dadd (fPosR this) maxdist) (fPosL rhs) then -1
  else if dltb (dadd (fPosR rhs) maxdist) (fPosL this) then 1
  else 0.

Section Iter.
(** [Hit] is the type of hit addresses ([Hit*]); a null pointer is
    [None].  [Compare a b maxdist] is the virtual call
    [a->Compare(b,maxdist)]. *)
Context {Hit : Type} `{EqDecision Hit}.
Variable Compare : Hit -> Hit -> spec_float -> Z.

(** A [TIterator] over a sequence is a cursor into it. [Next()] gives
    the element under the cursor and moves on, or gives null at the
    end and stays. *)
Definition TIter_Next (coll : list Hit) (c : nat) : option Hit * nat :=
  match coll !! c with
  | Some h => (Some h, S c)
  | None => (None, c)
  end.

(** The iterator object.  The two collections are sequences of hit
    addresses (a null collection iterates like an empty one); the three
    [TIterator]s are cursors, [fIterA] into [fCollA], [fIterB] and
    [fSaveIter] into [fCollB]. *)
Record HitPairIter := mkIter {
  fCollA : list Hit;
  fCollB : list Hit;
  fIterA : nat;
  fIterB : nat;
  fSaveIter : nat;
  fSaveHit : option Hit;
  fMaxDist : spec_float;
  fStarted : bool;
  fScanning : bool;
  fCurrent : option Hit * option Hit;
  fNext : option Hit * option Hit
}.

Definition set_A (c : nat) (it : HitPairIter) : HitPairIter :=
  mkIter (fCollA it) (fCollB it) c (fIterB it) (fSaveIter it) (fSaveHit it)
         (fMaxDist it) (fStarted it) (fScanning it) (fCurrent it) (fNext it).
Definition set_B (c : nat) (it : HitPairIter) : HitPairIter :=
  mkIter (fCollA it) (fCollB it) (fIterA it) c (fSaveIter it) (fSaveHit it)
         (fMaxDist it) (fStarted it) (fScanning it) (fCurrent it) (fNext it).
Definition set_save (c : nat) (h : option Hit) (it : HitPairIter) : HitPairIter :=
  mkIter (fCollA it) (fCollB it) (fIterA it) (fIterB it) c h
         (fMaxDist it) (fStarted it) (fScanning it) (fCurrent it) (fNext it).
Definition set_started (b : bool) (it : HitPairIter) : HitPairIter :=
  mkIter (fCollA it) (fCollB it) (fIterA it) (fIterB it) (fSaveIter it)
         (fSaveHit it) (fMaxDist it) b (fScanning it) (fCurrent it) (fNext it).
Definition set_scanning (b : bool) (it : HitPairIter) : HitPairIter :=
  mkIter (fCollA it) (fCollB it) (fIterA it) (fIterB it) (fSaveIter it)
         (fSaveHit it) (fMaxDist it) (fStarted it) b (fCurrent it) (fNext it).
Definition set_current (p : option Hit * option Hit) (it : HitPairIter)
  : HitPairIter :=
  mkIter (fCollA it) (fCollB it) (fIterA it) (fIterB it) (fSaveIter it)
         (fSaveHit it) (fMaxDist it) (fStarted it) (fScanning it) p (fNext it).
Definition set_next (p : option Hit * option Hit) (it : HitPairIter)
  : HitPairIter :=
  mkIter (fCollA it) (fCollB it) (fIterA it) (fIterB it) (fSaveIter it)
         (fSaveHit it) (fMaxDist it) (fStarted it) (fScanning it)
         (fCurrent it) p.

(** [fIterA->Next()] and [fIterB->Next()] on the iterator object. *)
Definition NextA (it : HitPairIter) : option Hit * HitPairIter :=
  let (h, c) := TIter_Next (fCollA it) (fIterA it) in (h, set_A c it).
Definition NextB (it : HitPairIter) : option Hit * HitPairIter :=
  let (h, c) := TIter_Next (fCollB it) (fIterB it) in (h, set_B c it).

(** The first block of [Next]: on the first call both pending hits are
    fetched. *)
Definition start (it : HitPairIter) : HitPairIter :=
  if fStarted it then it
  else
    let (a, it1) := NextA it in
    let (b, it2) := NextB it1 in
    set_started true (set_next (a, b) it2).

(** The loop that moves B forward again after a scan:
<<
  while( hitB != nextB && hitB->Compare(hitA,fMaxDist) < 0 )
    hitB = static_cast<Hit*>( fIterB->Next() );
>>
    [rest] is what the iterator of B has left, [c] its cursor.  The
    result is [None] when a null [hitB] would be dereferenced. *)
Fixpoint seek (maxdist : spec_float) (hitA : Hit) (nextB : option Hit)
    (rest : list Hit) (c : nat) (hitB : option Hit)
  : option (option Hit * nat) :=
  if decide (hitB = nextB) then Some (hitB, c)
  else
    match hitB with
    | None => None
    | Some hb =>
        if Compare hb hitA maxdist <? 0 then
          match rest with
          | [] => if decide (None = nextB) then Some (None, c) else None
          | h :: rest' => seek maxdist hitA nextB rest' (S c) (Some h)
          end
        else Some (hitB, c)
    end.

(** The [default] branch of the switch: [hitA] and [hitB] overlap. *)
Definition found_pair (hitA hitB : Hit) (it : HitPairIter)
  : option HitPairIter :=
  let (nextB, it1) := NextB it in
  let past :=
    match nextB with
    | None => true
    | Some nb => Compare hitA nb (fMaxDist it1) <? 0
    end in
  if past then
    if fScanning it1 then
      let it2 := set_B (fSaveIter it1) (set_scanning false it1) in
      let hitB0 := fSaveHit it2 in
      let (hitA', it3) := NextA it2 in
      match hitA' with
      | Some a' =>
          match seek (fMaxDist it3) a' nextB
                     (drop (fIterB it3) (fCollB it3)) (fIterB it3) hitB0 with
          | Some (hitB', c) => Some (set_next (Some a', hitB') (set_B c it3))
          | None => None
          end
      | None => Some (set_next (None, nextB) it3)
      end
    else
      let (a', it2) := NextA it1 in
      Some (set_next (a', nextB) it2)
  else
    let it2 :=
      if fScanning it1 then it1
      else set_save (fIterB it1) (Some hitB) (set_scanning true it1) in
    Some (set_next (fst (fNext it2), nextB) it2).

(** The rest of [Next], from [fCurrent = fNext] on. *)
Definition advance (it : HitPairIter) : option HitPairIter :=
  let it := set_current (fNext it) it in
  match fCurrent it with
  | (Some hitA, Some hitB) =>
      let c := Compare hitA hitB (fMaxDist it) in
      if c =? -1 then
        let (a', it1) := NextA it in
        Some (set_current (Some hitA, None)
                (set_next (a', snd (fNext it1)) it1))
      else if c =? 1 then
        let (b', it1) := NextB it in
        Some (set_current (None, Some hitB)
                (set_next (fst (fNext it1), b') it1))
      else found_pair hitA hitB it
  | (Some hitA, None) =>
      let (a', it1) := NextA it in
      Some (set_next (a', snd (fNext it1)) it1)
  | (None, Some hitB) =>
      let (b', it1) := NextB it in
      Some (set_next (fst (fNext it1), b') it1)
  | (None, None) => Some it
  end.

(** [HitPairIter::Next]. *)
Definition Next (it : HitPairIter) : option HitPairIter :=
  advance (start it).

(** The object as the constructor has it before it calls [Next]. *)
Definition unstarted (collA collB : list Hit) (maxdist : spec_float)
  : HitPairIter :=
  {| fCollA := collA; fCollB := collB;
     fIterA := 0; fIterB := 0; fSaveIter := 0; fSaveHit := None;
     fMaxDist := maxdist; fStarted := false; fScanning := false;
     fCurrent := (None, None); fNext := (None, None) |}.

(** [HitPairIter::HitPairIter( collA, collB, maxdist )]. *)
Definition HitPairIter_new (collA collB : list Hit) (maxdist : spec_float)
  : option HitPairIter :=
  Next (unstarted collA collB maxdist).

(** A complete iteration: the pairs that are current after each call of
    [Next], the one in the constructor included, up to the pair of two
    nulls.  [fuel] bounds the number of calls. *)
Fixpoint drain (fuel : nat) (it : HitPairIter)
  : option (list (option Hit * option Hit)) :=
  match fuel with
  | O => None
  | S fuel' =>
      match Next it with
      | None => None
      | Some it' =>
          match fCurrent it' with
          | (None, None) => Some []
          | cur =>
              match drain fuel' it' with
              | Some l => Some (cur :: l)
              | None => None
              end
          end
      end
  end.

(** Number of calls that is always enough. *)
Definition enough (collA collB : list Hit) : nat :=
  (S (length collA) * (2 * length collB + 2) + 2 * length collB + 2)%nat.

Definition pairs (collA collB : list Hit) (maxdist : spec_float)
  : option (list (option Hit * option Hit)) :=
  drain (enough collA collB) (unstarted collA collB maxdist).


(** [HitPairIter::Reset] before its call of [Next]: the two flags are
    cleared and the iterators of A and B are reset; [fSaveIter],
    [fSaveHit] and the two pairs stay. *)
Definition rewound (it : HitPairIter) : HitPairIter :=
  set_B 0 (set_A 0 (set_scanning false (set_started false it))).

(** [HitPairIter::Reset]. *)
Definition Reset (it : HitPairIter) : option HitPairIter :=
  Next (rewound it).

(** Body of [HitPairIter::operator=] when [this != &rhs], for
    collections that are not null: the three iterators are made anew and
    set to those of [rhs]; [fSaveHit] is not assigned. *)
Definition assign_fields (this rhs : HitPairIter) : HitPairIter :=
  mkIter (fCollA rhs) (fCollB rhs) (fIterA rhs) (fIterB rhs) (fSaveIter rhs)
         (fSaveHit this) (fMaxDist rhs) (fStarted rhs) (fScanning rhs)
         (fCurrent rhs) (fNext rhs).

End Iter.

(** Hits behind addresses: the virtual [Compare] reads both objects. *)
Definition Compare_at (heap : positive -> WireHit) (a b : positive)
    (maxdist : spec_float) : Z :=
  WireHit_Compare (heap a) (heap b) maxdist.

End HitPair.

(** ** WireHit.h: the ordering functors *)

Module WireSort.

(** What the functors read of a hit: the type and the number of its
    plane, its wire number ([Int_t]) and its drift time. *)
Record Hit := mkHit {
  GetPlaneType : Z;
  GetPlaneNum : Z;
  GetWireNum : Z;
  GetDriftTime : spec_float
}.

(** [Int_t] arithmetic that can leave the range is wrapped. *)
Definition Int (x : Z) : Z := (x + 2 ^ 31) mod 2 ^ 32 - 2 ^ 31.

(** [WireHit::WireNumLess::operator()], for two hits that are not
    null. *)
Definition WireNumLess (a b : Hit) : bool :=
  if negb (GetPlaneType a =? GetPlaneType b)
  then GetPlaneType a <? GetPlaneType b
  else if GetPlaneNum a <? GetPlaneNum b then true
  else if GetPlaneNum a >? GetPlaneNum b then false
  else if GetWireNum a <? GetWireNum b then true
  else if GetWireNum a >? GetWireNum b then false
  else dltb (GetDriftTime a) (GetDriftTime b).

(** [WireHit::WireDistLess::WireDistLess( maxdist )]: the functor holds
    [fMaxDist]; [None] when the assertion fails. *)
Definition WireDistLess_new (maxdist : Z) : option Z :=
  if maxdist >=? 0 then Some maxdist else None.

(** [WireHit::WireDistLess::operator()], for two hits that are not
    null. *)
Definition WireDistLess (fMaxDist : Z) (a b : Hit) : bool :=
  if negb (GetPlaneType a =? GetPlaneType b)
  then GetPlaneType a <? GetPlaneType b
  else if GetPlaneNum a <? GetPlaneNum b then true
  else if GetPlaneNum a >? GetPlaneNum b then false
  else if Int (GetWireNum a + fMaxDist) <? GetWireNum b then true
  else if fMaxDist >? 0 then false
  else if GetWireNum a >? GetWireNum b then false
  else dltb (GetDriftTime a) (GetDriftTime b).

End WireSort.

(** ** PatternGenerator.cxx *)

Module PatGen.

(** *** Patterns and links

    Pattern.h and TreeWalk.h are not among the sources; the data and the
    few accessors the generator calls are taken from the specification. *)

(** Modelled from the spec: [Link] (Pattern.h is missing), a child
    pattern with the type of the reference; the next pointer is the tail
    of the list the link is in.  A pattern pointer is an index into the
    arena of allocated patterns. *)
Record Link := mkLink {
  lnkPattern : nat;
  lnkType : Z
}.

(** Modelled from the spec: [Pattern] (Pattern.h is missing), the bin
    numbers of the planes, stored as [UShort_t], and the list of links
    to the children. *)
Record Pattern := mkPattern {
  fBits : list Z;
  fChild : list Link
}.

(** Modelled from the spec: [Pattern::Pattern( UInt_t size )] (Pattern.h
    is missing), the all-zero pattern without children. *)
Definition Pattern_new (size : Z) : Pattern :=
  {| fBits := replicate (Z.to_nat size) 0; fChild := [] |}.

(** Modelled from the spec: [Pattern::GetNbits] (Pattern.h is missing). *)
Definition GetNbits (bits : list Z) : Z := Z.of_nat (length bits).

(** Modelled from the spec: [Pattern::GetWidth] (Pattern.h is missing).
    The spec has the width as the distance between the extreme bins and
    lets it be negative for a pattern that is still to be mirrored; the
    callers rely on the sign ([width < 0], [TMath::Abs(width)]).  It is
    the bin of the last plane minus the bin of the first plane. *)
Definition GetWidth (bits : list Z) : Z :=
  List.last bits 0 - List.hd 0 bits.

(** The largest and the smallest bin of a pattern. *)
Definition max_bit (bits : list Z) : Z := foldr Z.max (List.hd 0 bits) bits.
Definition min_bit (bits : list Z) : Z := foldr Z.min (List.hd 0 bits) bits.

(** [Int_t] arithmetic that can leave the range is wrapped. *)
Definition Int (x : Z) : Z := (x + 2 ^ 31) mod 2 ^ 32 - 2 ^ 31.

(** *** ChildIter *)

Record ChildIter := mkChildIter {
  ci_fParent : list Z;
  ci_fChild : list Z;
  ci_fCount : Z;
  ci_fType : Z
}.

(** The first loop of a trial: every child bit is twice the parent bit,
    plus one when the bit of [fCount] for that plane is set.  The result
    is the bits as [Int_t]; [minbit] and [maxbit] are taken over them,
    from the last plane to the first, starting at 1 and 0. *)
Definition trial_bits (parent : list Z) (count : Z) : list Z :=
  imap (fun ibit p =>
          let bit := Z.shiftl p 1 in
          if negb (Z.land count (Z.shiftl 1 (Z.of_nat ibit)) =? 0)
          then bit + 1 else bit) parent.

Definition trial_minbit (bits : list Z) : Z :=
  foldr (fun bit minbit => if bit <? minbit then bit else minbit) 1 bits.

Definition trial_maxbit (bits : list Z) : Z :=
  foldr (fun bit maxbit => if bit >? maxbit then bit else maxbit) 0 bits.

(** The rest of a trial once the bits are stored in [fChild]: [None]
    when the trial is skipped ([continue]), else the normalized child
    and its type. *)
Definition trial (parent : list Z) (count : Z) : list Z * option (list Z * Z) :=
  let bits := trial_bits parent count in
  let child := map UShort bits in
  let minbit := trial_minbit bits in
  let maxbit := trial_maxbit bits in
  let width := GetWidth child in
  if maxbit - minbit >? Z.abs width then (child, None)
  else
    let '(type1, child1) :=
      if minbit =? 0 then (0, child)
      else (1, map (fun b => UShort (b - 1)) child) in
    if width <? 0 then
      let width' := - width in
      (child, Some (map (fun b => UShort (width' - b)) child1, type1 + 2))
    else (child, Some (child1, type1)).

(** The loop [while( fCount-- )] of [operator++]; [n] is the value of
    [fCount] before the test. *)
Fixpoint ChildIter_loop (n : nat) (it : ChildIter) : ChildIter :=
  match n with
  | O => mkChildIter (ci_fParent it) (ci_fChild it) (-1) (ci_fType it)
  | S n' =>
      let count := Z.of_nat n' in
      match trial (ci_fParent it) count with
      | (raw, None) =>
          ChildIter_loop n' (mkChildIter (ci_fParent it) raw count (ci_fType it))
      | (_, Some (child, type)) =>
          mkChildIter (ci_fParent it) child count type
      end
  end.

(** [ChildIter::operator++]. *)
Definition ChildIter_incr (it : ChildIter) : ChildIter :=
  if ci_fCount it >? 0 then ChildIter_loop (Z.to_nat (ci_fCount it)) it
  else mkChildIter (ci_fParent it) (ci_fChild it) (-1) (ci_fType it).

(** [ChildIter::reset] and the constructor. *)
Definition ChildIter_reset (it : ChildIter) : ChildIter :=
  ChildIter_incr
    (mkChildIter (ci_fParent it) (ci_fChild it)
                 (Int (Z.shiftl 1 (GetNbits (ci_fParent it)))) (ci_fType it)).

Definition ChildIter_new (parent : list Z) : ChildIter :=
  ChildIter_reset (mkChildIter parent parent 0 0).

(** [operator bool]. *)
Definition ChildIter_valid (it : ChildIter) : bool := ci_fCount it >=? 0.

(** The loop [while( it ) { ...; ++it; }] as the list of the children and
    types it passes; at most [fuel] turns. *)
Fixpoint ChildIter_run (fuel : nat) (it : ChildIter) : list (list Z * Z) :=
  match fuel with
  | O => []
  | S fuel' =>
      if ChildIter_valid it
      then (ci_fChild it, ci_fType it) :: ChildIter_run fuel' (ChildIter_incr it)
      else []
  end.

(** Every [++] lowers [fCount], so this many turns reach the end. *)
Definition children_of (parent : list Z) : list (list Z * Z) :=
  let it := ChildIter_new parent in
  ChildIter_run (Z.to_nat (ci_fCount it + 2)) it.

(** *** The hash table and the generator *)

(** [HashNode]; the next pointer is the tail of the chain the node is
    in.  A node is created with [fMinDepth = (UInt_t)-1]. *)
Record HashNode := mkHashNode {
  fPattern : nat;
  fMinDepth : Z
}.

Definition HashNode_new (pat : nat) : HashNode :=
  {| fPattern := pat; fMinDepth := UInt (-1) |}.

(** [TreeParam_t]. *)
Record TreeParam_t := mkParam {
  maxdepth : Z;
  width : spec_float;
  zpos : list spec_float;
  maxslope : spec_float
}.

(** The part of [Statistics_t] that is counted. *)
Record Statistics_t := mkStats {
  nPatterns : Z;
  nLinks : Z;
  MaxChildListLength : Z;
  MaxHashDepth : Z
}.

(** The generator: its members and the arena of the patterns it has
    allocated with [new Pattern]. *)
Record PatternGenerator := mkGen {
  fNlevels : Z;
  fNplanes : Z;
  fMaxSlope : spec_float;
  fZ : list spec_float;
  fHashTable : list (list HashNode);
  fStats : Statistics_t;
  arena : list Pattern
}.

Definition set_table (t : list (list HashNode)) (g : PatternGenerator)
  : PatternGenerator :=
  mkGen (fNlevels g) (fNplanes g) (fMaxSlope g) (fZ g) t (fStats g) (arena g).
Definition set_arena (a : list Pattern) (g : PatternGenerator)
  : PatternGenerator :=
  mkGen (fNlevels g) (fNplanes g) (fMaxSlope g) (fZ g) (fHashTable g)
        (fStats g) a.
Definition set_stats (st : Statistics_t) (g : PatternGenerator)
  : PatternGenerator :=
  mkGen (fNlevels g) (fNplanes g) (fMaxSlope g) (fZ g) (fHashTable g)
        st (arena g).

(** [PatternGenerator::PatternGenerator]. *)
Definition PatternGenerator_new : PatternGenerator :=
  mkGen 0 0 (of_Z 0) [] [] (mkStats 0 0 0 0) [].

(** The bits of the pattern at an address; a dangling address reads as
    the empty pattern. *)
Definition bits_at (g : PatternGenerator) (p : nat) : list Z :=
  match arena g !! p with
  | Some pat => fBits pat
  | None => []
  end.

Definition children_at (g : PatternGenerator) (p : nat) : list Link :=
  match arena g !! p with
  | Some pat => fChild pat
  | None => []
  end.

(** [PatternGenerator::TestSlope]. *)
Definition TestSlope (g : PatternGenerator) (pat : list Z) (depth : Z) : bool :=
  let width := UInt (GetWidth pat) in
  (width <? 2) ||
  dleb (dabs (ddiv (of_Z (UInt (width - 1))) (of_Z (Int (Z.shiftl 1 depth)))))
       (fMaxSlope g).

(** The loop of [LineCheck]; [i] counts down from [fNplanes-2] and the
    loop runs while [i > 0]. *)
Fixpoint LineCheck_loop (z : list spec_float) (pat : list Z) (i : nat)
    (xL xRm1 zL zR : spec_float) : bool :=
  match i with
  | O => true
  | S i' =>
      let zi := nth i z (of_Z 0) in
      let pi := of_Z (nth i pat 0) in
      let dL := dsub (dmul xL zi) (dmul pi zL) in
      if dgeb (dabs dL) zL then false
      else
        let dR := dsub (dmul xRm1 zi) (dmul pi zR) in
        if dgeb (dabs dR) zR then false
        else
          let right := (1 <? Z.of_nat i) && dgtb dL (of_Z 0) in
          let left := (1 <? Z.of_nat i) && dltb dR (of_Z 0) in
          LineCheck_loop z pat i'
            (if left then pi else xL)
            (if right then pi else xRm1)
            (if left then zi else zL)
            (if right then zi else zR)
  end.

(** [PatternGenerator::LineCheck]. *)
Definition LineCheck (g : PatternGenerator) (pat : list Z) : bool :=
  let n := Z.to_nat (fNplanes g) in
  let xL := of_Z (nth (n - 1) pat 0) in
  let zL := nth (n - 1) (fZ g) (of_Z 0) in
  LineCheck_loop (fZ g) pat (n - 2) xL xL zL zL.

Section Generator.
(** Modelled from the spec: [Pattern::Hash] (Pattern.h is missing), a
    number computed from the bits of the pattern. *)
Variable Hash : list Z -> Z.

(** Modelled from the spec: [Pattern::AddChild] (Pattern.h is
    missing), which puts a link to the child with the given type into
    the list of the parent; where in the list is left open. *)
Variable AddChild : Link -> list Link -> list Link.

(** The bucket of a pattern: [pat->Hash()%hashsize]. *)
Definition bucket_of (g : PatternGenerator) (bits : list Z) : nat :=
  Z.to_nat (Hash bits mod Z.of_nat (length (fHashTable g))).

(** [PatternGenerator::Find]: walk the chain of the bucket, comparing
    bits. *)
Definition Find (g : PatternGenerator) (bits : list Z) : option HashNode :=
  match fHashTable g !! bucket_of g bits with
  | Some chain =>
      List.find (fun node => bool_decide (bits = bits_at g (fPattern node))) chain
  | None => None
  end.

(** [PatternGenerator::AddHash]: the first call sizes the table to
    [1<<(fNlevels-1)] empty chains; the node goes to the head of its
    chain. *)
Definition AddHash (g : PatternGenerator) (pat : nat) : PatternGenerator :=
  let g1 :=
    if (length (fHashTable g) =? 0)%nat
    then set_table (replicate (Z.to_nat (Int (Z.shiftl 1 (fNlevels g - 1)))) []) g
    else g in
  let hash := bucket_of g1 (bits_at g1 pat) in
  set_table (alter (fun chain => HashNode_new pat :: chain) hash (fHashTable g1)) g1.

(** [HashNode::UsedAtDepth] on the node of the pattern [pat]. *)
Definition UsedAtDepth (g : PatternGenerator) (pat : nat) (depth : Z)
  : PatternGenerator :=
  set_table
    (map (map (fun node =>
                 if (fPattern node =? pat)%nat && (depth <? fMinDepth node)
                 then mkHashNode (fPattern node) depth else node))
         (fHashTable g)) g.

(** [new Pattern( child )]: a new pattern in the arena, with its
    address. *)
Definition new_Pattern (g : PatternGenerator) (bits : list Z)
  : PatternGenerator * nat :=
  (set_arena (arena g ++ [mkPattern bits []]) g, length (arena g)).

(** [parent->AddChild( pat, type )]. *)
Definition add_link (g : PatternGenerator) (parent pat : nat) (type : Z)
  : PatternGenerator :=
  set_arena
    (alter (fun p => mkPattern (fBits p) (AddChild (mkLink pat type) (fChild p)))
           parent (arena g)) g.

(** One turn of the loop over the iterator in [MakeChildNodes]. *)
Definition try_child (parent : nat) (depth : Z) (g : PatternGenerator)
    (ct : list Z * Z) : PatternGenerator :=
  let (child, type) := ct in
  match Find g child with
  | Some node =>
      if (depth >=? fMinDepth node) ||
         TestSlope g (bits_at g (fPattern node)) depth
      then add_link g parent (fPattern node) type
      else g
  | None =>
      if TestSlope g child depth && LineCheck g child then
        let (g1, pat) := new_Pattern g child in
        add_link (AddHash g1 pat) parent pat type
      else g
  end.

(** [PatternGenerator::MakeChildNodes]; [pnode] is the address of the
    pattern of the hash node.  [fuel] bounds the depth of the
    recursion. *)
Fixpoint MakeChildNodes (fuel : nat) (g : PatternGenerator) (pnode : nat)
    (depth : Z) : PatternGenerator :=
  let g := if depth >? 0 then UsedAtDepth g pnode (depth - 1) else g in
  if depth >=? fNlevels g then g
  else
    match fuel with
    | O => g
    | S fuel' =>
        let g :=
          match children_at g pnode with
          | [] => foldl (try_child pnode depth) g (children_of (bits_at g pnode))
          | _ :: _ => g
          end in
        foldl (fun g ln =>
                 match Find g (bits_at g (lnkPattern ln)) with
                 | Some node =>
                     match children_at g (lnkPattern ln) with
                     | [] => MakeChildNodes fuel' g (fPattern node) (depth + 1)
                     | _ :: _ =>
                         if fMinDepth node >? depth
                         then MakeChildNodes fuel' g (fPattern node) (depth + 1)
                         else g
                     end
                 | None => g
                 end)
              g (children_at g pnode)
    end.

(** [PatternGenerator::CalcStatistics], the counters. *)
Definition CalcStatistics (g : PatternGenerator) : PatternGenerator :=
  let nodes := concat (fHashTable g) in
  let lens := map (fun node => Z.of_nat (length (children_at g (fPattern node))))
                  nodes in
  set_stats
    {| nPatterns := Z.of_nat (length nodes);
       nLinks := foldr Z.add 0 lens;
       MaxChildListLength := foldr Z.max 0 lens;
       MaxHashDepth :=
         foldr Z.max 0 (map (fun chain => Z.of_nat (length chain)) (fHashTable g)) |}
    g.

(** [PatternGenerator::DeleteTree]. *)
Definition DeleteTree (g : PatternGenerator) : PatternGenerator :=
  set_arena [] (set_table [] g).

Section Generate.
(** [PatternTree::Normalize] is declared outside the sources: the
    error code and the parameters as it leaves them. *)
Variable Normalize : TreeParam_t -> Z * TreeParam_t.

(** The build inside [Generate], up to the statistics. *)
Definition build (g : PatternGenerator) (parameters : TreeParam_t)
  : PatternGenerator :=
  let g1 :=
    mkGen (UInt (maxdepth parameters + 1))
          (Z.of_nat (length (zpos parameters)))
          (maxslope parameters) (zpos parameters)
          (fHashTable g) (fStats g) (arena g) in
  let (g2, root) := new_Pattern g1 (fBits (Pattern_new (fNplanes g1))) in
  let g3 := AddHash g2 root in
  let g4 := MakeChildNodes (Z.to_nat (fNlevels g3)) g3 root 1 in
  CalcStatistics g4.

(** [PatternGenerator::Generate( TreeParam_t parameters )]: the
    pointer it returns (null is [None]; a tree would be the address
    of a [PatternTree]) and the generator afterwards. *)
Definition Generate (g : PatternGenerator) (parameters : TreeParam_t)
  : option positive * PatternGenerator :=
  let g0 := DeleteTree g in
  let (err, parameters') := Normalize parameters in
  if negb (err =? 0) then (None, g0)
  else
    let g' := build g0 parameters' in
    let tree : option positive := None in
    (tree, g').
End Generate.

End Generator.

(** Modelled from the spec: [PatternTree::Normalize] (PatternTree is
    missing).  The parameters are valid when maxDepth is in 1..16, the
    width is above zero, zpos has at least 2 entries and increases
    strictly, and maxSlope is not negative; valid z-positions are mapped
    to the interval from 0 to 1; invalid parameters give an error
    code. *)
Fixpoint increasing (z : list spec_float) : bool :=
  match z with
  | a :: (b :: _) as rest => dltb a b && increasing rest
  | _ => true
  end.

Definition valid_params (p : TreeParam_t) : bool :=
  (1 <=? maxdepth p) && (maxdepth p <=? 16) &&
  dltb (of_Z 0) (width p) &&
  (2 <=? length (zpos p))%nat && increasing (zpos p) &&
  dleb (of_Z 0) (maxslope p).

Definition Normalize (p : TreeParam_t) : Z * TreeParam_t :=
  if valid_params p then
    let z0 := List.hd (of_Z 0) (zpos p) in
    let zsize := dsub (List.last (zpos p) (of_Z 0)) z0 in
    (0, mkParam (maxdepth p) (width p)
          (map (fun z => ddiv (dsub z z0) zsize) (zpos p)) (maxslope p))
  else (1, p).

(** The hash nodes of the table, chain after chain. *)
Definition stored (g : PatternGenerator) : list HashNode :=
  concat (fHashTable g).

(** The bits and minimal depth of every stored pattern. *)
Definition stored_patterns (g : PatternGenerator) : list (list Z * Z) :=
  map (fun node => (bits_at g (fPattern node), fMinDepth node)) (stored g).

(** *** Walking and writing the tree *)

(** The part of a [NodeDescriptor] that the walk maintains. *)
Record NodeDescriptor := mkNode {
  link : Link;
  depth : Z;
  shift : Z;
  mirrored : bool
}.

(** Modelled from the spec: the descent of [TreeWalk] through a link of
    type [t] (TreeWalk.h is missing): the depth goes up by one, the
    shift is doubled and takes the shift bit of [t], and the mirror
    flag is flipped by the mirror bit of [t]. *)
Definition descend (nd : NodeDescriptor) (ln : Link) : NodeDescriptor :=
  {| link := ln;
     depth := depth nd + 1;
     shift := Z.shiftl (shift nd) 1 + Z.land (lnkType ln) 1;
     mirrored := xorb (mirrored nd) (negb (Z.land (lnkType ln) 2 =? 0)) |}.

Section Walk.
Context {V : Type}.

(** A visitor: [operator()] on its state, with the code it returns.
    Zero asks for the children, a positive code skips them, a
    negative code ends the walk. *)
Variable visit : V -> NodeDescriptor -> Z * V.

(** Modelled from the spec: [TreeWalk::operator()] (TreeWalk.h is
    missing), a depth-first pre-order walk that visits a node, then,
    if the visitor asks for it, the children in list order, and stops
    with the code of the visitor when that is negative.  The walk
    covers the number of levels set with [SetNlevels]. *)
Fixpoint TreeWalk (levels : nat) (pats : list Pattern) (nd : NodeDescriptor)
    (v : V) : Z * V :=
  match levels with
  | O => (0, v)
  | S levels' =>
      let (ret, v1) := visit v nd in
      if ret =? 0 then
        foldl (fun (acc : Z * V) ln =>
                 if fst acc <? 0 then acc
                 else TreeWalk levels' pats (descend nd ln) (snd acc))
              (0, v1)
              (match pats !! lnkPattern (link nd) with
               | Some pat => fChild pat
               | None => []
               end)
      else if ret >? 0 then (0, v1)
      else (ret, v1)
  end.
End Walk.

(** The bytes of [n] objects of [size] bytes in the memory of a
    little-endian machine ([R__BYTESWAP]). *)
Definition memory (size : nat) (data : list Z) : list Z :=
  flat_map (fun x => map (fun k => (x / 256 ^ Z.of_nat k) mod 256) (seq 0 size))
           data.

(** [swapped_binary_write( os, data, n, start )] for objects of [size]
    bytes:
<<
    size_t k = size-1;
    for( size_t i = start; i < n * size; ++i )
      os.put( bytes[(i&~k)+(k-i&k)] );
>> *)
Definition swapped_binary_write (os : list Z) (size : nat) (data : list Z)
    (start : nat) : list Z :=
  let bytes := memory size data in
  let k := Z.of_nat size - 1 in
  os ++ map (fun i : nat =>
               let i := Z.of_nat i in
               nth (Z.to_nat (Z.land i (Z.lnot k) + Z.land (k - i) k)) bytes 0)
            (seq start (length data * size - start)).

(** [ostream::put].  The stream is the list of the bytes written so far;
    once the file is open every byte is accepted ([os->fail()] stays
    false). *)
Definition put (os : list Z) (c : Z) : list Z := os ++ [c mod 256].

(** The [WritePattern] visitor: the stream (null when the file could not
    be opened), the size of an index and the index map. *)
Record WritePattern := mkWrite {
  os : option (list Z);
  fIdxSiz : Z;
  fMap : gmap nat Z
}.

(** [WritePattern::WritePattern( filename, index_size )]; [opened] tells
    whether the file could be opened. *)
Definition WritePattern_new (opened : bool) (index_size : Z) : WritePattern :=
  {| os := if opened then Some [] else None;
     fIdxSiz := if negb (Z.land index_size (index_size - 1) =? 0) then 4
                else index_size;
     fMap := ∅ |}.

(** [WritePattern::operator()]. *)
Definition WritePattern_visit (pats : list Pattern) (w : WritePattern)
    (nd : NodeDescriptor) : Z * WritePattern :=
  match os w with
  | None => (-1, w)
  | Some out =>
      let node := lnkPattern (link nd) in
      match fMap w !! node with
      | None =>
          let n := Int (Z.of_nat (size (fMap w))) in
          let pat := default (mkPattern [] []) (pats !! node) in
          let out1 := put out (Z.lor (lnkType (link nd)) 128) in
          let out2 := swapped_binary_write out1 2 (drop 1 (fBits pat)) 0 in
          let nchild := UShort (Z.of_nat (length (fChild pat))) in
          let out3 := swapped_binary_write out2 2 [nchild] 0 in
          (0, {| os := Some out3; fIdxSiz := fIdxSiz w;
                 fMap := <[node := n]> (fMap w) |})
      | Some idx =>
          let out1 := put out (lnkType (link nd)) in
          let out2 := swapped_binary_write out1 4 [idx]
                        (Z.to_nat (4 - fIdxSiz w)) in
          (1, {| os := Some out2; fIdxSiz := fIdxSiz w; fMap := fMap w |})
      end
  end.

(** The index size [Write] asks for. *)
Definition index_size (g : PatternGenerator) : Z :=
  if nPatterns (fStats g) <? Z.shiftl 1 8 then 1
  else if nPatterns (fStats g) <? Z.shiftl 1 16 then 2
  else 4.

(** [PatternGenerator::Write]: the code of the walk and the visitor with
    what went to the file.  [None] when the first chain of the table is
    empty. *)
Definition Write (g : PatternGenerator) (opened : bool)
  : option (Z * WritePattern) :=
  match fHashTable g with
  | (node :: _) :: _ =>
      let root_link := mkLink (fPattern node) 0 in
      Some (TreeWalk (WritePattern_visit (arena g)) (Z.to_nat (fNlevels g))
              (arena g) (mkNode root_link 0 0 false)
              (WritePattern_new opened (index_size g)))
  | _ => None
  end.

(** The visitor after a sequence of visits. *)
Definition visit_all (pats : list Pattern) (w : WritePattern)
    (nds : list NodeDescriptor) : WritePattern :=
  foldl (fun w nd => snd (WritePattern_visit pats w nd)) w nds.

(** The patterns behind a sequence of visited nodes. *)
Definition visited (nds : list NodeDescriptor) : list nat :=
  map (fun nd => lnkPattern (link nd)) nds.

(** What one visit appends to the stream. *)
Definition written (w w' : WritePattern) : list Z :=
  match os w, os w' with
  | Some a, Some b => drop (length a) b
  | _, _ => []
  end.

(** An integer of [n] bytes, most significant byte first. *)
Definition big_endian (n : nat) (x : Z) : list Z :=
  map (fun k => (x / 256 ^ Z.of_nat k) mod 256) (rev (seq 0 n)).

End PatGen.

(** ** Inputs used to exercise the theorems *)

Module Examples.

(** [kBig], 1e38 rounded to double. *)
Definition kBig : spec_float :=
  binary_normalize prec emax 100000000000000000000000000000000000000 0 false.

(** A detector with three reference channels. *)
Definition mwdc : MWDC.t :=
  {| MWDC.fRefMap_GetSize := 3;
     MWDC.fRefTime := [float_of_Z 10; float_of_Z 20; float_of_Z 30] |}.

(** Three planes with one hit each: the hit at address [k] lies in plane
    [k - 1]; address 4 is a second hit in plane 0. *)
Definition plane_of (h : positive) : Z :=
  match h with
  | 1%positive => 0
  | 2%positive => 1
  | 3%positive => 2
  | _ => 0
  end.

Definition proj3 : Road.Projection :=
  {| Road.GetHitpattern := Some 1%positive;
     Road.GetNlayers := 3; Road.GetNplanes := 3 |}.

Definition nd_a : Road.NodeDescriptor :=
  {| Road.nbits := 3; Road.binAt := fun _ => 5;
     Road.hits := {[1%positive; 2%positive; 3%positive]}; Road.used := 0 |}.

Definition nd_b : Road.NodeDescriptor :=
  {| Road.nbits := 3; Road.binAt := fun i => 5 + i;
     Road.hits := {[1%positive; 2%positive; 3%positive; 4%positive]};
     Road.used := 0 |}.

Definition nds : gmap positive Road.NodeDescriptor :=
  <[1%positive := nd_a]> (<[2%positive := nd_b]> ∅).

Definition road0 : Road.Road :=
  match Road.Road_new kBig (Some proj3) with
  | Some r => r
  | None => Road.mkRoad (0, 0) (0, 0) kBig kBig kBig (kBig, kBig) ∅ None
  end.

(** The road after [Add] of the descriptor at address [p]. *)
Definition added (p : positive) (r : Road.Road) : Road.Road :=
  match Road.Add plane_of nds p r with
  | Some (_, r') => r'
  | None => r
  end.

Definition road1 : Road.Road := added 2 road0.
Definition road2 : Road.Road := added 1 road1.

(** Two roads in a store; the second has a slope and a position that
    differ. *)
Definition orig : Road.Road :=
  Road.mkRoad (1, 2) (3, 4) (of_Z 1) (of_Z 2) (of_Z 3) (of_Z 4, of_Z 5) ∅ None.

Definition roads : gmap positive Road.Road :=
  <[1%positive := road0]> (<[2%positive := orig]> ∅).

(** Hits for the pair iterator: address [k] is a wire hit covering
    the positions [pos k .. pos k + 1]. *)
Definition wire_heap (pos : positive -> Z) (h : positive) : HitPair.WireHit :=
  {| HitPair.fPosL := of_Z (pos h); HitPair.fPosR := of_Z (pos h + 1) |}.

(** One hit in A at 10, two hits in B at 10 and 11: both overlap it. *)
Definition pos_scan (h : positive) : Z :=
  match h with
  | 1%positive => 10
  | 2%positive => 10
  | 3%positive => 11
  | _ => 1000
  end.

Definition Compare_scan : positive -> positive -> spec_float -> Z :=
  HitPair.Compare_at (wire_heap pos_scan).

Definition collA_scan : list positive := [1%positive].
Definition collB_scan : list positive := [2%positive; 3%positive].



(** Generator inputs.  [Hash_last] hashes a pattern to its last bin;
    links are added at the head of the list. *)
Definition Hash_last (bits : list Z) : Z := List.last bits 0.

Definition half : spec_float := ddiv (of_Z 1) (of_Z 2).

Definition params_trivial : PatGen.TreeParam_t :=
  PatGen.mkParam 1 (of_Z 1) [of_Z 0; of_Z 1] (of_Z 0).

Definition params_slope : PatGen.TreeParam_t :=
  PatGen.mkParam 4 (of_Z 1) [of_Z 0; of_Z 1] half.

(** Links added at the head, or at the tail, of the list of a
    pattern. *)
Definition AddChild_head (ln : PatGen.Link) (l : list PatGen.Link) := ln :: l.
Definition AddChild_tail (ln : PatGen.Link) (l : list PatGen.Link) := l ++ [ln].

Definition generated_with (add : PatGen.Link -> list PatGen.Link -> list PatGen.Link)
    (p : PatGen.TreeParam_t) : PatGen.PatternGenerator :=
  snd (PatGen.Generate Hash_last add PatGen.Normalize
         PatGen.PatternGenerator_new p).

Definition generated (p : PatGen.TreeParam_t) : PatGen.PatternGenerator :=
  generated_with AddChild_head p.

(** What [Write] puts into the file, when it can be opened. *)
Definition file_of (g : PatGen.PatternGenerator) : list Z :=
  match PatGen.Write g true with
  | Some (_, w) => default [] (PatGen.os w)
  | None => []
  end.

(** Visits of the trivial tree: the root, then the link of type 2 to
    the pattern [0,1], then the link of type 1 back to the root. *)
Definition visit_root : PatGen.NodeDescriptor :=
  PatGen.mkNode (PatGen.mkLink 0 0) 0 0 false.
Definition visit_mirrored : PatGen.NodeDescriptor :=
  PatGen.descend visit_root (PatGen.mkLink 1 2).
Definition visit_shifted : PatGen.NodeDescriptor :=
  PatGen.descend visit_root (PatGen.mkLink 0 1).

End Examples.

(* ====================================================================== *)
(** * Part II: properties                                                  *)
(* ====================================================================== *)

(** ** MWDC::GetRefTime *)

Section MWDC_facts.
Variable kBig : spec_float.

Lemma UInt_small (n : Z) : 0 <= n < 2 ^ 32 -> UInt n = n.
Proof. intros H. unfold UInt, wrap. now apply Z.mod_small. Qed.

(** C10.  For an index [i] and a reference map of size [n] (both in the
    range of their C++ types), [GetRefTime(i)] reads [fRefTime[i]] and
    returns it when [i < n], and returns [kBig] without reading the
    vector when [n <= i]. *)
Theorem GetRefTime_guarded (d : MWDC.t) (i : Z) :
  0 <= i < 2 ^ 32 ->
  0 <= MWDC.fRefMap_GetSize d < 2 ^ 31 ->
  (i < MWDC.fRefMap_GetSize d ->
     MWDC.GetRefTime kBig d i = ([i], MWDC.vector_at (MWDC.fRefTime d) i)) /\
  (MWDC.fRefMap_GetSize d <= i ->
     MWDC.GetRefTime kBig d i = ([], MWDC.Value kBig)).
Proof.
  intros Hi Hn. unfold MWDC.GetRefTime.
  rewrite UInt_small by lia.
  split; intros H.
  - apply Z.ltb_lt in H. now rewrite H.
  - apply Z.ltb_ge in H. now rewrite H.
Qed.
End MWDC_facts.

Lemma GetRefTime_guarded_witness :
  MWDC.GetRefTime Examples.kBig Examples.mwdc 1 = ([1], MWDC.Value (of_Z 20)) /\
  MWDC.GetRefTime Examples.kBig Examples.mwdc 7 = ([], MWDC.Value Examples.kBig).
Proof.
  destruct (GetRefTime_guarded Examples.kBig Examples.mwdc 1) as [H1 _];
    [lia | simpl; lia |].
  destruct (GetRefTime_guarded Examples.kBig Examples.mwdc 7) as [_ H7];
    [lia | simpl; lia |].
  split.
  - rewrite H1 by (simpl; lia). reflexivity.
  - apply H7. simpl; lia.
Defined.

(** ** Road: assignment *)

(** C9, as stated, fails: after [r = orig] the position of [r] is the
    position of [orig], not its slope. *)
Lemma Road_assign_fPos_is_not_slope :
  exists roads' r,
    Road.Road_assign Examples.roads 1 2 = Some roads' /\
    roads' !! 1%positive = Some r /\
    Road.fPos r <> Road.fSlope Examples.orig.
Proof.
  eexists; eexists. split; [reflexivity |]. split; [reflexivity |].
  vm_compute. discriminate.
Qed.

(** C9, amended.  [Road::operator=] copies the source's [fPos] into the
    target's [fPos], and leaves the source as it was. *)
Theorem Road_assign_copies_fPos
    (roads roads' : gmap positive Road.Road) (this rhs : positive) (o : Road.Road) :
  Road.Road_assign roads this rhs = Some roads' ->
  roads !! rhs = Some o ->
  roads' !! rhs = Some o /\
  exists r, roads' !! this = Some r /\
            Road.fPos r = Road.fPos o /\ Road.fSlope r = Road.fSlope o.
Proof.
  unfold Road.Road_assign. intros H Ho.
  destruct (roads !! this) as [t|] eqn:Ht; [| discriminate].
  rewrite Ho in H.
  destruct (decide (this = rhs)) as [-> | Hne]; inversion H; subst; clear H.
  - split; [assumption |]. exists o. auto.
  - split.
    + rewrite lookup_insert_ne; auto.
    + eexists. split; [apply lookup_insert_eq |]. simpl. auto.
Qed.

Lemma Road_assign_copies_fPos_witness :
  exists r, (default Examples.roads (Road.Road_assign Examples.roads 1 2))
              !! 1%positive = Some r /\
            Road.fPos r = of_Z 2.
Proof.
  destruct (Road_assign_copies_fPos Examples.roads
              (default Examples.roads (Road.Road_assign Examples.roads 1 2))
              1 2 Examples.orig) as [_ [r [Hr [Hp _]]]];
    [reflexivity | reflexivity |].
  exists r. split; [exact Hr | exact Hp].
Defined.

(** The copy constructor is where a slope ends up in [fPos]. *)
Lemma Road_copy_fPos (orig : Road.Road) :
  Road.fPos (Road.Road_copy orig) = Road.fSlope orig.
Proof. reflexivity. Qed.

(** ** Road: building *)

Section Road_facts.
Variable kBig : spec_float.
Variable GetPlaneNum : positive -> Z.
Variable nds : gmap positive Road.NodeDescriptor.

Local Abbreviation CheckMatch := (Road.CheckMatch GetPlaneNum).
Local Abbreviation Add := (Road.Add GetPlaneNum nds).
Local Abbreviation building := (Road.building kBig GetPlaneNum nds).
Local Abbreviation common_of := (Road.common_of nds).

(** [CheckMatch] only looks at the number of planes of the build data. *)
Lemma CheckMatch_planes (b b' : Road.BuildInfo_t) (hs : gset positive) :
  Road.fNplanes b' = Road.fNplanes b -> CheckMatch b' hs = CheckMatch b hs.
Proof. unfold Road.CheckMatch. now intros ->. Qed.

Lemma common_of_snoc (ps : list positive) (p : positive) :
  ps <> [] ->
  common_of (ps ++ [p]) = common_of ps ∩ Road.hits_at nds p.
Proof.
  destruct ps as [| q ps]; [congruence |]. intros _. simpl.
  now rewrite foldl_app.
Qed.

(** What holds of the build data of a road with at least one pattern. *)
Definition coherent (r : Road.Road) : Prop :=
  forall b, Road.fBuild r = Some b -> Road.fPatterns b <> [] ->
    Road.fCommonHits b = common_of (Road.fPatterns b) /\
    CheckMatch b (Road.fCommonHits b) = true.

(** The effect of an accepted [Add], read off the code. *)
Lemma Add_accepted (r r' : Road.Road) (p : positive) :
  Add p r = Some (true, r') ->
  exists b nd common all,
    Road.fBuild r = Some b /\ nds !! p = Some nd /\
    Road.Add_hits GetPlaneNum r b nd = Some (Road.Accepted common all) /\
    Road.fHits r' = all /\
    Road.fBuild r' =
      Some {| Road.fPatterns := Road.fPatterns b ++ [p];
              Road.fCommonHits := common;
              Road.fHitpattern := Road.fHitpattern b;
              Road.fNlayers := Road.fNlayers b;
              Road.fNplanes := Road.fNplanes b |}.
Proof.
  unfold Road.Add. intros H.
  destruct (Road.fBuild r) as [b|]; [| discriminate].
  destruct (nds !! p) as [nd|]; [| discriminate].
  destruct (Road.Add_hits GetPlaneNum r b nd) as [[| common all]|] eqn:Hh;
    try discriminate.
  destruct (negb (Road.nbits nd =? Road.fNlayers b)); [discriminate |].
  inversion H; subst; clear H. simpl.
  exists b, nd, common, all. auto.
Qed.

(** The hit bookkeeping: on the first pattern the common hits are its
    hits; later they are the old ones cut with its hits, they pass
    [CheckMatch] if they pass before, and every common hit is in the new
    [fHits]. *)
Lemma Add_hits_accepted (r : Road.Road) (b : Road.BuildInfo_t)
    (nd : Road.NodeDescriptor) (common all : gset positive) :
  Road.Add_hits GetPlaneNum r b nd = Some (Road.Accepted common all) ->
  (Road.fPatterns b = [] ->
     common = Road.hits nd /\ CheckMatch b common = true) /\
  (Road.fPatterns b <> [] ->
     common = Road.fCommonHits b ∩ Road.hits nd /\
     (CheckMatch b (Road.fCommonHits b) = true -> CheckMatch b common = true)) /\
  common ⊆ Road.hits nd /\
  Road.hits nd ⊆ all.
Proof.
  unfold Road.Add_hits. intros H.
  case_bool_decide as Hfirst.
  - destruct (CheckMatch b (Road.hits nd)) eqn:Hc; simpl in H;
      inversion H; subst; clear H.
    repeat split; try congruence; set_solver.
  - destruct (size (Road.hits nd ∩ Road.fCommonHits b)
                <=? size (Road.fCommonHits b))%nat eqn:Hle;
      simpl in H; [| discriminate].
    assert (Hall : Road.hits nd ⊆
              (if negb (size (Road.fHits r ∪ Road.hits nd)
                          =? size (Road.fHits r))%nat
               then Road.fHits r ∪ Road.hits nd else Road.fHits r)).
    { destruct (size (Road.fHits r ∪ Road.hits nd)
                  =? size (Road.fHits r))%nat eqn:He; simpl.
      - apply Nat.eqb_eq in He.
        assert (Road.fHits r = Road.fHits r ∪ Road.hits nd) as ->.
        { apply set_subseteq_size_eq; [set_solver | lia]. }
        set_solver.
      - set_solver. }
    destruct (size (Road.hits nd ∩ Road.fCommonHits b)
                <? size (Road.fCommonHits b))%nat eqn:Hlt.
    + destruct (CheckMatch b (Road.hits nd ∩ Road.fCommonHits b)) eqn:Hc;
        simpl in H; inversion H; subst; clear H.
      repeat split; try congruence; try set_solver.
    + inversion H; subst; clear H.
      apply Nat.ltb_ge in Hlt.
      assert (Heq : Road.hits nd ∩ Road.fCommonHits b = Road.fCommonHits b).
      { apply set_subseteq_size_eq; [set_solver | lia]. }
      repeat split; try congruence; try set_solver.
Qed.

Lemma Add_coherent (r r' : Road.Road) (p : positive) (ok : bool) :
  coherent r -> Add p r = Some (ok, r') -> coherent r'.
Proof.
  intros Hr H. destruct ok.
  - destruct (Add_accepted _ _ _ H) as (b & nd & common & all & Hb & Hnd & Hh & _ & Hb').
    destruct (Add_hits_accepted _ _ _ _ _ Hh) as (Hfirst & Hlater & _ & _).
    intros b' Hb'' _. rewrite Hb' in Hb''. inversion Hb''; subst; clear Hb''. simpl.
    rewrite (CheckMatch_planes b) by reflexivity.
    destruct (Road.fPatterns b) as [| q ps] eqn:Hps.
    + destruct Hfirst as [-> Hc]; [reflexivity |]. split; [| exact Hc].
      simpl. unfold Road.hits_at. now rewrite Hnd.
    + destruct Hlater as [-> Hc]; [discriminate |].
      destruct (Hr b Hb) as [Hcom Hck]; [rewrite Hps; discriminate |].
      split; [| now apply Hc].
      change (q :: ps ++ [p]) with ((q :: ps) ++ [p]).
      rewrite common_of_snoc by discriminate.
      rewrite Hps in Hcom. rewrite <- Hcom.
      unfold Road.hits_at. now rewrite Hnd.
  - unfold Road.Add in H.
    destruct (Road.fBuild r) as [b|] eqn:Hb.
    + destruct (nds !! p) as [nd|]; [| discriminate].
      destruct (Road.Add_hits GetPlaneNum r b nd) as [[| common all]|];
        try discriminate.
      * now inversion H; subst.
      * destruct (negb (Road.nbits nd =? Road.fNlayers b)); discriminate.
    + now inversion H; subst.
Qed.

Lemma building_coherent (r : Road.Road) : building r -> coherent r.
Proof.
  induction 1 as [proj r Hnew | r p ok r' _ IH Hadd | r _ IH | r rhs _ _ _ IH].
  - intros b Hb Hne. exfalso. apply Hne.
    unfold Road.Road_new in Hnew.
    destruct proj as [pr|]; [| discriminate].
    destruct (Road.GetHitpattern pr); [| discriminate].
    destruct (negb (Road.GetNlayers pr =? 0) &&
              (Road.GetNlayers pr <=? Road.GetNplanes pr)); [| discriminate].
    inversion Hnew; subst; clear Hnew. simpl in Hb.
    now inversion Hb; subst.
  - eapply Add_coherent; eauto.
  - exact IH.
  - exact IH.
Qed.

(** C2.  On a road under construction, an [Add] that returns true
    appends the pattern, and afterwards the common hits are the
    intersection of the hit sets of all accepted patterns, they pass
    [CheckMatch], and they are contained in [fHits]; when the road had a
    pattern before, the common hits have not grown. *)
Theorem Add_keeps_common_hits (r r' : Road.Road) (p : positive) :
  building r ->
  Add p r = Some (true, r') ->
  exists b b',
    Road.fBuild r = Some b /\ Road.fBuild r' = Some b' /\
    Road.fPatterns b' = Road.fPatterns b ++ [p] /\
    Road.fCommonHits b' = common_of (Road.fPatterns b') /\
    CheckMatch b' (Road.fCommonHits b') = true /\
    Road.fCommonHits b' ⊆ Road.fHits r' /\
    (Road.fPatterns b <> [] ->
       Road.fCommonHits b' ⊆ Road.fCommonHits b /\
       (size (Road.fCommonHits b') <= size (Road.fCommonHits b))%nat).
Proof.
  intros Hbuild H.
  assert (Hco' : coherent r').
  { eapply Add_coherent; [apply building_coherent; eassumption | eassumption]. }
  destruct (Add_accepted _ _ _ H) as (b & nd & common & all & Hb & Hnd & Hh & Hall & Hb').
  destruct (Add_hits_accepted _ _ _ _ _ Hh) as (_ & Hlater & Hsub & Hin).
  eexists b, _. split; [exact Hb |]. split; [exact Hb' |].
  destruct (Hco' _ Hb') as [Hcom Hck].
  { simpl. destruct (Road.fPatterns b); discriminate. }
  simpl in *. repeat split; try assumption.
  - rewrite Hall. set_solver.
  - destruct (Hlater H0) as [-> _]. set_solver.
  - destruct (Hlater H0) as [-> _]. apply subseteq_size. set_solver.
Qed.

(** An [Add] that returns false leaves the road as it is. *)
Lemma Add_rejected (r r' : Road.Road) (p : positive) :
  Add p r = Some (false, r') -> r' = r.
Proof.
  unfold Road.Add. intros H.
  destruct (Road.fBuild r) as [b|]; [| now inversion H].
  destruct (nds !! p) as [nd|]; [| discriminate].
  destruct (Road.Add_hits GetPlaneNum r b nd) as [[| common all]|];
    try discriminate.
  - now inversion H.
  - destruct (negb (Road.nbits nd =? Road.fNlayers b)); discriminate.
Qed.

End Road_facts.

Lemma Add_keeps_common_hits_witness :
  exists b b',
    Road.fBuild Examples.road1 = Some b /\
    Road.fBuild Examples.road2 = Some b' /\
    Road.fPatterns b' = Road.fPatterns b ++ [1%positive] /\
    Road.fCommonHits b' = Road.common_of Examples.nds (Road.fPatterns b') /\
    Road.CheckMatch Examples.plane_of b' (Road.fCommonHits b') = true /\
    Road.fCommonHits b' ⊆ Road.fHits Examples.road2 /\
    (Road.fPatterns b <> [] ->
       Road.fCommonHits b' ⊆ Road.fCommonHits b /\
       (size (Road.fCommonHits b') <= size (Road.fCommonHits b))%nat).
Proof.
  apply (Add_keeps_common_hits Examples.kBig Examples.plane_of Examples.nds
           Examples.road1 Examples.road2 1%positive).
  - apply (Road.building_add _ _ _ Examples.road0 2%positive true).
    + apply (Road.building_new _ _ _ (Some Examples.proj3)). reflexivity.
    + vm_compute. reflexivity.
  - vm_compute. reflexivity.
Defined.

(** ** Road: finishing *)

Section Finish_facts.
Variable common : gset positive.

(** The mark a descriptor carries once the loop of [Finish] has passed
    it. *)
Definition marked (s : gmap positive Road.NodeDescriptor) (q : positive) : Prop :=
  exists nd, s !! q = Some nd /\
    (Road.used nd = 1 \/ Road.used nd = 2) /\
    (Road.used nd = 2 <-> Road.hits nd ⊆ common).

Lemma difference_empty_subseteq (X : gset positive) :
  elements (X ∖ common) = [] <-> X ⊆ common.
Proof.
  rewrite elements_empty_iff. split; intros H.
  - intros x Hx. destruct (decide (x ∈ common)); [assumption |].
    exfalso. apply (not_elem_of_empty (C := gset positive) x).
    apply H. set_solver.
  - set_solver.
Qed.

Lemma Finish_mark_marks (s s' : gmap positive Road.NodeDescriptor) (p : positive) :
  Road.Finish_mark common s p = Some s' -> marked s' p.
Proof.
  unfold Road.Finish_mark. intros H.
  destruct (s !! p) as [nd|]; [| discriminate].
  destruct (negb (Road.used nd <? 2)); [discriminate |].
  inversion H; subst; clear H.
  eexists. split; [apply lookup_insert_eq |].
  pose proof (difference_empty_subseteq (Road.hits nd)) as Hd.
  simpl. destruct (elements (Road.hits nd ∖ common)) as [| x l].
  - split; [now right |]. split; [intros _; now apply Hd | reflexivity].
  - split; [now left |]. split; [discriminate |].
    intros Hs. apply Hd in Hs. discriminate.
Qed.

Lemma Finish_mark_other (s s' : gmap positive Road.NodeDescriptor) (p q : positive) :
  Road.Finish_mark common s p = Some s' -> q <> p -> s' !! q = s !! q.
Proof.
  unfold Road.Finish_mark. intros H Hne.
  destruct (s !! p) as [nd|]; [| discriminate].
  destruct (negb (Road.used nd <? 2)); [discriminate |].
  inversion H; subst; clear H. now apply lookup_insert_ne.
Qed.

Lemma Finish_mark_hits (s s' : gmap positive Road.NodeDescriptor)
    (p q : positive) (nd : Road.NodeDescriptor) :
  Road.Finish_mark common s p = Some s' -> s !! q = Some nd ->
  exists nd', s' !! q = Some nd' /\ Road.hits nd' = Road.hits nd.
Proof.
  intros H Hq. destruct (decide (q = p)) as [-> | Hne].
  - unfold Road.Finish_mark in H. rewrite Hq in H.
    destruct (negb (Road.used nd <? 2)); [discriminate |].
    inversion H; subst; clear H.
    eexists. split; [apply lookup_insert_eq | reflexivity].
  - exists nd. split; [| reflexivity].
    now rewrite (Finish_mark_other _ _ _ _ H Hne).
Qed.

Lemma Finish_mark_keeps (s s' : gmap positive Road.NodeDescriptor) (p q : positive) :
  Road.Finish_mark common s p = Some s' -> marked s q -> marked s' q.
Proof.
  intros H Hq. destruct (decide (q = p)) as [-> | Hne].
  - eapply Finish_mark_marks; eassumption.
  - unfold marked. now rewrite (Finish_mark_other _ _ _ _ H Hne).
Qed.

Lemma Finish_loop_spec (ps : list positive) :
  forall s s', Road.Finish_loop common s ps = Some s' ->
    (forall q, marked s q -> marked s' q) /\
    (forall q, q ∈ ps -> marked s' q) /\
    (forall q nd, s !! q = Some nd ->
       exists nd', s' !! q = Some nd' /\ Road.hits nd' = Road.hits nd).
Proof.
  induction ps as [| p ps IH]; simpl; intros s s' H.
  - inversion H; subst. repeat split; eauto.
    intros q Hq. inversion Hq.
  - destruct (Road.Finish_mark common s p) as [s1|] eqn:H1; [| discriminate].
    destruct (IH _ _ H) as (Hkeep & Hall & Hhits).
    repeat split.
    + intros q Hq. apply Hkeep. eapply Finish_mark_keeps; eassumption.
    + intros q Hq. apply elem_of_cons in Hq as [-> | Hq].
      * apply Hkeep. eapply Finish_mark_marks; eassumption.
      * now apply Hall.
    + intros q nd Hq.
      destruct (Finish_mark_hits _ _ _ _ _ H1 Hq) as (nd1 & Hq1 & Hh1).
      destruct (Hhits _ _ Hq1) as (nd' & Hq' & Hh').
      exists nd'. split; [assumption | congruence].
Qed.

(** The loop runs to its end when no descriptor is listed twice and none
    is fully used yet. *)
Lemma Finish_loop_returns (ps : list positive) :
  forall s, NoDup ps ->
    (forall p, p ∈ ps -> exists nd, s !! p = Some nd /\ Road.used nd < 2) ->
    exists s', Road.Finish_loop common s ps = Some s'.
Proof.
  induction ps as [| p ps IH]; simpl; intros s Hnd Hall.
  - eauto.
  - apply NoDup_cons in Hnd as [Hp Hnd].
    destruct (Hall p) as (nd & Hnd' & Hu); [left |].
    assert (H1 : exists s1, Road.Finish_mark common s p = Some s1).
    { unfold Road.Finish_mark. rewrite Hnd'.
      apply Z.ltb_lt in Hu. rewrite Hu. simpl. eauto. }
    destruct H1 as [s1 H1]. rewrite H1.
    apply IH; [assumption |].
    intros q Hq. rewrite (Finish_mark_other _ _ _ _ H1).
    + apply Hall. now right.
    + intros ->. contradiction.
Qed.
End Finish_facts.

Section Finish_theorem.
Variable nds : gmap positive Road.NodeDescriptor.

(** C3.  [Finish] returns when every accepted descriptor is listed once
    and is not yet fully used.  Whenever it returns, the build data is
    gone and every accepted descriptor keeps its hits and has [used]
    equal to 1 or 2, with 2 exactly when its hits are all common hits of
    the road, that is when the difference of its hits and the common
    hits is empty. *)
Theorem Finish_marks_used (r : Road.Road) (b : Road.BuildInfo_t) :
  Road.fBuild r = Some b ->
  (NoDup (Road.fPatterns b) ->
   (forall p, p ∈ Road.fPatterns b ->
      exists nd, nds !! p = Some nd /\ Road.used nd < 2) ->
   exists nds' r', Road.Finish nds r = Some (nds', r')) /\
  (forall nds' r', Road.Finish nds r = Some (nds', r') ->
     Road.fBuild r' = None /\
     forall p nd, p ∈ Road.fPatterns b -> nds !! p = Some nd ->
       exists nd', nds' !! p = Some nd' /\
         Road.hits nd' = Road.hits nd /\
         (Road.used nd' = 1 \/ Road.used nd' = 2) /\
         (Road.used nd' = 2 <-> Road.hits nd ⊆ Road.fCommonHits b) /\
         (Road.hits nd ⊆ Road.fCommonHits b <->
            Road.hits nd ∖ Road.fCommonHits b = ∅)).
Proof.
  intros Hb. unfold Road.Finish. rewrite Hb. split.
  - intros Hnd Hall.
    destruct (Finish_loop_returns (Road.fCommonHits b) _ nds Hnd Hall) as [s' Hs'].
    rewrite Hs'. eauto.
  - intros nds' r' H.
    destruct (Road.Finish_loop (Road.fCommonHits b) nds (Road.fPatterns b))
      as [s'|] eqn:Hl; [| discriminate].
    inversion H; subst; clear H. split; [reflexivity |].
    destruct (Finish_loop_spec _ _ _ _ Hl) as (_ & Hall & Hhits).
    intros p nd Hp Hnd.
    destruct (Hall p Hp) as (nd' & Hnd' & Hu & Hiff).
    destruct (Hhits p nd Hnd) as (nd2 & Hnd2 & Hh).
    rewrite Hnd' in Hnd2. inversion Hnd2; subst nd2; clear Hnd2.
    exists nd'. rewrite Hh in Hiff. repeat split; auto; try apply Hiff.
    + intros Hs. apply set_eq. intros x. set_solver.
    + intros He x Hx. destruct (decide (x ∈ Road.fCommonHits b)); [assumption |].
      exfalso. apply (not_elem_of_empty (C := gset positive) x).
      rewrite <- He. set_solver.
Qed.
End Finish_theorem.

Lemma Finish_marks_used_witness :
  exists nds' r',
    Road.Finish Examples.nds Examples.road2 = Some (nds', r') /\
    Road.fBuild r' = None /\
    (Road.used <$> nds' !! 1%positive) = Some 2 /\
    (Road.used <$> nds' !! 2%positive) = Some 1.
Proof.
  destruct (Road.fBuild Examples.road2) as [b|] eqn:Hb; [| discriminate].
  destruct (Finish_marks_used Examples.nds Examples.road2 b Hb) as [Hret _].
  vm_compute in Hb. inversion Hb; subst b; clear Hb.
  destruct Hret as (nds' & r' & H).
  - vm_compute. repeat constructor; set_solver.
  - intros p Hp. vm_compute in Hp.
    apply elem_of_cons in Hp as [-> | Hp];
      [| apply elem_of_cons in Hp as [-> | Hp]; [| inversion Hp]].
    + exists Examples.nd_b. split; [reflexivity | reflexivity].
    + exists Examples.nd_a. split; [reflexivity | reflexivity].
  - exists nds', r'. split; [exact H |].
    vm_compute in H. inversion H; subst; clear H.
    repeat split.
Defined.


(** ** HitPairIter *)

Section HitPair_facts.
Context {Hit : Type} `{EqDecision Hit}.
Variable Compare : Hit -> Hit -> spec_float -> Z.

Local Abbreviation Iter := (@HitPair.HitPairIter Hit).
Local Abbreviation advance := (HitPair.advance Compare).
Local Abbreviation Next := (HitPair.Next Compare).
Local Abbreviation drain := (HitPair.drain Compare).






























(** The state in which the constructor leaves the first block of
    [Next]. *)
Lemma start_unstarted_eq (A B : list Hit) (md : spec_float) :
  HitPair.start (HitPair.unstarted A B md) =
  HitPair.mkIter A B (snd (HitPair.TIter_Next A 0)) (snd (HitPair.TIter_Next B 0))
    0%nat None md true false (None, None)
    (fst (HitPair.TIter_Next A 0), fst (HitPair.TIter_Next B 0)).
Proof.
  unfold HitPair.start, HitPair.unstarted, HitPair.NextA, HitPair.NextB. simpl.
  destruct (HitPair.TIter_Next A 0) as [a cA].
  simpl. destruct (HitPair.TIter_Next B 0) as [b cB]. reflexivity.
Qed.



End HitPair_facts.

(** ** PatternGenerator: Generate *)

(** C1 (the code against the claim).  Whatever the parameters and whatever
    [Normalize] says about them, [Generate] returns the null pointer: the
    tree is built in the hash table, but no [PatternTree] is made from
    it. *)
Theorem Generate_returns_null
    (Hash : list Z -> Z) (AddChild : PatGen.Link -> list PatGen.Link -> list PatGen.Link)
    (Normalize : PatGen.TreeParam_t -> Z * PatGen.TreeParam_t)
    (g : PatGen.PatternGenerator) (p : PatGen.TreeParam_t) :
  fst (PatGen.Generate Hash AddChild Normalize g p) = None.
Proof.
  unfold PatGen.Generate. destruct (Normalize p) as [err p'].
  now destruct (negb (err =? 0)).
Qed.

(** The parameters of the trivial tree are valid, the build stores
    patterns for them, and still no tree is returned. *)
Lemma Generate_valid_parameters :
  PatGen.valid_params Examples.params_trivial = true /\
  PatGen.stored (Examples.generated Examples.params_trivial) <> [] /\
  fst (PatGen.Generate Examples.Hash_last Examples.AddChild_head PatGen.Normalize
         PatGen.PatternGenerator_new Examples.params_trivial) = None.
Proof.
  split; [reflexivity |]. split; [| reflexivity].
  vm_compute. discriminate.
Qed.

(** C4 (the code against the claim).  For maxdepth 4, two planes at 0 and
    1 and maxslope 1/2, the pattern [0,7] ends up stored with minimal
    depth 3, and [TestSlope] of it at depth 3 is false; so it is for the
    pattern [0,6].  This does not depend on where [AddChild] puts a
    link. *)
Theorem min_depth_fails_TestSlope :
  PatGen.valid_params Examples.params_slope = true /\
  (let g := Examples.generated_with Examples.AddChild_head Examples.params_slope in
   In ([0; 7], 3) (PatGen.stored_patterns g) /\
   PatGen.TestSlope g [0; 7] 3 = false /\
   In ([0; 6], 3) (PatGen.stored_patterns g) /\
   PatGen.TestSlope g [0; 6] 3 = false) /\
  (let g := Examples.generated_with Examples.AddChild_tail Examples.params_slope in
   In ([0; 7], 3) (PatGen.stored_patterns g) /\
   PatGen.TestSlope g [0; 7] 3 = false).
Proof.
  split; [reflexivity |]. split.
  - vm_compute. repeat split; tauto.
  - vm_compute. repeat split; tauto.
Qed.

(** When [0,7] was made, at depth 4, it did pass the test. *)
Lemma TestSlope_at_creation :
  PatGen.TestSlope (Examples.generated Examples.params_slope) [0; 7] 4 = true.
Proof. reflexivity. Qed.

(** ** PatternGenerator: the trivial tree *)

(** C7, as stated, fails: for maxDepth 1 the table holds more than the
    root, the root has children, the record of the root alone takes 5
    bytes, and the file is longer than 4 bytes. *)
Lemma trivial_tree_is_not_root_only :
  let g := Examples.generated Examples.params_trivial in
  let w0 := PatGen.WritePattern_new true (PatGen.index_size g) in
  length (PatGen.stored g) <> 1%nat /\
  PatGen.children_at g 0 <> [] /\
  length (PatGen.written w0
            (snd (PatGen.WritePattern_visit (PatGen.arena g) w0
                    Examples.visit_root))) = 5%nat /\
  length (Examples.file_of g) <> 4%nat.
Proof. vm_compute. repeat split; discriminate. Qed.

(** ** ChildIter: normalized children *)

Section ChildIter_facts.

(** A stored pattern is normalized when its first bin is 0 and every
    bin fits [UShort_t]. *)
Definition normalized (bits : list Z) : Prop :=
  bits !! 0%nat = Some 0 /\ Forall (fun b => 0 <= b < 65536) bits.

Lemma UShort_range (x : Z) : 0 <= UShort x < 65536.
Proof. unfold UShort, wrap. apply Z.mod_pos_bound. lia. Qed.

Lemma UShort_le (x : Z) : 0 <= x -> UShort x <= x.
Proof. intros H. unfold UShort, wrap. apply Z.mod_le; lia. Qed.

Lemma UShort_small (x : Z) : 0 <= x < 65536 -> UShort x = x.
Proof. intros H. unfold UShort, wrap. apply Z.mod_small. lia. Qed.

Lemma trial_maxbit_ge (bits : list Z) :
  0 <= PatGen.trial_maxbit bits /\
  forall x, In x bits -> x <= PatGen.trial_maxbit bits.
Proof.
  induction bits as [| b bits [IH0 IH]]; simpl.
  - split; [lia | tauto].
  - destruct (b >? PatGen.trial_maxbit bits) eqn:E.
    + apply Z.gtb_lt in E. split; [lia |].
      intros x [-> | Hx]; [lia |]. specialize (IH x Hx). lia.
    + assert (b <= PatGen.trial_maxbit bits).
      { destruct (Z.gtb_spec b (PatGen.trial_maxbit bits)); [discriminate | lia]. }
      split; [lia |]. intros x [-> | Hx]; [lia | auto].
Qed.

Lemma trial_minbit_le (bits : list Z) :
  PatGen.trial_minbit bits <= 1 /\
  (forall x, In x bits -> PatGen.trial_minbit bits <= x) /\
  (Forall (fun b => 0 <= b) bits -> 0 <= PatGen.trial_minbit bits).
Proof.
  induction bits as [| b bits (IH1 & IH & IH0)]; simpl.
  - repeat split; [lia | tauto | lia].
  - destruct (Z.ltb_spec b (PatGen.trial_minbit bits)).
    + repeat split; [lia | |].
      * intros x [-> | Hx]; [lia |]. specialize (IH x Hx). lia.
      * intros Hall. inversion Hall; subst. lia.
    + repeat split; [lia | |].
      * intros x [-> | Hx]; [lia | auto].
      * intros Hall. inversion Hall; subst. auto.
Qed.

Lemma last_map_UShort (l : list Z) :
  List.last (map UShort l) 0 = UShort (List.last l 0).
Proof.
  induction l as [| a [| b l] IH]; try reflexivity.
  change (List.last (map UShort (b :: l)) 0 = UShort (List.last (b :: l) 0)).
  exact IH.
Qed.

Lemma last_In (a : Z) (l : list Z) : In (List.last (a :: l) 0) (a :: l).
Proof.
  revert a. induction l as [| b l IH]; intros a; [now left |].
  right. apply (IH b).
Qed.

(** The bits of a trial, for a normalized parent: the first is 0 or 1,
    none is negative. *)
Lemma trial_bits_shape (parent : list Z) (count : Z) :
  normalized parent ->
  exists b0 rest,
    PatGen.trial_bits parent count = b0 :: rest /\
    (b0 = 0 \/ b0 = 1) /\ Forall (fun b => 0 <= b) (b0 :: rest).
Proof.
  intros [H0 Hall].
  assert (Hpos : Forall (fun b => 0 <= b) (PatGen.trial_bits parent count)).
  { apply Forall_lookup. intros i x Hx. unfold PatGen.trial_bits in Hx.
    rewrite list_lookup_imap in Hx.
    destruct (parent !! i) as [p|] eqn:Ep; [| discriminate].
    simpl in Hx. inversion Hx; subst; clear Hx.
    rewrite Forall_lookup in Hall. specialize (Hall i p Ep).
    assert (Hs : 0 <= Z.shiftl p 1) by (apply Z.shiftl_nonneg; lia).
    cbv zeta. destruct (negb _); lia. }
  assert (Hfirst : exists b0, PatGen.trial_bits parent count !! 0%nat = Some b0 /\
                              (b0 = 0 \/ b0 = 1)).
  { unfold PatGen.trial_bits. rewrite list_lookup_imap, H0. simpl.
    eexists. split; [reflexivity |].
    destruct (negb _); [right | left]; reflexivity. }
  destruct Hfirst as (b0 & Hl & Hb0).
  destruct (PatGen.trial_bits parent count) as [| b rest]; [discriminate |].
  simpl in Hl. inversion Hl; subst b. eauto.
Qed.

Lemma normalized_map (h : Z -> Z) (b0 : Z) (rest : list Z) :
  h b0 = 0 -> (forall x, 0 <= h x < 65536) ->
  normalized (map h (b0 :: rest)).
Proof.
  intros H0 Hr. split; simpl; [now rewrite H0 |].
  constructor; [apply Hr |]. apply Forall_forall. intros x Hx.
  apply list_elem_of_fmap in Hx as (y & -> & _). apply Hr.
Qed.

(** A trial that is not skipped gives a normalized child. *)
Lemma trial_normalized (parent : list Z) (count : Z)
    (raw child : list Z) (type : Z) :
  normalized parent ->
  PatGen.trial parent count = (raw, Some (child, type)) ->
  normalized child.
Proof.
  intros Hp. unfold PatGen.trial.
  destruct (trial_bits_shape parent count Hp) as (b0 & rest & -> & Hb0 & Hpos).
  pose proof (trial_maxbit_ge (b0 :: rest)) as [Hmax0 Hmax].
  pose proof (trial_minbit_le (b0 :: rest)) as (Hmin1 & Hmin & Hmin0).
  specialize (Hmin0 Hpos).
  pose proof (Hmin b0 (or_introl eq_refl)) as Hminb0.
  pose proof (last_In b0 rest) as HL.
  pose proof (Hmax _ HL) as HLmax. pose proof (Hmin _ HL) as HLmin.
  assert (HL0 : 0 <= List.last (b0 :: rest) 0).
  { rewrite Forall_forall in Hpos. apply Hpos. now apply list_elem_of_In. }
  unfold PatGen.GetWidth. rewrite last_map_UShort.
  change (List.hd 0 (map UShort (b0 :: rest))) with (UShort b0).
  rewrite (UShort_small b0) by lia.
  pose proof (UShort_range (List.last (b0 :: rest) 0)) as HLt.
  pose proof (UShort_le _ HL0) as HLle.
  set (L := List.last (b0 :: rest) 0) in *.
  set (mx := PatGen.trial_maxbit (b0 :: rest)) in *.
  set (mn := PatGen.trial_minbit (b0 :: rest)) in *.
  destruct (Z.gtb_spec (mx - mn) (Z.abs (UShort L - b0))) as [Hrej | Hacc];
    [discriminate |].
  destruct (Z.eqb_spec mn 0) as [Hmn | Hmn];
    destruct (Z.ltb_spec (UShort L - b0) 0) as [Hw | Hw];
    intros H; inversion H; subst; clear H.
  - (* mirrored, not shifted *)
    rewrite map_map.
    apply (normalized_map (fun x => UShort (- (UShort L - b0) - UShort x)));
      [| intros y; apply UShort_range].
    rewrite (UShort_small b0) by lia.
    replace (- (UShort L - b0) - b0) with 0 by lia. reflexivity.
  - (* neither *)
    apply (normalized_map UShort); [| intros y; apply UShort_range].
    rewrite UShort_small by lia. lia.
  - (* shifted and mirrored: cannot pass the width test *)
    exfalso.
    assert (HLs : UShort L = L) by (apply UShort_small; lia).
    lia.
  - (* shifted *)
    rewrite map_map.
    apply (normalized_map (fun x => UShort (UShort x - 1)));
      [| intros y; apply UShort_range].
    rewrite (UShort_small b0) by lia.
    replace (b0 - 1) with 0 by lia. reflexivity.
Qed.

Lemma ChildIter_loop_count (n : nat) :
  forall it, let it' := PatGen.ChildIter_loop n it in
    PatGen.ci_fParent it' = PatGen.ci_fParent it /\
    -1 <= PatGen.ci_fCount it' < Z.of_nat n.
Proof.
  induction n as [| n IH]; intros it; simpl.
  - split; [reflexivity | lia].
  - destruct (PatGen.trial (PatGen.ci_fParent it) (Z.of_nat n))
      as [raw [[child type] |]]; simpl.
    + split; [reflexivity | lia].
    + destruct (IH (PatGen.mkChildIter (PatGen.ci_fParent it) raw
                      (Z.of_nat n) (PatGen.ci_fType it))) as [HP HC].
      simpl in *. split; [assumption | lia].
Qed.

Lemma ChildIter_loop_normalized (n : nat) :
  forall it, normalized (PatGen.ci_fParent it) ->
    0 <= PatGen.ci_fCount (PatGen.ChildIter_loop n it) ->
    normalized (PatGen.ci_fChild (PatGen.ChildIter_loop n it)).
Proof.
  induction n as [| n IH]; intros it Hp; simpl; [lia |].
  destruct (PatGen.trial (PatGen.ci_fParent it) (Z.of_nat n))
    as [raw [[child type] |]] eqn:Et; simpl.
  - intros _. eapply trial_normalized; eassumption.
  - apply IH. exact Hp.
Qed.

Lemma ChildIter_incr_spec (it : PatGen.ChildIter) :
  let it' := PatGen.ChildIter_incr it in
  PatGen.ci_fParent it' = PatGen.ci_fParent it /\
  -1 <= PatGen.ci_fCount it' /\
  (0 <= PatGen.ci_fCount it -> PatGen.ci_fCount it' < PatGen.ci_fCount it) /\
  (normalized (PatGen.ci_fParent it) -> 0 <= PatGen.ci_fCount it' ->
   normalized (PatGen.ci_fChild it')).
Proof.
  unfold PatGen.ChildIter_incr.
  destruct (Z.gtb_spec (PatGen.ci_fCount it) 0) as [Hc | Hc].
  - destruct (ChildIter_loop_count (Z.to_nat (PatGen.ci_fCount it)) it) as [HP HC].
    split; [assumption |]. split; [lia |]. split; [lia |].
    intros Hn. now apply ChildIter_loop_normalized.
  - simpl. split; [reflexivity |]. split; [lia |]. split; lia.
Qed.

Lemma ChildIter_run_normalized (fuel : nat) :
  forall it, normalized (PatGen.ci_fParent it) ->
    (0 <= PatGen.ci_fCount it -> normalized (PatGen.ci_fChild it)) ->
    forall c t, In (c, t) (PatGen.ChildIter_run fuel it) -> normalized c.
Proof.
  induction fuel as [| fuel IH]; intros it Hp Hc c t; simpl; [tauto |].
  unfold PatGen.ChildIter_valid.
  destruct (Z.geb_spec (PatGen.ci_fCount it) 0) as [Hv | Hv]; [| simpl; tauto].
  destruct (ChildIter_incr_spec it) as (HP & _ & _ & HN).
  intros [E | Hin].
  - inversion E; subst. apply Hc. lia.
  - apply (IH (PatGen.ChildIter_incr it)) with (t := t); try assumption.
    + now rewrite HP.
    + intros H0. apply HN; assumption.
Qed.

Lemma ChildIter_new_spec (parent : list Z) :
  let it := PatGen.ChildIter_new parent in
  PatGen.ci_fParent it = parent /\
  -1 <= PatGen.ci_fCount it /\
  (normalized parent -> 0 <= PatGen.ci_fCount it ->
   normalized (PatGen.ci_fChild it)).
Proof.
  unfold PatGen.ChildIter_new, PatGen.ChildIter_reset.
  match goal with
  | |- context [PatGen.ChildIter_incr ?x] =>
      destruct (ChildIter_incr_spec x) as (HP & Hm & _ & HN)
  end.
  simpl in *. auto.
Qed.

(** C5, the part on the iterator: every child that [ChildIter] yields
    for a normalized parent is normalized. *)
Lemma children_of_normalized (parent c : list Z) (t : Z) :
  normalized parent -> In (c, t) (PatGen.children_of parent) -> normalized c.
Proof.
  intros Hp. unfold PatGen.children_of.
  destruct (ChildIter_new_spec parent) as (HP & _ & HN).
  apply ChildIter_run_normalized.
  - now rewrite HP.
  - intros H0. now apply HN.
Qed.

(** The list of children is complete: more turns of the loop add
    nothing. *)
Lemma ChildIter_run_enough (fuel : nat) :
  forall it fuel', PatGen.ci_fCount it + 1 < Z.of_nat fuel -> (fuel <= fuel')%nat ->
    PatGen.ChildIter_run fuel' it = PatGen.ChildIter_run fuel it.
Proof.
  induction fuel as [| fuel IH]; intros it fuel' Hc Hle.
  - destruct fuel'; simpl; unfold PatGen.ChildIter_valid;
      destruct (Z.geb_spec (PatGen.ci_fCount it) 0); try reflexivity; lia.
  - destruct fuel' as [| fuel']; [lia |]. simpl.
    unfold PatGen.ChildIter_valid.
    destruct (Z.geb_spec (PatGen.ci_fCount it) 0) as [Hv | Hv]; [| reflexivity].
    f_equal. apply IH; [| lia].
    destruct (ChildIter_incr_spec it) as (_ & _ & Hdec & _).
    specialize (Hdec Hv). lia.
Qed.

Lemma children_of_complete (parent : list Z) (fuel : nat) :
  (Z.to_nat (PatGen.ci_fCount (PatGen.ChildIter_new parent) + 2) <= fuel)%nat ->
  PatGen.ChildIter_run fuel (PatGen.ChildIter_new parent) = PatGen.children_of parent.
Proof.
  intros H. unfold PatGen.children_of. apply ChildIter_run_enough; [| exact H].
  destruct (ChildIter_new_spec parent) as (_ & Hm & _). lia.
Qed.

Lemma normalized_width (bits : list Z) :
  normalized bits ->
  0 <= PatGen.GetWidth bits /\ 0 <= PatGen.max_bit bits - PatGen.min_bit bits.
Proof.
  intros [H0 Hall]. destruct bits as [| b0 rest]; [discriminate |].
  simpl in H0. inversion H0; subst b0; clear H0. split.
  - unfold PatGen.GetWidth.
    pose proof (last_In 0 rest) as HL. apply list_elem_of_In in HL.
    rewrite Forall_forall in Hall. specialize (Hall _ HL).
    change (List.hd 0 (0 :: rest)) with 0. lia.
  - unfold PatGen.max_bit, PatGen.min_bit.
    change (List.hd 0 (0 :: rest)) with 0.
    assert (Hmax : forall l, 0 <= foldr Z.max 0 l).
    { induction l; simpl; lia. }
    assert (Hmin : forall l, foldr Z.min 0 l <= 0).
    { induction l; simpl; lia. }
    specialize (Hmax (0 :: rest)). specialize (Hmin (0 :: rest)). lia.
Qed.

End ChildIter_facts.

(** ** PatternGenerator: what is stored *)

Section Generator_facts.
Variable Hash : list Z -> Z.
Variable AddChild : PatGen.Link -> list PatGen.Link -> list PatGen.Link.

Local Abbreviation Find := (PatGen.Find Hash).
Local Abbreviation AddHash := (PatGen.AddHash Hash).
Local Abbreviation add_link := (PatGen.add_link AddChild).
Local Abbreviation try_child := (PatGen.try_child Hash AddChild).
Local Abbreviation MakeChildNodes := (PatGen.MakeChildNodes Hash AddChild).

(** Every pattern of the arena is normalized and every hash node points
    into the arena. *)
Definition arena_ok (g : PatGen.PatternGenerator) : Prop :=
  Forall (fun p => normalized (PatGen.fBits p)) (PatGen.arena g).

Definition table_ok (g : PatGen.PatternGenerator) : Prop :=
  Forall (Forall (fun node =>
                    (PatGen.fPattern node < length (PatGen.arena g))%nat))
         (PatGen.fHashTable g).

Definition generator_ok (g : PatGen.PatternGenerator) : Prop :=
  arena_ok g /\ table_ok g.

Lemma Find_stored (g : PatGen.PatternGenerator) (bits : list Z)
    (node : PatGen.HashNode) :
  Find g bits = Some node ->
  In node (PatGen.stored g) /\ bits = PatGen.bits_at g (PatGen.fPattern node).
Proof.
  unfold PatGen.Find, PatGen.stored. intros H.
  destruct (PatGen.fHashTable g !! PatGen.bucket_of Hash g bits)
    as [chain|] eqn:Ec; [| discriminate].
  apply find_some in H as [Hin Hb]. split.
  - apply in_concat. exists chain. split; [| assumption].
    apply list_elem_of_In. eapply list_elem_of_lookup_2. eassumption.
  - now apply bool_decide_eq_true in Hb.
Qed.

Lemma table_ok_In (g : PatGen.PatternGenerator) (node : PatGen.HashNode) :
  table_ok g -> In node (PatGen.stored g) ->
  (PatGen.fPattern node < length (PatGen.arena g))%nat.
Proof.
  unfold table_ok, PatGen.stored. intros Ht Hin.
  apply in_concat in Hin as (chain & Hc & Hn).
  rewrite Forall_forall in Ht. apply list_elem_of_In in Hc.
  specialize (Ht _ Hc). rewrite Forall_forall in Ht.
  apply Ht. now apply list_elem_of_In.
Qed.

Lemma UsedAtDepth_ok (g : PatGen.PatternGenerator) (pat : nat) (depth : Z) :
  generator_ok g -> generator_ok (PatGen.UsedAtDepth g pat depth).
Proof.
  intros [Ha Ht]. split; [exact Ha |].
  unfold table_ok, PatGen.UsedAtDepth in *. simpl.
  apply Forall_fmap. eapply Forall_impl; [exact Ht |].
  intros chain Hc. simpl. apply Forall_fmap.
  eapply Forall_impl; [exact Hc |].
  intros node Hn. simpl. now destruct (_ && _).
Qed.

Lemma add_link_ok (g : PatGen.PatternGenerator) (parent pat : nat) (type : Z) :
  generator_ok g -> generator_ok (add_link g parent pat type).
Proof.
  intros [Ha Ht]. split.
  - unfold arena_ok, PatGen.add_link in *. simpl.
    apply Forall_alter; [exact Ha |]. intros p _ Hp. exact Hp.
  - unfold table_ok, PatGen.add_link in *. simpl.
    now rewrite length_alter.
Qed.

Lemma new_Pattern_AddHash_ok (g : PatGen.PatternGenerator) (bits : list Z) :
  generator_ok g -> normalized bits ->
  generator_ok (AddHash (fst (PatGen.new_Pattern g bits))
                        (snd (PatGen.new_Pattern g bits))).
Proof.
  intros [Ha Ht] Hb. unfold PatGen.new_Pattern. simpl.
  unfold PatGen.AddHash. simpl.
  assert (Ht' : Forall (Forall (fun node =>
                 (PatGen.fPattern node
                  < length (PatGen.arena g ++ [PatGen.mkPattern bits []]))%nat))
                (PatGen.fHashTable g)).
  { eapply Forall_impl; [exact Ht |]. intros chain Hc.
    eapply Forall_impl; [exact Hc |]. intros node Hn. simpl in *.
    rewrite length_app. simpl. lia. }
  split.
  - unfold arena_ok. destruct (length (PatGen.fHashTable g) =? 0)%nat; simpl;
      (apply Forall_app; split; [exact Ha | constructor; [exact Hb | constructor]]).
  - unfold table_ok.
    destruct (length (PatGen.fHashTable g) =? 0)%nat; simpl;
      (apply Forall_alter;
       [| intros chain _ Hc; constructor;
          [simpl; rewrite length_app; simpl; lia | exact Hc]]).
    + apply Forall_replicate. constructor.
    + exact Ht'.
Qed.

Lemma try_child_ok (g : PatGen.PatternGenerator) (parent : nat) (depth : Z)
    (child : list Z) (type : Z) :
  generator_ok g -> normalized child ->
  generator_ok (try_child parent depth g (child, type)).
Proof.
  intros Hg Hc. unfold PatGen.try_child.
  destruct (Find g child) as [node|].
  - destruct (_ || _); [now apply add_link_ok | exact Hg].
  - destruct (_ && _); [| exact Hg].
    apply add_link_ok. now apply new_Pattern_AddHash_ok.
Qed.

Lemma foldl_invariant {A B : Type} (P : A -> Prop) (f : A -> B -> A) (l : list B) :
  (forall a x, P a -> In x l -> P (f a x)) ->
  forall a, P a -> P (foldl f a l).
Proof.
  induction l as [| x l IH]; intros Hf a Ha; simpl; [exact Ha |].
  apply IH.
  - intros a' y Ha' Hy. apply Hf; [exact Ha' | now right].
  - apply Hf; [exact Ha | now left].
Qed.

Lemma bits_at_normalized (g : PatGen.PatternGenerator) (p : nat) :
  generator_ok g -> (p < length (PatGen.arena g))%nat ->
  normalized (PatGen.bits_at g p).
Proof.
  intros [Ha _] Hp. unfold PatGen.bits_at.
  destruct (PatGen.arena g !! p) as [pat|] eqn:E.
  - unfold arena_ok in Ha. rewrite Forall_lookup in Ha. exact (Ha _ _ E).
  - apply lookup_ge_None in E. lia.
Qed.

(** [MakeChildNodes] keeps the generator in order. *)
Lemma MakeChildNodes_ok (fuel : nat) :
  forall g pnode depth,
    generator_ok g -> (pnode < length (PatGen.arena g))%nat ->
    generator_ok (MakeChildNodes fuel g pnode depth).
Proof.
  induction fuel as [| fuel IH]; intros g pnode depth Hg Hp.
  - simpl. destruct (depth >? 0); destruct (depth >=? _);
      try exact Hg; now apply UsedAtDepth_ok.
  - simpl.
    set (g1 := if depth >? 0 then PatGen.UsedAtDepth g pnode (depth - 1) else g).
    assert (Hg1 : generator_ok g1).
    { subst g1. destruct (depth >? 0); [now apply UsedAtDepth_ok | exact Hg]. }
    assert (Hp1 : (pnode < length (PatGen.arena g1))%nat).
    { subst g1. now destruct (depth >? 0). }
    destruct (depth >=? PatGen.fNlevels g1); [exact Hg1 |].
    set (g2 := match PatGen.children_at g1 pnode with
               | [] => foldl (try_child pnode depth) g1
                         (PatGen.children_of (PatGen.bits_at g1 pnode))
               | _ :: _ => g1
               end).
    assert (Hg2 : generator_ok g2).
    { subst g2. destruct (PatGen.children_at g1 pnode); [| exact Hg1].
      apply foldl_invariant; [| exact Hg1].
      intros a [c t] Ha Hin. apply try_child_ok; [exact Ha |].
      eapply children_of_normalized; [| exact Hin].
      now apply bits_at_normalized. }
    apply foldl_invariant; [| exact Hg2].
    intros a ln Ha _.
    destruct (Find a (PatGen.bits_at a (PatGen.lnkPattern ln))) as [node|] eqn:Ef;
      [| exact Ha].
    apply Find_stored in Ef as [Hin _].
    pose proof (table_ok_In a node (proj2 Ha) Hin) as Hlt.
    destruct (PatGen.children_at a (PatGen.lnkPattern ln)).
    + now apply IH.
    + destruct (PatGen.fMinDepth node >? depth); [now apply IH | exact Ha].
Qed.

(** After the build every stored pattern is in the arena and
    normalized. *)
Lemma build_ok (g : PatGen.PatternGenerator) (p : PatGen.TreeParam_t) :
  PatGen.zpos p <> [] ->
  generator_ok (PatGen.build Hash AddChild (PatGen.DeleteTree g) p).
Proof.
  intros Hz. unfold PatGen.build.
  set (g1 := PatGen.mkGen _ _ _ _ _ _ _).
  assert (Hg1 : generator_ok g1).
  { subst g1. split; constructor. }
  assert (Hroot : normalized (PatGen.fBits (PatGen.Pattern_new (PatGen.fNplanes g1)))).
  { subst g1. simpl. rewrite Nat2Z.id.
    destruct (PatGen.zpos p) as [| z zs]; [congruence |]. simpl.
    split; [reflexivity |]. constructor; [lia |].
    apply Forall_replicate. lia. }
  pose proof (new_Pattern_AddHash_ok g1 _ Hg1 Hroot) as Hg3.
  unfold PatGen.new_Pattern in *. cbv beta iota zeta. simpl fst in Hg3. simpl snd in Hg3.
  set (g2 := PatGen.set_arena _ g1) in *.
  set (root := length (PatGen.arena g1)) in *.
  assert (Hr : (root < length (PatGen.arena (AddHash g2 root)))%nat).
  { subst g2 root. unfold PatGen.AddHash. simpl. lia. }
  pose proof (MakeChildNodes_ok
                (Z.to_nat (PatGen.fNlevels (AddHash g2 root)))
                (AddHash g2 root) root 1 Hg3 Hr) as Hg4.
  destruct Hg4 as [Ha Ht]. split; assumption.
Qed.

(** The recursion never runs out of fuel: the number of levels stays
    what it is, and any fuel above the levels left gives the same
    generator. *)
Lemma try_child_levels (g : PatGen.PatternGenerator) (parent : nat) (depth : Z)
    (ct : list Z * Z) :
  PatGen.fNlevels (try_child parent depth g ct) = PatGen.fNlevels g.
Proof.
  destruct ct as [child type]. unfold PatGen.try_child.
  destruct (Find g child) as [node|].
  - now destruct (_ || _).
  - destruct (_ && _); [| reflexivity].
    unfold PatGen.add_link, PatGen.AddHash, PatGen.new_Pattern. simpl.
    now destruct (_ =? _)%nat.
Qed.

Lemma MakeChildNodes_levels (fuel : nat) :
  forall g pnode depth,
    PatGen.fNlevels (MakeChildNodes fuel g pnode depth) = PatGen.fNlevels g.
Proof.
  induction fuel as [| fuel IH]; intros g pnode depth; simpl.
  - now destruct (depth >? 0); destruct (depth >=? _).
  - set (g1 := if depth >? 0 then PatGen.UsedAtDepth g pnode (depth - 1) else g).
    assert (H1 : PatGen.fNlevels g1 = PatGen.fNlevels g)
      by (subst g1; now destruct (depth >? 0)).
    destruct (depth >=? PatGen.fNlevels g1); [exact H1 |].
    apply (foldl_invariant (fun a => PatGen.fNlevels a = PatGen.fNlevels g)).
    + intros a ln Ha _.
      destruct (Find a _) as [node|]; [| exact Ha].
      destruct (PatGen.children_at a _); [now rewrite IH |].
      destruct (_ >? depth); [now rewrite IH | exact Ha].
    + destruct (PatGen.children_at g1 pnode); [| exact H1].
      apply (foldl_invariant (fun a => PatGen.fNlevels a = PatGen.fNlevels g));
        [| exact H1].
      intros a ct Ha _. now rewrite try_child_levels.
Qed.

Lemma foldl_ext_invariant {A B : Type} (P : A -> Prop) (f f' : A -> B -> A)
    (l : list B) :
  (forall a x, P a -> f a x = f' a x) ->
  (forall a x, P a -> P (f' a x)) ->
  forall a, P a -> foldl f a l = foldl f' a l.
Proof.
  intros He Hp. induction l as [| x l IH]; intros a Ha; simpl; [reflexivity |].
  rewrite He by exact Ha. apply IH. now apply Hp.
Qed.

Lemma MakeChildNodes_fuel (fuel : nat) :
  forall fuel' g pnode depth,
    PatGen.fNlevels g - depth < Z.of_nat fuel -> (fuel <= fuel')%nat ->
    MakeChildNodes fuel' g pnode depth = MakeChildNodes fuel g pnode depth.
Proof.
  induction fuel as [| fuel IH]; intros fuel' g pnode depth Hl Hle.
  - assert (H1 : forall n, MakeChildNodes n g pnode depth =
                   if depth >? 0 then PatGen.UsedAtDepth g pnode (depth - 1) else g).
    { intros n.
      assert (Hn : PatGen.fNlevels
                     (if depth >? 0 then PatGen.UsedAtDepth g pnode (depth - 1)
                      else g) = PatGen.fNlevels g) by now destruct (depth >? 0).
      destruct n; simpl; rewrite Hn;
        destruct (Z.geb_spec depth (PatGen.fNlevels g)); try reflexivity; lia. }
    now rewrite !H1.
  - destruct fuel' as [| fuel']; [lia |]. simpl.
    set (g1 := if depth >? 0 then PatGen.UsedAtDepth g pnode (depth - 1) else g).
    assert (H1 : PatGen.fNlevels g1 = PatGen.fNlevels g)
      by (subst g1; now destruct (depth >? 0)).
    destruct (depth >=? PatGen.fNlevels g1); [reflexivity |].
    set (g2 := match PatGen.children_at g1 pnode with
               | [] => foldl (try_child pnode depth) g1
                         (PatGen.children_of (PatGen.bits_at g1 pnode))
               | _ :: _ => g1
               end).
    assert (H2 : PatGen.fNlevels g2 = PatGen.fNlevels g).
    { subst g2. destruct (PatGen.children_at g1 pnode); [| exact H1].
      apply (foldl_invariant (fun a => PatGen.fNlevels a = PatGen.fNlevels g));
        [| exact H1].
      intros a ct Ha _. now rewrite try_child_levels. }
    apply (foldl_ext_invariant (fun a => PatGen.fNlevels a = PatGen.fNlevels g));
      [| | exact H2].
    + intros a ln Ha.
      destruct (Find a _) as [node|]; [| reflexivity].
      destruct (PatGen.children_at a _); [apply IH; lia |].
      destruct (_ >? depth); [apply IH; lia | reflexivity].
    + intros a ln Ha.
      destruct (Find a _) as [node|]; [| exact Ha].
      destruct (PatGen.children_at a _);
        [now rewrite MakeChildNodes_levels |].
      destruct (_ >? depth); [now rewrite MakeChildNodes_levels | exact Ha].
Qed.

(** The fuel [build] gives to [MakeChildNodes] is enough. *)
Lemma build_fuel_enough (g : PatGen.PatternGenerator) (root : nat) (fuel : nat) :
  (Z.to_nat (PatGen.fNlevels g) <= fuel)%nat ->
  MakeChildNodes fuel g root 1 =
  MakeChildNodes (Z.to_nat (PatGen.fNlevels g)) g root 1.
Proof.
  intros H. apply MakeChildNodes_fuel; [lia | exact H].
Qed.

End Generator_facts.

(** C5.  When [Normalize] accepts only parameters with at least one plane,
    every pattern stored in the hash table after [Generate] has first bin
    0, a width that is not negative, and a largest bin not below its
    smallest bin; and every child that [ChildIter] yields for a parent
    with first bin 0 and bins that fit [UShort_t] has these properties
    too. *)
Theorem Generate_stores_normalized
    (Hash : list Z -> Z) (AddChild : PatGen.Link -> list PatGen.Link -> list PatGen.Link)
    (Normalize : PatGen.TreeParam_t -> Z * PatGen.TreeParam_t)
    (g : PatGen.PatternGenerator) (p p' : PatGen.TreeParam_t) (err : Z) :
  Normalize p = (err, p') ->
  (err = 0 -> PatGen.zpos p' <> []) ->
  let g' := snd (PatGen.Generate Hash AddChild Normalize g p) in
  (forall node, In node (PatGen.stored g') ->
     let bits := PatGen.bits_at g' (PatGen.fPattern node) in
     bits !! 0%nat = Some 0 /\
     0 <= PatGen.max_bit bits - PatGen.min_bit bits /\
     0 <= PatGen.GetWidth bits) /\
  (forall parent c t,
     parent !! 0%nat = Some 0 -> Forall (fun b => 0 <= b < 65536) parent ->
     In (c, t) (PatGen.children_of parent) ->
     c !! 0%nat = Some 0 /\
     0 <= PatGen.max_bit c - PatGen.min_bit c /\
     0 <= PatGen.GetWidth c).
Proof.
  intros HN Hz g'. split.
  - intros node Hin bits. subst g' bits.
    unfold PatGen.Generate in *. rewrite HN in *.
    destruct (Z.eqb_spec err 0) as [He | He]; simpl in *; [| contradiction].
    pose proof (build_ok Hash AddChild g p' (Hz He)) as Hok.
    pose proof (table_ok_In _ node (proj2 Hok) Hin) as Hlt.
    pose proof (bits_at_normalized _ _ Hok Hlt) as Hn.
    destruct (normalized_width _ Hn). destruct Hn. auto.
  - intros parent c t H0 Hall Hin.
    assert (Hn : normalized c).
    { eapply children_of_normalized; [split; eassumption | exact Hin]. }
    destruct (normalized_width _ Hn). destruct Hn. auto.
Qed.

Lemma Generate_stores_normalized_witness :
  let g' := Examples.generated Examples.params_slope in
  (forall node, In node (PatGen.stored g') ->
     let bits := PatGen.bits_at g' (PatGen.fPattern node) in
     bits !! 0%nat = Some 0 /\
     0 <= PatGen.max_bit bits - PatGen.min_bit bits /\
     0 <= PatGen.GetWidth bits) /\
  (forall parent c t,
     parent !! 0%nat = Some 0 -> Forall (fun b => 0 <= b < 65536) parent ->
     In (c, t) (PatGen.children_of parent) ->
     c !! 0%nat = Some 0 /\
     0 <= PatGen.max_bit c - PatGen.min_bit c /\
     0 <= PatGen.GetWidth c).
Proof.
  apply (Generate_stores_normalized Examples.Hash_last Examples.AddChild_head
           PatGen.Normalize PatGen.PatternGenerator_new Examples.params_slope
           (snd (PatGen.Normalize Examples.params_slope)) 0).
  - reflexivity.
  - intros _. vm_compute. discriminate.
Defined.

(** ** Writing the tree *)

Section Write_facts.

Lemma index_even (q : Z) :
  0 <= q ->
  Z.land (2 * q) (Z.lnot 1) + Z.land (1 - 2 * q) 1 = 2 * q + 1.
Proof.
  intros Hq. rewrite <- Z.ldiff_land.
  change 1 with (Z.ones 1) at 1 3.
  rewrite Z.ldiff_ones_r, Z.land_ones by lia.
  rewrite Z.shiftr_div_pow2, Z.shiftl_mul_pow2 by lia.
  change (2 ^ 1) with 2. change (Z.ones 1) with 1.
  Z.to_euclidean_division_equations. lia.
Qed.

Lemma index_odd (q : Z) :
  0 <= q ->
  Z.land (2 * q + 1) (Z.lnot 1) + Z.land (1 - (2 * q + 1)) 1 = 2 * q.
Proof.
  intros Hq. rewrite <- Z.ldiff_land.
  change 1 with (Z.ones 1) at 2 5.
  rewrite Z.ldiff_ones_r, Z.land_ones by lia.
  rewrite Z.shiftr_div_pow2, Z.shiftl_mul_pow2 by lia.
  change (2 ^ 1) with 2. change (Z.ones 1) with 1.
  Z.to_euclidean_division_equations. lia.
Qed.

Lemma memory_cons (x : Z) (data : list Z) :
  PatGen.memory 2 (x :: data) =
  [(x / 256 ^ 0) mod 256; (x / 256 ^ 1) mod 256] ++ PatGen.memory 2 data.
Proof. reflexivity. Qed.

Lemma big_endian_2 (x : Z) :
  PatGen.big_endian 2 x = [(x / 256 ^ 1) mod 256; (x / 256 ^ 0) mod 256].
Proof. reflexivity. Qed.

Lemma swapped_u16_from (data : list Z) :
  forall (pre : list Z) (q : nat), length pre = (2 * q)%nat ->
    map (fun i : nat =>
           nth (Z.to_nat (Z.land (Z.of_nat i) (Z.lnot 1)
                          + Z.land (1 - Z.of_nat i) 1))
               (pre ++ PatGen.memory 2 data) 0)
        (seq (2 * q) (length data * 2)) =
    flat_map (PatGen.big_endian 2) data.
Proof.
  induction data as [| x data IH]; intros pre q Hpre; [reflexivity |].
  rewrite memory_cons.
  change (length (x :: data) * 2)%nat with (S (S (length data * 2))).
  cbn [seq map flat_map]. rewrite big_endian_2. cbn [app].
  f_equal; [| f_equal].
  - replace (Z.of_nat (2 * q)) with (2 * Z.of_nat q) by lia.
    rewrite index_even by lia.
    replace (Z.to_nat (2 * Z.of_nat q + 1)) with (length pre + 1)%nat by lia.
    rewrite app_nth2_plus. reflexivity.
  - replace (Z.of_nat (S (2 * q))) with (2 * Z.of_nat q + 1) by lia.
    rewrite index_odd by lia.
    replace (Z.to_nat (2 * Z.of_nat q)) with (length pre + 0)%nat by lia.
    rewrite app_nth2_plus. reflexivity.
  - specialize (IH (pre ++ [(x / 256 ^ 0) mod 256; (x / 256 ^ 1) mod 256]) (S q)).
    rewrite <- app_assoc in IH. cbn [app] in IH.
    replace (S (S (2 * q))) with (2 * S q)%nat by lia.
    apply IH. rewrite length_app. simpl. lia.
Qed.

(** A sequence of [UShort_t] is written most significant byte first. *)
Lemma swapped_u16 (out data : list Z) :
  PatGen.swapped_binary_write out 2 data 0 =
  out ++ flat_map (PatGen.big_endian 2) data.
Proof.
  unfold PatGen.swapped_binary_write. f_equal.
  rewrite Nat.sub_0_r.
  exact (swapped_u16_from data [] 0 eq_refl).
Qed.

(** Of an [Int_t] the last [s] bytes are written, most significant
    first. *)
Lemma swapped_index (out : list Z) (idx s : Z) :
  s = 1 \/ s = 2 \/ s = 4 ->
  PatGen.swapped_binary_write out 4 [idx] (Z.to_nat (4 - s)) =
  out ++ drop (Z.to_nat (4 - s)) (PatGen.big_endian 4 idx).
Proof.
  intros [-> | [-> | ->]]; reflexivity.
Qed.

Variable pats : list PatGen.Pattern.

Local Abbreviation visit := (PatGen.WritePattern_visit pats).
Local Abbreviation visit_all := (PatGen.visit_all pats).

Lemma written_app (w w' : PatGen.WritePattern) (out extra : list Z) :
  PatGen.os w = Some out -> PatGen.os w' = Some (out ++ extra) ->
  PatGen.written w w' = extra.
Proof.
  unfold PatGen.written. intros -> ->. now rewrite drop_app_length.
Qed.

(** A visit with an open stream, by cases on the index map. *)
Lemma visit_new (w : PatGen.WritePattern) (nd : PatGen.NodeDescriptor)
    (out : list Z) :
  PatGen.os w = Some out ->
  PatGen.fMap w !! PatGen.lnkPattern (PatGen.link nd) = None ->
  let pat := default (PatGen.mkPattern [] [])
                     (pats !! PatGen.lnkPattern (PatGen.link nd)) in
  visit w nd =
    (0, {| PatGen.os :=
             Some (out ++ [Z.lor (PatGen.lnkType (PatGen.link nd)) 128 mod 256]
                       ++ flat_map (PatGen.big_endian 2) (drop 1 (PatGen.fBits pat))
                       ++ PatGen.big_endian 2
                            (UShort (Z.of_nat (length (PatGen.fChild pat)))));
           PatGen.fIdxSiz := PatGen.fIdxSiz w;
           PatGen.fMap := <[PatGen.lnkPattern (PatGen.link nd) :=
                              PatGen.Int (Z.of_nat (size (PatGen.fMap w)))]>
                            (PatGen.fMap w) |}).
Proof.
  intros Ho Hm pat. unfold PatGen.WritePattern_visit. rewrite Ho, Hm.
  fold pat. rewrite !swapped_u16. unfold PatGen.put.
  rewrite <- !app_assoc. repeat f_equal.
Qed.

Lemma visit_old (w : PatGen.WritePattern) (nd : PatGen.NodeDescriptor)
    (out : list Z) (idx : Z) :
  PatGen.os w = Some out ->
  PatGen.fMap w !! PatGen.lnkPattern (PatGen.link nd) = Some idx ->
  PatGen.fIdxSiz w = 1 \/ PatGen.fIdxSiz w = 2 \/ PatGen.fIdxSiz w = 4 ->
  visit w nd =
    (1, {| PatGen.os :=
             Some (out ++ [PatGen.lnkType (PatGen.link nd) mod 256]
                       ++ drop (Z.to_nat (4 - PatGen.fIdxSiz w))
                               (PatGen.big_endian 4 idx));
           PatGen.fIdxSiz := PatGen.fIdxSiz w;
           PatGen.fMap := PatGen.fMap w |}).
Proof.
  intros Ho Hm Hs. unfold PatGen.WritePattern_visit. rewrite Ho, Hm.
  rewrite swapped_index by exact Hs. unfold PatGen.put.
  rewrite <- app_assoc. reflexivity.
Qed.

(** What a sequence of visits keeps and what it does to the index
    map. *)
Lemma visit_keeps (w : PatGen.WritePattern) (nd : PatGen.NodeDescriptor) :
  is_Some (PatGen.os w) ->
  let w' := snd (visit w nd) in
  is_Some (PatGen.os w') /\
  PatGen.fIdxSiz w' = PatGen.fIdxSiz w /\
  (forall p k, PatGen.fMap w !! p = Some k -> PatGen.fMap w' !! p = Some k) /\
  dom (PatGen.fMap w') =
    dom (PatGen.fMap w) ∪ {[PatGen.lnkPattern (PatGen.link nd)]}.
Proof.
  intros [out Ho]. unfold PatGen.WritePattern_visit. rewrite Ho.
  destruct (PatGen.fMap w !! PatGen.lnkPattern (PatGen.link nd)) as [idx|] eqn:Hm;
    simpl.
  - repeat split; eauto.
    assert (PatGen.lnkPattern (PatGen.link nd) ∈ dom (PatGen.fMap w))
      by (apply elem_of_dom; eauto).
    set_solver.
  - repeat split; eauto.
    + intros p k Hp. rewrite lookup_insert_ne; [exact Hp | congruence].
    + rewrite dom_insert_L. set_solver.
Qed.

Lemma visit_all_keeps (l : list PatGen.NodeDescriptor) :
  forall w, is_Some (PatGen.os w) ->
    let w' := visit_all w l in
    is_Some (PatGen.os w') /\
    PatGen.fIdxSiz w' = PatGen.fIdxSiz w /\
    (forall p k, PatGen.fMap w !! p = Some k -> PatGen.fMap w' !! p = Some k) /\
    dom (PatGen.fMap w') =
      dom (PatGen.fMap w) ∪ list_to_set (PatGen.visited l).
Proof.
  induction l as [| nd l IH]; intros w Ho; simpl.
  - repeat split; eauto. set_solver.
  - destruct (visit_keeps w nd Ho) as (Ho1 & Hs1 & Hk1 & Hd1).
    destruct (IH _ Ho1) as (Ho2 & Hs2 & Hk2 & Hd2).
    unfold PatGen.visit_all in *. simpl.
    repeat split; eauto.
    + congruence.
    + rewrite Hd2, Hd1. set_solver.
Qed.

Lemma index_size_cases (g : PatGen.PatternGenerator) :
  PatGen.fIdxSiz (PatGen.WritePattern_new true (PatGen.index_size g)) =
    PatGen.index_size g /\
  (PatGen.index_size g = 1 \/ PatGen.index_size g = 2 \/ PatGen.index_size g = 4).
Proof.
  unfold PatGen.index_size.
  destruct (_ <? Z.shiftl 1 8); [split; [reflexivity | tauto] |].
  destruct (_ <? Z.shiftl 1 16); split; try reflexivity; tauto.
Qed.

End Write_facts.

(** C6.  Take the visitor that [Write] makes for a generator, any sequence
    [l1] of visits, and one more visit of a node [nd].  The index size is
    1 below 256 patterns, 2 below 65536 and 4 otherwise.  If the pattern
    of [nd] was not visited in [l1], the visit returns 0 (the children
    follow) and writes the link type or-ed with 0x80 (128..130 for the
    types 0..2), the bins 1..N-1 as big-endian 16-bit numbers and the
    child count as a big-endian 16-bit number.  If the pattern was first
    visited after the visits [l0], the visit returns 1 (the children are
    skipped) and writes the plain link type followed by the number of
    distinct patterns in [l0], big-endian in as many bytes as the index
    size. *)
Theorem WritePattern_records
    (g : PatGen.PatternGenerator) (pats : list PatGen.Pattern)
    (l1 : list PatGen.NodeDescriptor) (nd : PatGen.NodeDescriptor) :
  let w1 := PatGen.visit_all pats
              (PatGen.WritePattern_new true (PatGen.index_size g)) l1 in
  let ret := fst (PatGen.WritePattern_visit pats w1 nd) in
  let w2 := snd (PatGen.WritePattern_visit pats w1 nd) in
  let node := PatGen.lnkPattern (PatGen.link nd) in
  let type := PatGen.lnkType (PatGen.link nd) in
  let pat := default (PatGen.mkPattern [] []) (pats !! node) in
  PatGen.fIdxSiz w1 =
    (if PatGen.nPatterns (PatGen.fStats g) <? 256 then 1
     else if PatGen.nPatterns (PatGen.fStats g) <? 65536 then 2 else 4) /\
  (~ In node (PatGen.visited l1) ->
     ret = 0 /\
     PatGen.written w1 w2 =
       [Z.lor type 128 mod 256]
       ++ flat_map (PatGen.big_endian 2) (drop 1 (PatGen.fBits pat))
       ++ PatGen.big_endian 2 (UShort (Z.of_nat (length (PatGen.fChild pat)))) /\
     (0 <= type <= 2 -> Z.lor type 128 mod 256 = 128 + type)) /\
  (forall l0 nd0 l0',
     l1 = l0 ++ nd0 :: l0' -> PatGen.lnkPattern (PatGen.link nd0) = node ->
     ~ In node (PatGen.visited l0) ->
     let index := Z.of_nat (size (list_to_set (PatGen.visited l0) : gset nat)) in
     ret = 1 /\
     PatGen.written w1 w2 =
       [type mod 256]
       ++ drop (Z.to_nat (4 - PatGen.fIdxSiz w1))
               (PatGen.big_endian 4 (PatGen.Int index)) /\
     Z.of_nat (length (drop (Z.to_nat (4 - PatGen.fIdxSiz w1))
                            (PatGen.big_endian 4 (PatGen.Int index))))
       = PatGen.fIdxSiz w1).
Proof.
  intros w1 ret w2 node type pat.
  set (w0 := PatGen.WritePattern_new true (PatGen.index_size g)) in *.
  assert (Ho0 : is_Some (PatGen.os w0)) by (simpl; eauto).
  destruct (index_size_cases g) as [Hs0 Hcases]. fold w0 in Hs0.
  destruct (visit_all_keeps pats l1 w0 Ho0) as (Ho1 & Hs1 & _ & Hd1).
  fold w1 in Ho1, Hs1, Hd1.
  assert (Hsz : PatGen.fIdxSiz w1 = PatGen.index_size g) by congruence.
  destruct Ho1 as [out Hout].
  split; [| split].
  - rewrite Hsz. reflexivity.
  - intros Hnew.
    assert (Hm : PatGen.fMap w1 !! node = None).
    { apply not_elem_of_dom. rewrite Hd1. simpl. rewrite dom_empty_L.
      intros Hin. apply Hnew. apply list_elem_of_In. set_solver. }
    subst ret w2. rewrite (visit_new pats w1 nd out Hout Hm). simpl.
    split; [reflexivity |]. split.
    + eapply written_app; [exact Hout | reflexivity].
    + intros Ht. assert (type = 0 \/ type = 1 \/ type = 2) as [-> | [-> | ->]] by lia;
        reflexivity.
  - intros l0 nd0 l0' Hl1 Hnd0 Hfirst index.
    (* the map after [l0], after [nd0], and after the rest *)
    destruct (visit_all_keeps pats l0 w0 Ho0) as (Hoa & _ & _ & Hda).
    set (wa := PatGen.visit_all pats w0 l0) in *.
    assert (Hma : PatGen.fMap wa !! node = None).
    { apply not_elem_of_dom. rewrite Hda. simpl. rewrite dom_empty_L.
      intros Hin. apply Hfirst. apply list_elem_of_In. set_solver. }
    destruct Hoa as [outa Houta].
    assert (Hmb : PatGen.fMap (snd (PatGen.WritePattern_visit pats wa nd0)) !! node
                  = Some (PatGen.Int index)).
    { rewrite <- Hnd0 in Hma.
      rewrite (visit_new pats wa nd0 outa Houta Hma). simpl.
      rewrite Hnd0. rewrite lookup_insert_eq. subst index.
      rewrite <- size_dom, Hda. simpl. rewrite dom_empty_L, union_empty_l_L.
      reflexivity. }
    assert (Hm1 : PatGen.fMap w1 !! node = Some (PatGen.Int index)).
    { subst w1. rewrite Hl1. unfold PatGen.visit_all. rewrite foldl_app. simpl.
      fold (PatGen.visit_all pats w0 l0). fold wa.
      destruct (visit_keeps pats wa nd0 (ex_intro _ outa Houta)) as (Hob & _ & _ & _).
      destruct (visit_all_keeps pats l0' _ Hob) as (_ & _ & Hk & _).
      apply Hk. exact Hmb. }
    assert (Hc1 : PatGen.fIdxSiz w1 = 1 \/ PatGen.fIdxSiz w1 = 2 \/ PatGen.fIdxSiz w1 = 4)
      by (rewrite Hsz; exact Hcases).
    subst ret w2. rewrite (visit_old pats w1 nd out _ Hout Hm1 Hc1). simpl.
    split; [reflexivity |]. split.
    + eapply written_app; [exact Hout | reflexivity].
    + destruct Hc1 as [-> | [-> | ->]]; reflexivity.
Qed.

Lemma WritePattern_records_witness :
  let g := Examples.generated Examples.params_trivial in
  let pats := PatGen.arena g in
  let w0 := PatGen.WritePattern_new true (PatGen.index_size g) in
  let w1 := PatGen.visit_all pats w0 [Examples.visit_root] in
  (fst (PatGen.WritePattern_visit pats w1 Examples.visit_mirrored) = 0 /\
   PatGen.written w1 (snd (PatGen.WritePattern_visit pats w1 Examples.visit_mirrored))
     = [130; 0; 1; 0; 0]) /\
  (fst (PatGen.WritePattern_visit pats w1 Examples.visit_shifted) = 1 /\
   PatGen.written w1 (snd (PatGen.WritePattern_visit pats w1 Examples.visit_shifted))
     = [1; 0]).
Proof.
  intros g pats w0 w1. split.
  - destruct (WritePattern_records g pats [Examples.visit_root] Examples.visit_mirrored)
      as (_ & Hnew & _).
    destruct Hnew as (Hr & Hw & _).
    + vm_compute. intros [H | []]. discriminate.
    + split; [exact Hr |]. subst w1 w0 pats g. rewrite Hw. reflexivity.
  - destruct (WritePattern_records g pats [Examples.visit_root] Examples.visit_shifted)
      as (_ & _ & Hold).
    destruct (Hold [] Examples.visit_root [] eq_refl eq_refl (fun H => H))
      as (Hr & Hw & _).
    split; [exact Hr |]. subst w1 w0 pats g. rewrite Hw. reflexivity.
Defined.

(** ** HitPairIter: a hit in two pairs *)


(* ====================================================================== *)
(** * Part III: further properties of the code                             *)
(* ====================================================================== *)

(** ** Road::CheckMatch *)

Section CheckMatch_facts.
Variable GetPlaneNum : positive -> Z.

Local Abbreviation CheckMatch := (Road.CheckMatch GetPlaneNum).

(** The planes among [0 .. n-1] in which no hit of [hs] lies. *)
Definition missing_planes (hs : gset positive) (n : Z) : list Z :=
  filter (fun i => i ∉ (set_map GetPlaneNum hs : gset Z)) (seqZ 0 n).

Lemma count_missing_spec (curpat : gset Z) (todo : nat) :
  forall i nmiss, 0 <= nmiss <= 1 ->
    (Road.count_missing curpat todo i nmiss = true <->
     nmiss + Z.of_nat (length (filter (fun j => j ∉ curpat)
                                      (seqZ i (Z.of_nat todo)))) <= 1).
Proof.
  induction todo as [| todo IH]; intros i nmiss Hn.
  - simpl. split; [lia | reflexivity].
  - cbn [Road.count_missing]. rewrite seqZ_cons by lia.
    replace (Z.pred (Z.of_nat (S todo))) with (Z.of_nat todo) by lia.
    replace (Z.succ i) with (i + 1) by lia.
    destruct (decide (i ∈ curpat)) as [Hin | Hin].
    + rewrite filter_cons_False by (intros H; now apply H).
      now apply IH.
    + rewrite filter_cons_True by exact Hin.
      cbn [length]. unfold Road.kMaxmiss.
      destruct (Z.ltb_spec 1 (nmiss + 1)) as [Hlt | Hge].
      * split; [discriminate | lia].
      * rewrite IH by lia. lia.
Qed.

Lemma count_missing_mono (curpat curpat' : gset Z) (todo : nat) :
  curpat ⊆ curpat' ->
  forall i nmiss nmiss', nmiss' <= nmiss ->
    Road.count_missing curpat todo i nmiss = true ->
    Road.count_missing curpat' todo i nmiss' = true.
Proof.
  intros Hsub. induction todo as [| todo IH]; intros i nmiss nmiss' Hle;
    [reflexivity |].
  cbn [Road.count_missing]. unfold Road.kMaxmiss.
  destruct (decide (i ∈ curpat)) as [Hin | Hin].
  - destruct (decide (i ∈ curpat')) as [_ | Hout]; [now apply IH |].
    exfalso. apply Hout. now apply Hsub.
  - destruct (Z.ltb_spec 1 (nmiss + 1)) as [Hlt | Hge]; [discriminate |].
    destruct (decide (i ∈ curpat')) as [_ | _].
    + apply IH. lia.
    + destruct (Z.ltb_spec 1 (nmiss' + 1)) as [Hlt' | _]; [lia |].
      apply IH. lia.
Qed.

(** X1.  [CheckMatch] returns true exactly when at most one of the planes
    [0 .. fNplanes-1] is without a hit of the given set: the loop with its
    early return counts the planes whose bit is not set. *)
Theorem CheckMatch_counts_missing_planes (b : Road.BuildInfo_t) (hs : gset positive) :
  (forall i, i ∈ missing_planes hs (Road.fNplanes b) <->
     0 <= i < Road.fNplanes b /\ forall h, h ∈ hs -> GetPlaneNum h <> i) /\
  (CheckMatch b hs = true <->
     (length (missing_planes hs (Road.fNplanes b)) <= 1)%nat).
Proof.
  split.
  - intros i. unfold missing_planes. rewrite list_elem_of_filter, elem_of_seqZ.
    rewrite elem_of_map. split.
    + intros [Hno Hi]. split; [lia |]. intros h Hh He. apply Hno. eauto.
    + intros [Hi Hno]. split; [| lia]. intros (h & He & Hh).
      now apply (Hno h Hh).
  - unfold Road.CheckMatch, missing_planes. cbv zeta.
    rewrite count_missing_spec by lia.
    destruct (Z.le_gt_cases 0 (Road.fNplanes b)) as [Hn | Hn].
    + rewrite Z2Nat.id by exact Hn. lia.
    + replace (Z.to_nat (Road.fNplanes b)) with 0%nat by lia.
      unfold seqZ. replace (Z.to_nat (Road.fNplanes b)) with 0%nat by lia.
      simpl. lia.
Qed.

(** X2.  [CheckMatch] is monotone in the hits: a set of hits that passes
    still passes when hits are added to it. *)
Theorem CheckMatch_monotone (b : Road.BuildInfo_t) (hs hs' : gset positive) :
  hs ⊆ hs' -> CheckMatch b hs = true -> CheckMatch b hs' = true.
Proof.
  intros Hsub. unfold Road.CheckMatch. cbv zeta.
  apply count_missing_mono; [| lia].
  intros i. rewrite !elem_of_map. intros (h & He & Hh). eauto.
Qed.

End CheckMatch_facts.

Lemma CheckMatch_monotone_witness :
  Road.CheckMatch Examples.plane_of (Road.mkBuild [] ∅ 1 3 3)
    {[1%positive; 2%positive; 3%positive]} = true.
Proof.
  apply (CheckMatch_monotone Examples.plane_of (Road.mkBuild [] ∅ 1 3 3)
           {[1%positive; 2%positive]} {[1%positive; 2%positive; 3%positive]}).
  - set_solver.
  - vm_compute. reflexivity.
Defined.

(** ** Road::Add over the life of a road *)

Section Add_facts.
Variable kBig : spec_float.
Variable GetPlaneNum : positive -> Z.
Variable nds : gmap positive Road.NodeDescriptor.

Local Abbreviation Add := (Road.Add GetPlaneNum nds).
Local Abbreviation building := (Road.building kBig GetPlaneNum nds).

(** Roads that come from the constructor and calls of [Add] only. *)
Inductive grown : Road.Road -> Prop :=
| grown_new proj r :
    Road.Road_new kBig proj = Some r -> grown r
| grown_add r p ok r' :
    grown r -> Add p r = Some (ok, r') -> grown r'.

Lemma Road_new_fields (proj : option Road.Projection) (r : Road.Road) :
  Road.Road_new kBig proj = Some r ->
  Road.fHits r = ∅ /\
  exists b, Road.fBuild r = Some b /\ Road.fPatterns b = [].
Proof.
  unfold Road.Road_new. intros H.
  destruct proj as [pr|]; [| discriminate].
  destruct (Road.GetHitpattern pr); [| discriminate].
  destruct (negb (Road.GetNlayers pr =? 0) &&
            (Road.GetNlayers pr <=? Road.GetNplanes pr)); [| discriminate].
  inversion H; subst; clear H. simpl. eauto.
Qed.

(** The hits an accepted [Add] leaves in [fHits]: the swap that depends
    on the sizes gives the union in both cases. *)
Lemma Add_hits_all (r : Road.Road) (b : Road.BuildInfo_t)
    (nd : Road.NodeDescriptor) (common all : gset positive) :
  Road.Add_hits GetPlaneNum r b nd = Some (Road.Accepted common all) ->
  all = if bool_decide (Road.fPatterns b = []) then Road.hits nd
        else Road.fHits r ∪ Road.hits nd.
Proof.
  unfold Road.Add_hits. intros H.
  case_bool_decide as Hfirst.
  - destruct (negb _); inversion H; subst; reflexivity.
  - destruct (negb (size (Road.hits nd ∩ Road.fCommonHits b)
                      <=? size (Road.fCommonHits b))%nat); [discriminate |].
    assert (Hall : (if negb (size (Road.fHits r ∪ Road.hits nd)
                               =? size (Road.fHits r))%nat
                    then Road.fHits r ∪ Road.hits nd else Road.fHits r)
                   = Road.fHits r ∪ Road.hits nd).
    { destruct (size (Road.fHits r ∪ Road.hits nd)
                  =? size (Road.fHits r))%nat eqn:He; simpl; [| reflexivity].
      apply Nat.eqb_eq in He.
      apply set_subseteq_size_eq; [set_solver | lia]. }
    rewrite Hall in H.
    destruct (size (Road.hits nd ∩ Road.fCommonHits b)
                <? size (Road.fCommonHits b))%nat.
    + destruct (negb _); inversion H; subst; reflexivity.
    + inversion H; subst; reflexivity.
Qed.

(** X3.  On a road made by the constructor and calls of [Add], [fHits]
    is the union of the hit sets of the accepted patterns: the swap of
    [fHits] that [Add] makes only when the size changed loses no hit and
    adds none. *)
Theorem Add_collects_hits (r : Road.Road) :
  grown r ->
  exists b, Road.fBuild r = Some b /\
    Road.fHits r = ⋃ (Road.hits_at nds <$> Road.fPatterns b).
Proof.
  induction 1 as [proj r Hnew | r p ok r' _ IH Hadd].
  - destruct (Road_new_fields _ _ Hnew) as (Hh & b & Hb & Hp).
    exists b. split; [exact Hb |]. rewrite Hh, Hp. reflexivity.
  - destruct IH as (b & Hb & Hh). destruct ok.
    + destruct (Add_accepted GetPlaneNum nds _ _ _ Hadd)
        as (b0 & nd & common & all & Hb0 & Hnd & Hah & Hall & Hb').
      rewrite Hb in Hb0. inversion Hb0; subst b0; clear Hb0.
      eexists. split; [exact Hb' |]. simpl.
      rewrite fmap_app, union_list_app_L. simpl.
      rewrite Hall, (Add_hits_all _ _ _ _ _ Hah).
      unfold Road.hits_at at 2. rewrite Hnd.
      case_bool_decide as Hfirst.
      * rewrite Hfirst. simpl. set_solver.
      * rewrite <- Hh. set_solver.
    + apply (Add_rejected GetPlaneNum nds) in Hadd. subst r'. eauto.
Qed.

(** What the limits of a road cover. *)
Definition covered (r : Road.Road) : Prop :=
  forall b p, Road.fBuild r = Some b -> p ∈ Road.fPatterns b ->
    exists nd, nds !! p = Some nd /\
      Road.nbits nd = Road.fNlayers b /\
      fst (Road.fLeft r) <= Road.binAt nd 0 <= fst (Road.fRight r) /\
      snd (Road.fLeft r) <= Road.binAt nd (Road.fNlayers b - 1)
        <= snd (Road.fRight r).

Lemma Add_covered (r r' : Road.Road) (p : positive) (ok : bool) :
  covered r -> Add p r = Some (ok, r') -> covered r'.
Proof.
  intros Hr Hadd. destruct ok.
  - unfold Road.Add in Hadd.
    destruct (Road.fBuild r) as [b|] eqn:Hb; [| discriminate].
    destruct (nds !! p) as [nd|] eqn:Hnd; [| discriminate].
    destruct (Road.Add_hits GetPlaneNum r b nd) as [[| common all]|];
      try discriminate.
    destruct (Z.eqb_spec (Road.nbits nd) (Road.fNlayers b)) as [Hn | Hn];
      simpl in Hadd; [| discriminate].
    inversion Hadd; subst r'; clear Hadd.
    intros b' q Hb' Hq. simpl in Hb'. inversion Hb'; subst b'; clear Hb'.
    simpl in *. apply elem_of_app in Hq as [Hq | Hq].
    + destruct (Hr b q Hb Hq) as (ndq & Hndq & Hnq & H0 & H1).
      exists ndq. repeat split; try assumption; lia.
    + apply list_elem_of_singleton in Hq. subst q.
      exists nd. repeat split; try assumption; lia.
  - apply (Add_rejected GetPlaneNum nds) in Hadd. now subst r'.
Qed.

(** X4.  On a road under construction (made by the constructor, [Add],
    the copy constructor or assignment), every accepted pattern has as
    many bits as the road has layers, and its bins in the first and in
    the last layer lie within the limits [fLeft .. fRight] of the
    road. *)
Theorem Add_limits_cover_patterns (r : Road.Road) (b : Road.BuildInfo_t)
    (p : positive) :
  building r ->
  Road.fBuild r = Some b -> p ∈ Road.fPatterns b ->
  exists nd, nds !! p = Some nd /\
    Road.nbits nd = Road.fNlayers b /\
    fst (Road.fLeft r) <= Road.binAt nd 0 <= fst (Road.fRight r) /\
    snd (Road.fLeft r) <= Road.binAt nd (Road.fNlayers b - 1)
      <= snd (Road.fRight r).
Proof.
  intros Hbuild. revert b p. change (covered r).
  induction Hbuild as [proj r Hnew | r q ok r' _ IH Hadd | r _ IH | r rhs _ _ _ IH].
  - intros b p Hb Hp. exfalso.
    destruct (Road_new_fields _ _ Hnew) as (_ & b0 & Hb0 & Hp0).
    rewrite Hb in Hb0. inversion Hb0; subst b0. rewrite Hp0 in Hp.
    inversion Hp.
  - eapply Add_covered; eassumption.
  - exact IH.
  - exact IH.
Qed.

End Add_facts.

Lemma Add_collects_hits_witness :
  exists b, Road.fBuild Examples.road2 = Some b /\
    Road.fHits Examples.road2 =
      ⋃ (Road.hits_at Examples.nds <$> Road.fPatterns b).
Proof.
  apply (Add_collects_hits Examples.kBig Examples.plane_of Examples.nds).
  apply (grown_add _ _ _ Examples.road1 1%positive true).
  - apply (grown_add _ _ _ Examples.road0 2%positive true).
    + apply (grown_new _ _ _ (Some Examples.proj3)). reflexivity.
    + vm_compute. reflexivity.
  - vm_compute. reflexivity.
Defined.

Lemma Add_limits_cover_patterns_witness :
  exists nd, Examples.nds !! 2%positive = Some nd /\
    Road.nbits nd = 3 /\
    fst (Road.fLeft Examples.road2) <= Road.binAt nd 0
      <= fst (Road.fRight Examples.road2) /\
    snd (Road.fLeft Examples.road2) <= Road.binAt nd (3 - 1)
      <= snd (Road.fRight Examples.road2).
Proof.
  apply (Add_limits_cover_patterns Examples.kBig Examples.plane_of Examples.nds
           Examples.road2
           (Road.mkBuild [2%positive; 1%positive]
              {[1%positive; 2%positive; 3%positive]} 1 3 3) 2%positive).
  - apply (Road.building_add _ _ _ Examples.road1 1%positive true).
    + apply (Road.building_add _ _ _ Examples.road0 2%positive true).
      * apply (Road.building_new _ _ _ (Some Examples.proj3)). reflexivity.
      * vm_compute. reflexivity.
    + vm_compute. reflexivity.
  - vm_compute. reflexivity.
  - set_solver.
Defined.

(** ** Road::Finish: what it touches and when it returns *)

Section Finish_more.
Variable GetPlaneNum : positive -> Z.

Lemma Finish_mark_frame (common : gset positive)
    (s s' : gmap positive Road.NodeDescriptor) (p q : positive) :
  Road.Finish_mark common s p = Some s' ->
  (q <> p -> s' !! q = s !! q) /\
  (forall nd', s' !! q = Some nd' ->
     exists nd, s !! q = Some nd /\ nd' = Road.set_used (Road.used nd') nd).
Proof.
  unfold Road.Finish_mark. intros H.
  destruct (s !! p) as [nd|] eqn:Hp; [| discriminate].
  destruct (negb (Road.used nd <? 2)); [discriminate |].
  inversion H; subst s'; clear H. split.
  - intros Hne. now apply lookup_insert_ne.
  - intros nd' Hq. destruct (decide (q = p)) as [-> | Hne].
    + rewrite lookup_insert_eq in Hq. inversion Hq; subst nd'; clear Hq.
      exists nd. split; [exact Hp | reflexivity].
    + rewrite lookup_insert_ne in Hq by congruence.
      exists nd'. split; [exact Hq |]. now destruct nd'.
Qed.

Lemma Finish_loop_frame (common : gset positive) (ps : list positive) :
  forall s s', Road.Finish_loop common s ps = Some s' ->
    forall q,
      (q ∉ ps -> s' !! q = s !! q) /\
      (forall nd', s' !! q = Some nd' ->
         exists nd, s !! q = Some nd /\ nd' = Road.set_used (Road.used nd') nd).
Proof.
  induction ps as [| p ps IH]; simpl; intros s s' H q.
  - inversion H; subst s'. split; [reflexivity |].
    intros nd' Hq. exists nd'. split; [exact Hq |]. now destruct nd'.
  - destruct (Road.Finish_mark common s p) as [s1|] eqn:H1; [| discriminate].
    destruct (Finish_mark_frame _ _ _ _ q H1) as [Hm1 Hm2].
    destruct (IH _ _ H q) as [Hl1 Hl2]. split.
    + intros Hq. rewrite Hl1, Hm1; [reflexivity | |];
        intros E; apply Hq; [subst; left | now right].
    + intros nd' Hq. destruct (Hl2 _ Hq) as (nd1 & Hq1 & E1).
      destruct (Hm2 _ Hq1) as (nd & Hq0 & E0).
      exists nd. split; [exact Hq0 |].
      rewrite E1, E0. reflexivity.
Qed.

(** X5.  [Finish] changes nothing but the [used] field of the
    descriptors the road has accepted: every other descriptor of the
    store is as before, and an accepted one differs from what it was
    at most in [used]. *)
Theorem Finish_touches_only_used
    (nds nds' : gmap positive Road.NodeDescriptor)
    (r r' : Road.Road) (b : Road.BuildInfo_t) (q : positive) :
  Road.fBuild r = Some b ->
  Road.Finish nds r = Some (nds', r') ->
  (q ∉ Road.fPatterns b -> nds' !! q = nds !! q) /\
  (forall nd', nds' !! q = Some nd' ->
     exists nd, nds !! q = Some nd /\ nd' = Road.set_used (Road.used nd') nd).
Proof.
  unfold Road.Finish. intros Hb H. rewrite Hb in H.
  destruct (Road.Finish_loop (Road.fCommonHits b) nds (Road.fPatterns b))
    as [s'|] eqn:Hl; [| discriminate].
  inversion H; subst; clear H.
  exact (Finish_loop_frame _ _ _ _ Hl q).
Qed.

(** X6.  Once [Finish] has returned, the road is closed: its limits, fit
    results and hits are those it had, every further [Add] returns false
    and leaves it as it is, and a second [Finish] stops at its first
    assertion. *)
Theorem Finish_closes_road
    (nds nds' nds2 : gmap positive Road.NodeDescriptor)
    (r r' : Road.Road) (p : positive) :
  Road.Finish nds r = Some (nds', r') ->
  (Road.fLeft r' = Road.fLeft r /\ Road.fRight r' = Road.fRight r /\
   Road.fSlope r' = Road.fSlope r /\ Road.fPos r' = Road.fPos r /\
   Road.fChi2 r' = Road.fChi2 r /\ Road.fErr r' = Road.fErr r /\
   Road.fHits r' = Road.fHits r) /\
  Road.Add GetPlaneNum nds2 p r' = Some (false, r') /\
  Road.Finish nds2 r' = None.
Proof.
  unfold Road.Finish at 1. intros H.
  destruct (Road.fBuild r) as [b|]; [| discriminate].
  destruct (Road.Finish_loop _ _ _); [| discriminate].
  inversion H; subst; clear H. simpl.
  repeat split; reflexivity.
Qed.

Lemma Finish_loop_returns_iff (common : gset positive) (ps : list positive) :
  forall s, is_Some (Road.Finish_loop common s ps) <->
    forall p, p ∈ ps ->
      exists nd, s !! p = Some nd /\ Road.used nd < 2 /\
        ((2 <= count_occ Pos.eq_dec ps p)%nat -> ~ Road.hits nd ⊆ common).
Proof.
  induction ps as [| p ps IH]; intros s.
  - simpl. split; [intros _ q Hq; inversion Hq | intros _; eauto].
  - cbn [Road.Finish_loop]. split.
    + intros Hsome.
      destruct (Road.Finish_mark common s p) as [s1|] eqn:H1;
        [| destruct Hsome; discriminate].
      pose proof (proj1 (IH s1) Hsome) as Hrest. clear Hsome.
      unfold Road.Finish_mark in H1.
      destruct (s !! p) as [nd|] eqn:Hp; [| discriminate].
      destruct (Z.ltb_spec (Road.used nd) 2) as [Hu | Hu];
        simpl in H1; [| discriminate].
      inversion H1; subst s1; clear H1.
      intros q Hq. destruct (decide (q = p)) as [-> | Hne].
      * exists nd. split; [exact Hp |]. split; [exact Hu |].
        intros Hc Hsub. rewrite count_occ_cons_eq in Hc by reflexivity.
        assert (Hin : p ∈ ps).
        { apply list_elem_of_In, (count_occ_In Pos.eq_dec). lia. }
        destruct (Hrest p Hin) as (nd1 & Hl & Hu1 & _).
        rewrite lookup_insert_eq in Hl. inversion Hl; subst nd1; clear Hl.
        apply (difference_empty_subseteq common) in Hsub.
        simpl in Hu1. rewrite Hsub in Hu1. lia.
      * apply elem_of_cons in Hq as [Hq | Hq]; [contradiction |].
        destruct (Hrest q Hq) as (nd1 & Hl & Hu1 & Hc).
        rewrite lookup_insert_ne in Hl by congruence.
        exists nd1. split; [exact Hl |]. split; [exact Hu1 |].
        intros Hcnt. apply Hc.
        rewrite count_occ_cons_neq in Hcnt by congruence. exact Hcnt.
    + intros Hall.
      destruct (Hall p) as (nd & Hp & Hu & Hc); [left |].
      unfold Road.Finish_mark. rewrite Hp.
      destruct (Z.ltb_spec (Road.used nd) 2) as [_ | Hge]; [| lia].
      simpl. apply IH. intros q Hq.
      destruct (decide (q = p)) as [-> | Hne].
      * rewrite lookup_insert_eq. eexists. split; [reflexivity |].
        assert (Hns : ~ Road.hits nd ⊆ common).
        { apply Hc. rewrite count_occ_cons_eq by reflexivity.
          assert (0 < count_occ Pos.eq_dec ps p)%nat
            by (apply count_occ_In, list_elem_of_In, Hq).
          lia. }
        simpl. split; [| intros _; exact Hns].
        destruct (elements (Road.hits nd ∖ common)) eqn:E; [| lia].
        exfalso. apply Hns. now apply (difference_empty_subseteq common).
      * rewrite lookup_insert_ne by congruence.
        destruct (Hall q) as (nd1 & Hl & Hu1 & Hc1); [now right |].
        exists nd1. split; [exact Hl |]. split; [exact Hu1 |].
        intros Hcnt. apply Hc1.
        rewrite count_occ_cons_neq by congruence. exact Hcnt.
Qed.

(** X7.  [Finish] runs to its end exactly when the road is still under
    construction, every accepted descriptor is in the store with [used]
    below 2, and no descriptor whose hits are all common hits was
    accepted more than once: a second visit of such a descriptor finds
    [used] at 2 and the assertion stops the program. *)
Theorem Finish_returns_iff (nds : gmap positive Road.NodeDescriptor)
    (r : Road.Road) :
  is_Some (Road.Finish nds r) <->
  exists b, Road.fBuild r = Some b /\
    forall p, p ∈ Road.fPatterns b ->
      exists nd, nds !! p = Some nd /\ Road.used nd < 2 /\
        ((2 <= count_occ Pos.eq_dec (Road.fPatterns b) p)%nat ->
         ~ Road.hits nd ⊆ Road.fCommonHits b).
Proof.
  unfold Road.Finish. destruct (Road.fBuild r) as [b|].
  - split.
    + intros Hs. exists b. split; [reflexivity |].
      apply Finish_loop_returns_iff.
      destruct (Road.Finish_loop _ _ _) as [s'|]; [eauto |].
      destruct Hs; discriminate.
    + intros (b0 & Hb0 & Hall). inversion Hb0; subst b0; clear Hb0.
      destruct (proj2 (Finish_loop_returns_iff _ _ _) Hall) as [s' Hs'].
      rewrite Hs'. eauto.
  - split.
    + intros [x Hx]. discriminate.
    + intros (b & Hb & _). discriminate.
Qed.

End Finish_more.

Lemma Finish_touches_only_used_witness :
  (default Examples.nds
     (fst <$> Road.Finish Examples.nds Examples.road1)) !! 1%positive
  = Examples.nds !! 1%positive.
Proof.
  destruct (Road.Finish Examples.nds Examples.road1) as [[nds' r']|] eqn:E;
    [| reflexivity].
  simpl.
  apply (Finish_touches_only_used Examples.nds nds' Examples.road1 r'
           (Road.mkBuild [2%positive]
              {[1%positive; 2%positive; 3%positive; 4%positive]} 1 3 3)
           1%positive).
  - vm_compute. reflexivity.
  - exact E.
  - set_solver.
Defined.

Lemma Finish_closes_road_witness :
  Road.Finish Examples.nds
    (default Examples.road2
       (snd <$> Road.Finish Examples.nds Examples.road2)) = None.
Proof.
  destruct (Road.Finish Examples.nds Examples.road2) as [[nds' r']|] eqn:E;
    [| vm_compute in E; discriminate E].
  simpl.
  apply (Finish_closes_road Examples.plane_of Examples.nds nds' Examples.nds
           Examples.road2 r' 1%positive E).
Defined.

(** ** HitPairIter: what the emitted pairs are *)

Section HitPair_more.
Context {Hit : Type} `{EqDecision Hit}.
Variable Compare : Hit -> Hit -> spec_float -> Z.

Local Abbreviation Iter := (@HitPair.HitPairIter Hit).
Local Abbreviation advance := (HitPair.advance Compare).
Local Abbreviation Next := (HitPair.Next Compare).
Local Abbreviation drain := (HitPair.drain Compare).

Lemma found_pair_keeps (hitA hitB : Hit) (it it' : Iter) :
  HitPair.found_pair Compare hitA hitB it = Some it' ->
  HitPair.fCurrent it' = HitPair.fCurrent it /\
  HitPair.fMaxDist it' = HitPair.fMaxDist it.
Proof.
  destruct it as [A B cA cB sc sh md st scn cur nxt].
  unfold HitPair.found_pair, HitPair.NextB, HitPair.NextA, HitPair.TIter_Next.
  simpl. intros H.
  repeat (case_match; simplify_eq/=); split; reflexivity.
Qed.

Lemma start_keeps (it : Iter) :
  HitPair.fMaxDist (HitPair.start it) = HitPair.fMaxDist it /\
  HitPair.fCollA (HitPair.start it) = HitPair.fCollA it /\
  HitPair.fCollB (HitPair.start it) = HitPair.fCollB it.
Proof.
  destruct it as [A B cA cB sc sh md st scn cur nxt].
  unfold HitPair.start, HitPair.NextA, HitPair.NextB, HitPair.TIter_Next. simpl.
  repeat (case_match; simplify_eq/=); repeat split; reflexivity.
Qed.

(** A pair with two hits is current only after [Compare] has given
    neither -1 nor 1 for it. *)
Lemma advance_overlap (it it' : Iter) (a b : Hit) :
  advance it = Some it' ->
  HitPair.fMaxDist it' = HitPair.fMaxDist it /\
  (HitPair.fCurrent it' = (Some a, Some b) ->
   Compare a b (HitPair.fMaxDist it) <> -1 /\
   Compare a b (HitPair.fMaxDist it) <> 1).
Proof.
  destruct it as [A B cA cB sc sh md st scn cur [[x|] [y|]]];
    unfold HitPair.advance; simpl.
  - destruct (Z.eqb_spec (Compare x y md) (-1)) as [E1 | E1].
    { unfold HitPair.NextA, HitPair.TIter_Next. simpl.
      intros H. repeat (case_match; simplify_eq/=); split; try reflexivity;
        discriminate. }
    destruct (Z.eqb_spec (Compare x y md) 1) as [E2 | E2].
    { unfold HitPair.NextB, HitPair.TIter_Next. simpl.
      intros H. repeat (case_match; simplify_eq/=); split; try reflexivity;
        discriminate. }
    intros H. apply found_pair_keeps in H as [Hc Hm]. simpl in *.
    split; [exact Hm |]. rewrite Hc. intros E. inversion E; subst. auto.
  - unfold HitPair.NextA, HitPair.TIter_Next. simpl.
    intros H. repeat (case_match; simplify_eq/=); split; try reflexivity;
      discriminate.
  - unfold HitPair.NextB, HitPair.TIter_Next. simpl.
    intros H. repeat (case_match; simplify_eq/=); split; try reflexivity;
      discriminate.
  - intros H. simplify_eq/=. split; [reflexivity | discriminate].
Qed.

Lemma drain_overlap (fuel : nat) :
  forall (it : Iter) l, drain fuel it = Some l ->
    forall a b, (Some a, Some b) ∈ l ->
      Compare a b (HitPair.fMaxDist it) <> -1 /\
      Compare a b (HitPair.fMaxDist it) <> 1.
Proof.
  induction fuel as [| fuel IH]; intros it l; simpl; [discriminate |].
  unfold HitPair.Next.
  destruct (advance (HitPair.start it)) as [it'|] eqn:Hadv; [| discriminate].
  destruct (start_keeps it) as (Hmd & _ & _).
  intros H a b Hin.
  destruct (advance_overlap _ _ a b Hadv) as [Hm Hcur].
  rewrite Hmd in *.
  assert (Hrest : forall l', drain fuel it' = Some l' -> (Some a, Some b) ∈ l' ->
            Compare a b (HitPair.fMaxDist it) <> -1 /\
            Compare a b (HitPair.fMaxDist it) <> 1).
  { intros l' Hl' Hin'. rewrite <- Hm. eapply IH; eassumption. }
  destruct (HitPair.fCurrent it') as [[x|] [y|]] eqn:Ec.
  - destruct (drain fuel it') as [l'|] eqn:El; [| discriminate].
    simplify_eq. apply elem_of_cons in Hin as [E | Hin].
    + simplify_eq. now apply Hcur.
    + now apply (Hrest l').
  - destruct (drain fuel it') as [l'|] eqn:El; [| discriminate].
    simplify_eq. apply elem_of_cons in Hin as [E | Hin]; [discriminate |].
    now apply (Hrest l').
  - destruct (drain fuel it') as [l'|] eqn:El; [| discriminate].
    simplify_eq. apply elem_of_cons in Hin as [E | Hin]; [discriminate |].
    now apply (Hrest l').
  - simplify_eq. inversion Hin.
Qed.

(** X8.  Two hits are emitted as a pair only when they overlap: for
    every emitted pair with a hit of A and a hit of B, [Compare] of the
    two with the iterator's maxdist is neither -1 nor 1. *)
Theorem pairs_overlap (A B : list Hit) (maxdist : spec_float)
    (l : list (option Hit * option Hit)) (a b : Hit) :
  HitPair.pairs Compare A B maxdist = Some l ->
  (Some a, Some b) ∈ l ->
  Compare a b maxdist <> -1 /\ Compare a b maxdist <> 1.
Proof.
  unfold HitPair.pairs. intros Hl Hin.
  exact (drain_overlap _ _ _ Hl a b Hin).
Qed.

(** What is pending or saved is a hit of the collections. *)
Definition sane (it : Iter) : Prop :=
  (forall a, fst (HitPair.fNext it) = Some a -> a ∈ HitPair.fCollA it) /\
  (forall b, snd (HitPair.fNext it) = Some b -> b ∈ HitPair.fCollB it) /\
  (forall b, HitPair.fSaveHit it = Some b -> b ∈ HitPair.fCollB it).

Lemma seek_elem (md : spec_float) (hitA : Hit) (nextB : option Hit)
    (rest : list Hit) :
  forall c hb r c', HitPair.seek Compare md hitA nextB rest c hb = Some (r, c') ->
    forall x, r = Some x -> hb = Some x \/ x ∈ rest \/ nextB = Some x.
Proof.
  induction rest as [| h rest IH]; intros c hb r c' H x Hx; simpl in H.
  - destruct (decide (hb = nextB)); [simplify_eq; now left |].
    destruct hb as [hb|]; [| discriminate].
    destruct (Compare hb hitA md <? 0); [| simplify_eq; now left].
    destruct (decide (None = nextB)); simplify_eq.
  - destruct (decide (hb = nextB)); [simplify_eq; now left |].
    destruct hb as [hb|]; [| discriminate].
    destruct (Compare hb hitA md <? 0); [| simplify_eq; now left].
    destruct (IH _ _ _ _ H x Hx) as [E | [E | E]].
    + simplify_eq. right. left. left.
    + right. left. now right.
    + now right; right.
Qed.

Lemma start_sane (it : Iter) :
  HitPair.fStarted it = false -> HitPair.fSaveHit it = None ->
  sane (HitPair.start it).
Proof.
  destruct it as [A B cA cB sc sh md st scn cur nxt]. simpl.
  intros -> ->.
  unfold HitPair.start, HitPair.NextA, HitPair.NextB, HitPair.TIter_Next. simpl.
  repeat (case_match; simplify_eq/=); repeat split; simpl; intros;
    simplify_eq; eauto using list_elem_of_lookup_2.
Qed.

Lemma advance_sane (it it' : Iter) :
  sane it -> advance it = Some it' ->
  sane it' /\
  HitPair.fStarted it' = HitPair.fStarted it /\
  HitPair.fCollA it' = HitPair.fCollA it /\
  HitPair.fCollB it' = HitPair.fCollB it /\
  (forall a, fst (HitPair.fCurrent it') = Some a -> a ∈ HitPair.fCollA it) /\
  (forall b, snd (HitPair.fCurrent it') = Some b -> b ∈ HitPair.fCollB it).
Proof.
  destruct it as [A B cA cB sc sh md st scn cur [[x|] [y|]]];
    intros (HA & HB & HS); simpl in *;
    unfold HitPair.advance, HitPair.found_pair, HitPair.NextA, HitPair.NextB,
      HitPair.TIter_Next; simpl; intros H.
  all: repeat (case_match; simplify_eq/=).
  all: unfold sane; simpl; repeat split; intros; simplify_eq;
    eauto using list_elem_of_lookup_2.
  all: match goal with
       | Hs : HitPair.seek _ _ _ _ _ _ _ = Some _ |- _ =>
           destruct (seek_elem _ _ _ _ _ _ _ _ Hs _ eq_refl) as [E | [E | E]];
           simplify_eq; eauto using list_elem_of_lookup_2
       end.
  all: eapply subseteq_drop; eassumption.
Qed.

Lemma drain_sane (fuel : nat) :
  forall (it : Iter) l, sane it -> HitPair.fStarted it = true ->
    drain fuel it = Some l ->
    forall p, p ∈ l ->
      (forall a, fst p = Some a -> a ∈ HitPair.fCollA it) /\
      (forall b, snd p = Some b -> b ∈ HitPair.fCollB it).
Proof.
  induction fuel as [| fuel IH]; intros it l Hs Hst; simpl; [discriminate |].
  unfold HitPair.Next, HitPair.start. rewrite Hst.
  destruct (advance it) as [it'|] eqn:Hadv; [| discriminate].
  destruct (advance_sane _ _ Hs Hadv) as (Hs' & Hst' & HcA & HcB & HA & HB).
  rewrite Hst in Hst'.
  intros H p Hin.
  assert (Hrest : forall l', drain fuel it' = Some l' -> p ∈ l' ->
            (forall a, fst p = Some a -> a ∈ HitPair.fCollA it) /\
            (forall b, snd p = Some b -> b ∈ HitPair.fCollB it)).
  { intros l' Hl' Hin'. rewrite <- HcA, <- HcB. eapply IH; eassumption. }
  destruct (HitPair.fCurrent it') as [[x|] [y|]] eqn:Ec;
    try (destruct (drain fuel it') as [l'|] eqn:El; [| discriminate];
         simplify_eq; apply elem_of_cons in Hin as [E | Hin];
         [subst p; simpl in *; split; assumption | now apply (Hrest l')]).
  simplify_eq. inversion Hin.
Qed.

Lemma start_started (it : Iter) : HitPair.fStarted (HitPair.start it) = true.
Proof.
  destruct it as [A B cA cB sc sh md st scn cur nxt].
  unfold HitPair.start, HitPair.NextA, HitPair.NextB, HitPair.TIter_Next. simpl.
  destruct st eqn:Est; [reflexivity |].
  repeat (case_match; simplify_eq/=); reflexivity.
Qed.

Lemma drain_start (fuel : nat) (it : Iter) :
  drain fuel it = drain fuel (HitPair.start it).
Proof.
  destruct fuel as [| fuel]; [reflexivity |]. simpl. unfold HitPair.Next.
  assert (E : HitPair.start (HitPair.start it) = HitPair.start it).
  { unfold HitPair.start at 1. now rewrite start_started. }
  now rewrite E.
Qed.

(** X9.  The iteration invents no hit: in every emitted pair the first
    component is null or a hit of collection A, and the second is null
    or a hit of collection B. *)
Theorem pairs_from_inputs (A B : list Hit) (maxdist : spec_float)
    (l : list (option Hit * option Hit)) (p : option Hit * option Hit) :
  HitPair.pairs Compare A B maxdist = Some l ->
  p ∈ l ->
  (forall a, fst p = Some a -> a ∈ A) /\
  (forall b, snd p = Some b -> b ∈ B).
Proof.
  unfold HitPair.pairs. rewrite drain_start. intros Hl Hin.
  pose proof (drain_sane _ _ _
                (start_sane (HitPair.unstarted A B maxdist) eq_refl eq_refl)
                (start_started _) Hl p Hin) as H.
  destruct (start_keeps (HitPair.unstarted A B maxdist)) as (_ & HA & HB).
  rewrite HA, HB in H. exact H.
Qed.

(** Two iterators that go on alike: they agree on everything the next
    calls read.  The pending pair is read only once the iteration has
    started, the saved place of B only during a scan, and the current
    pair never. *)
Definition similar (it1 it2 : Iter) : Prop :=
  HitPair.fCollA it1 = HitPair.fCollA it2 /\
  HitPair.fCollB it1 = HitPair.fCollB it2 /\
  HitPair.fIterA it1 = HitPair.fIterA it2 /\
  HitPair.fIterB it1 = HitPair.fIterB it2 /\
  HitPair.fMaxDist it1 = HitPair.fMaxDist it2 /\
  HitPair.fStarted it1 = HitPair.fStarted it2 /\
  HitPair.fScanning it1 = HitPair.fScanning it2 /\
  (HitPair.fStarted it1 = true -> HitPair.fNext it1 = HitPair.fNext it2) /\
  (HitPair.fScanning it1 = true ->
   HitPair.fSaveIter it1 = HitPair.fSaveIter it2 /\
   HitPair.fSaveHit it1 = HitPair.fSaveHit it2).

Lemma start_similar (it1 it2 : Iter) :
  similar it1 it2 -> similar (HitPair.start it1) (HitPair.start it2).
Proof.
  destruct it1 as [A B cA cB sc sh md st scn cur nxt].
  destruct it2 as [A2 B2 cA2 cB2 sc2 sh2 md2 st2 scn2 cur2 nxt2].
  unfold similar. simpl. intros (-> & -> & -> & -> & -> & -> & -> & Hn & Hs).
  unfold HitPair.start, HitPair.NextA, HitPair.NextB, HitPair.TIter_Next. simpl.
  destruct st2; simpl.
  - repeat split; try reflexivity; tauto.
  - repeat (case_match; simplify_eq/=); repeat split; try reflexivity; tauto.
Qed.

Lemma advance_similar (it1 it2 : Iter) :
  similar it1 it2 -> HitPair.fStarted it1 = true ->
  match advance it1, advance it2 with
  | Some r1, Some r2 =>
      similar r1 r2 /\ HitPair.fCurrent r1 = HitPair.fCurrent r2 /\
      HitPair.fStarted r1 = true
  | None, None => True
  | _, _ => False
  end.
Proof.
  destruct it1 as [A B cA cB sc sh md st scn cur nxt].
  destruct it2 as [A2 B2 cA2 cB2 sc2 sh2 md2 st2 scn2 cur2 nxt2].
  unfold similar. simpl. intros (-> & -> & -> & -> & -> & -> & -> & Hn & Hs) ->.
  rewrite <- (Hn eq_refl). clear Hn.
  assert (Hsave : scn2 = true -> sc = sc2 /\ sh = sh2) by exact Hs.
  clear Hs.
  destruct scn2; [destruct (Hsave eq_refl) as [-> ->] |]; clear Hsave;
    destruct nxt as [[x|] [y|]];
    unfold HitPair.advance, HitPair.found_pair, HitPair.NextA, HitPair.NextB,
      HitPair.TIter_Next; simpl.
  all: repeat (case_match; simplify_eq/=).
  all: unfold similar; simpl; repeat split; try reflexivity;
    intros; simplify_eq.
Qed.

Lemma Next_similar (it1 it2 : Iter) :
  similar it1 it2 ->
  match Next it1, Next it2 with
  | Some r1, Some r2 =>
      similar r1 r2 /\ HitPair.fCurrent r1 = HitPair.fCurrent r2
  | None, None => True
  | _, _ => False
  end.
Proof.
  intros Hs. unfold HitPair.Next.
  pose proof (advance_similar _ _ (start_similar _ _ Hs) (start_started it1)) as H.
  destruct (advance (HitPair.start it1)), (advance (HitPair.start it2));
    try exact H. tauto.
Qed.

Lemma drain_similar (fuel : nat) :
  forall it1 it2 : Iter, similar it1 it2 -> drain fuel it1 = drain fuel it2.
Proof.
  induction fuel as [| fuel IH]; intros it1 it2 Hs; [reflexivity |]. simpl.
  pose proof (Next_similar _ _ Hs) as H.
  destruct (Next it1) as [r1|], (Next it2) as [r2|]; try contradiction;
    [| reflexivity].
  destruct H as [Hr Hc]. rewrite Hc, (IH _ _ Hr). reflexivity.
Qed.

(** X10.  [Reset] starts the iteration over: whatever state the iterator
    was in, the pair that is current after [Reset] and all the pairs of
    the calls of [Next] that follow are those of a new iterator over the
    same collections with the same maxdist. *)
Theorem Reset_restarts (it : Iter) (fuel : nat) :
  (HitPair.fCurrent <$> HitPair.Reset Compare it) =
  (HitPair.fCurrent <$>
     HitPair.HitPairIter_new Compare (HitPair.fCollA it) (HitPair.fCollB it)
       (HitPair.fMaxDist it)) /\
  drain fuel (HitPair.rewound it) =
  drain fuel (HitPair.unstarted (HitPair.fCollA it) (HitPair.fCollB it)
                (HitPair.fMaxDist it)).
Proof.
  assert (Hs : similar (HitPair.rewound it)
                 (HitPair.unstarted (HitPair.fCollA it) (HitPair.fCollB it)
                    (HitPair.fMaxDist it))).
  { unfold similar. simpl. repeat split; intros; discriminate. }
  split; [| now apply drain_similar].
  unfold HitPair.Reset, HitPair.HitPairIter_new.
  pose proof (Next_similar _ _ Hs) as H.
  destruct (Next (HitPair.rewound it)) as [r1|], (Next (HitPair.unstarted _ _ _)) as [r2|];
    try contradiction; [| reflexivity].
  simpl. destruct H as [_ ->]. reflexivity.
Qed.

(** X11.  After [this = rhs], with [rhs] not in the middle of a scan of
    B, the target has the current pair of the source and goes on exactly
    as the source does, although [fSaveHit] is not assigned. *)
Theorem assign_continues (this rhs : Iter) (fuel : nat) :
  HitPair.fScanning rhs = false ->
  HitPair.fCurrent (HitPair.assign_fields this rhs) = HitPair.fCurrent rhs /\
  drain fuel (HitPair.assign_fields this rhs) = drain fuel rhs.
Proof.
  intros Hsc. split; [reflexivity |].
  apply drain_similar. unfold similar. simpl.
  repeat split; try reflexivity; intros; congruence.
Qed.

End HitPair_more.

Lemma pairs_overlap_witness :
  Examples.Compare_scan 1%positive 3%positive (of_Z 0) <> -1 /\
  Examples.Compare_scan 1%positive 3%positive (of_Z 0) <> 1.
Proof.
  apply (pairs_overlap Examples.Compare_scan Examples.collA_scan
           Examples.collB_scan (of_Z 0)
           [(Some 1%positive, Some 2%positive); (Some 1%positive, Some 3%positive)]
           1%positive 3%positive).
  - vm_compute. reflexivity.
  - rewrite !elem_of_cons. right. left. reflexivity.
Defined.

Lemma pairs_from_inputs_witness :
  (forall a, Some 1%positive = Some a -> a ∈ Examples.collA_scan) /\
  (forall b, Some 3%positive = Some b -> b ∈ Examples.collB_scan).
Proof.
  apply (pairs_from_inputs Examples.Compare_scan Examples.collA_scan
           Examples.collB_scan (of_Z 0)
           [(Some 1%positive, Some 2%positive); (Some 1%positive, Some 3%positive)]
           (Some 1%positive, Some 3%positive)).
  - vm_compute. reflexivity.
  - rewrite !elem_of_cons. right. left. reflexivity.
Defined.

Lemma assign_continues_witness :
  let this := HitPair.mkIter [] [] 0 0 0 (Some 7%positive) (of_Z 1) false false
                (None, None) (None, None) in
  let rhs := HitPair.unstarted Examples.collA_scan Examples.collB_scan (of_Z 0) in
  HitPair.fCurrent (HitPair.assign_fields this rhs) = HitPair.fCurrent rhs /\
  HitPair.drain Examples.Compare_scan 5 (HitPair.assign_fields this rhs) =
  HitPair.drain Examples.Compare_scan 5 rhs.
Proof.
  intros this rhs.
  apply (assign_continues Examples.Compare_scan this rhs 5). reflexivity.
Defined.

(** ** HitPairIter: one collection empty *)

Section HitPair_one_side.
Context {Hit : Type} `{EqDecision Hit}.
Variable Compare : Hit -> Hit -> spec_float -> Z.

Local Abbreviation Iter := (@HitPair.HitPairIter Hit).
Local Abbreviation drain := (HitPair.drain Compare).

Lemma drain_A_only (l : list Hit) :
  forall (it : Iter) (fuel : nat),
    HitPair.fStarted it = true ->
    snd (HitPair.fNext it) = None ->
    option_list (fst (HitPair.fNext it))
      ++ drop (HitPair.fIterA it) (HitPair.fCollA it) = l ->
    (fst (HitPair.fNext it) = None ->
     drop (HitPair.fIterA it) (HitPair.fCollA it) = []) ->
    (length l < fuel)%nat ->
    drain fuel it = Some (map (fun a => (Some a, None)) l).
Proof.
  induction l as [| a l IH];
    intros [A B cA cB sc sh md st scn cur [x y]] fuel; simpl;
    intros -> -> Hl Hend Hf; (destruct fuel as [| fuel]; [lia |]).
  - destruct x as [x|]; [discriminate |]. reflexivity.
  - destruct x as [x|]; simpl in Hl.
    + injection Hl as Hx Hl. subst x.
      cbn [HitPair.drain]. unfold HitPair.Next, HitPair.start. simpl.
      unfold HitPair.advance, HitPair.NextA, HitPair.TIter_Next. simpl.
      destruct (A !! cA) as [h|] eqn:EA; simpl.
      * rewrite (drop_S _ _ _ EA) in Hl.
        match goal with
        | |- context [HitPair.drain _ fuel ?it] => rewrite (IH it fuel)
        end; simpl; first [exact Hl | reflexivity | discriminate | lia].
      * apply lookup_ge_None in EA.
        rewrite (drop_ge _ _ EA) in Hl.
        match goal with
        | |- context [HitPair.drain _ fuel ?it] => rewrite (IH it fuel)
        end; simpl;
          first [reflexivity | now rewrite drop_ge
                | intros _; now apply drop_ge | lia].
    + rewrite Hend in Hl by reflexivity. discriminate.
Qed.

Lemma drain_B_only (l : list Hit) :
  forall (it : Iter) (fuel : nat),
    HitPair.fStarted it = true ->
    fst (HitPair.fNext it) = None ->
    option_list (snd (HitPair.fNext it))
      ++ drop (HitPair.fIterB it) (HitPair.fCollB it) = l ->
    (snd (HitPair.fNext it) = None ->
     drop (HitPair.fIterB it) (HitPair.fCollB it) = []) ->
    (length l < fuel)%nat ->
    drain fuel it = Some (map (fun b => (None, Some b)) l).
Proof.
  induction l as [| b l IH];
    intros [A B cA cB sc sh md st scn cur [x y]] fuel; simpl;
    intros -> -> Hl Hend Hf; (destruct fuel as [| fuel]; [lia |]).
  - destruct y as [y|]; [discriminate |]. reflexivity.
  - destruct y as [y|]; simpl in Hl.
    + injection Hl as Hx Hl. subst y.
      cbn [HitPair.drain]. unfold HitPair.Next, HitPair.start. simpl.
      unfold HitPair.advance, HitPair.NextB, HitPair.TIter_Next. simpl.
      destruct (B !! cB) as [h|] eqn:EB; simpl.
      * rewrite (drop_S _ _ _ EB) in Hl.
        match goal with
        | |- context [HitPair.drain _ fuel ?it] => rewrite (IH it fuel)
        end; simpl; first [exact Hl | reflexivity | discriminate | lia].
      * apply lookup_ge_None in EB.
        rewrite (drop_ge _ _ EB) in Hl.
        match goal with
        | |- context [HitPair.drain _ fuel ?it] => rewrite (IH it fuel)
        end; simpl;
          first [reflexivity | now rewrite drop_ge
                | intros _; now apply drop_ge | lia].
    + rewrite Hend in Hl by reflexivity. discriminate.
Qed.

(** X12.  With one collection empty the hits of the other come out one
    by one, unpaired and in input order, whatever [Compare] is: it is
    never called. *)
Theorem pairs_one_side_empty (A B : list Hit) (maxdist : spec_float) :
  HitPair.pairs Compare A [] maxdist = Some (map (fun a => (Some a, None)) A) /\
  HitPair.pairs Compare [] B maxdist = Some (map (fun b => (None, Some b)) B).
Proof.
  unfold HitPair.pairs. split.
  - rewrite (drain_start Compare), (start_unstarted_eq A [] maxdist).
    apply drain_A_only; simpl; try reflexivity.
    + unfold HitPair.TIter_Next.
      destruct A as [| a A]; simpl; [reflexivity |]. now rewrite drop_0.
    + unfold HitPair.TIter_Next. destruct A as [| a A]; simpl;
        [reflexivity | discriminate].
    + unfold HitPair.enough. simpl. lia.
  - rewrite (drain_start Compare), (start_unstarted_eq [] B maxdist).
    apply drain_B_only; simpl; try reflexivity.
    + unfold HitPair.TIter_Next.
      destruct B as [| b B]; simpl; [reflexivity |]. now rewrite drop_0.
    + unfold HitPair.TIter_Next. destruct B as [| b B]; simpl;
        [reflexivity | discriminate].
    + unfold HitPair.enough. simpl. lia.
Qed.

End HitPair_one_side.

(** X13.  [WireHit::Compare( hit, maxdist )] answers with -1, 0 or 1;
    overlap is symmetric, and when a hit is to the right of another (1),
    that one is to its left (-1). *)
Theorem WireHit_Compare_symmetric (a b : HitPair.WireHit) (maxdist : spec_float) :
  (HitPair.WireHit_Compare a b maxdist = -1 \/
   HitPair.WireHit_Compare a b maxdist = 0 \/
   HitPair.WireHit_Compare a b maxdist = 1) /\
  (HitPair.WireHit_Compare a b maxdist = 0 <->
   HitPair.WireHit_Compare b a maxdist = 0) /\
  (HitPair.WireHit_Compare a b maxdist = 1 ->
   HitPair.WireHit_Compare b a maxdist = -1).
Proof.
  unfold HitPair.WireHit_Compare.
  destruct (dltb (dadd (HitPair.fPosR a) maxdist) (HitPair.fPosL b));
    destruct (dltb (dadd (HitPair.fPosR b) maxdist) (HitPair.fPosL a));
    repeat split; intros; try discriminate; try reflexivity; auto.
Qed.

(** ** WireHit: the ordering functors *)

Lemma dltb_irrefl (x : spec_float) : dltb x x = false.
Proof.
  unfold dltb, SFltb, SFcompare.
  destruct x as [s | s | | s m e]; try destruct s; try reflexivity;
    rewrite Z.compare_refl;
    change (Pos.compare_cont Eq m m) with (Pos.compare m m);
    now rewrite Pos.compare_refl.
Qed.

Lemma dltb_trans (x y z : spec_float) :
  dltb x y = true -> dltb y z = true -> dltb x z = true.
Proof.
  unfold dltb, SFltb, SFcompare.
  destruct x as [s1 | s1 | | s1 m1 e1]; destruct y as [s2 | s2 | | s2 m2 e2];
    destruct z as [s3 | s3 | | s3 m3 e3];
    try destruct s1; try destruct s2; try destruct s3;
    try discriminate; try reflexivity.
  all: change (Pos.compare_cont Eq m1 m2) with (Pos.compare m1 m2);
       change (Pos.compare_cont Eq m2 m3) with (Pos.compare m2 m3);
       change (Pos.compare_cont Eq m1 m3) with (Pos.compare m1 m3).
  all: destruct (Z.compare_spec e1 e2); destruct (Z.compare_spec e2 e3);
       destruct (Z.compare_spec e1 e3); try discriminate; try reflexivity;
       try lia.
  all: destruct (Pos.compare_spec m1 m2); destruct (Pos.compare_spec m2 m3);
       destruct (Pos.compare_spec m1 m3); simpl; try discriminate;
       try reflexivity; try lia.
Qed.

(** X14.  [WireNumLess] is a strict order on hits: no hit is less than
    itself, and the relation is transitive (and so never holds both
    ways), whatever the drift times are, NaN included. *)
Theorem WireNumLess_strict_order (a b c : WireSort.Hit) :
  WireSort.WireNumLess a a = false /\
  (WireSort.WireNumLess a b = true -> WireSort.WireNumLess b c = true ->
   WireSort.WireNumLess a c = true) /\
  (WireSort.WireNumLess a b = true -> WireSort.WireNumLess b a = false).
Proof.
  assert (Hirr : forall x, WireSort.WireNumLess x x = false).
  { intros x. unfold WireSort.WireNumLess.
    rewrite Z.eqb_refl, !Z.ltb_irrefl. simpl.
    rewrite !Z.gtb_ltb, !Z.ltb_irrefl. apply dltb_irrefl. }
  assert (Htr : forall x y z, WireSort.WireNumLess x y = true ->
            WireSort.WireNumLess y z = true -> WireSort.WireNumLess x z = true).
  { intros x y z. unfold WireSort.WireNumLess.
    destruct x as [t1 p1 w1 d1], y as [t2 p2 w2 d2], z as [t3 p3 w3 d3]. simpl.
    rewrite !Z.gtb_ltb.
    destruct (Z.eqb_spec t1 t2), (Z.eqb_spec t2 t3), (Z.eqb_spec t1 t3); simpl;
      repeat match goal with
             | |- context [?u <? ?v] => destruct (Z.ltb_spec u v)
             end;
      try discriminate; try reflexivity; try lia.
    apply dltb_trans. }
  split; [apply Hirr |]. split; [apply Htr |].
  intros Hab. destruct (WireSort.WireNumLess b a) eqn:Hba; [| reflexivity].
  rewrite <- (Hirr a). symmetry. now apply (Htr a b a).
Qed.

(** X15.  With a maximal distance of 0, [WireDistLess] is
    [WireNumLess], as the comment in the header says; the constructor
    accepts the distance 0. *)
Theorem WireDistLess_zero_is_WireNumLess (a b : WireSort.Hit) :
  - 2 ^ 31 <= WireSort.GetWireNum a < 2 ^ 31 ->
  WireSort.WireDistLess_new 0 = Some 0 /\
  WireSort.WireDistLess 0 a b = WireSort.WireNumLess a b.
Proof.
  intros Hw. split; [reflexivity |].
  unfold WireSort.WireDistLess, WireSort.WireNumLess.
  replace (WireSort.Int (WireSort.GetWireNum a + 0)) with (WireSort.GetWireNum a).
  - reflexivity.
  - unfold WireSort.Int. rewrite Z.add_0_r.
    rewrite Z.mod_small by lia. lia.
Qed.

Lemma WireDistLess_zero_is_WireNumLess_witness :
  WireSort.WireDistLess_new 0 = Some 0 /\
  WireSort.WireDistLess 0 (WireSort.mkHit 0 1 7 (of_Z 3))
                          (WireSort.mkHit 0 1 7 (of_Z 4)) =
  WireSort.WireNumLess (WireSort.mkHit 0 1 7 (of_Z 3))
                       (WireSort.mkHit 0 1 7 (of_Z 4)).
Proof.
  apply (WireDistLess_zero_is_WireNumLess (WireSort.mkHit 0 1 7 (of_Z 3))
           (WireSort.mkHit 0 1 7 (of_Z 4))).
  simpl. lia.
Defined.

(** ** ChildIter: which children, of which types *)

Section ChildIter_more.

(** The trials from [n-1] down to 0 that are not skipped, with the
    child and the type each of them gives. *)
Definition accepted_trials (parent : list Z) (n : nat) : list (list Z * Z) :=
  omap (fun c : nat => snd (PatGen.trial parent (Z.of_nat c))) (rev (seq 0 n)).

Lemma accepted_trials_S (parent : list Z) (n : nat) :
  accepted_trials parent (S n) =
  match snd (PatGen.trial parent (Z.of_nat n)) with
  | Some ct => ct :: accepted_trials parent n
  | None => accepted_trials parent n
  end.
Proof.
  unfold accepted_trials. rewrite seq_S, rev_app_distr. simpl.
  now destruct (snd (PatGen.trial parent (Z.of_nat n))).
Qed.

Lemma ChildIter_incr_loop (it : PatGen.ChildIter) :
  0 <= PatGen.ci_fCount it ->
  PatGen.ChildIter_incr it =
  PatGen.ChildIter_loop (Z.to_nat (PatGen.ci_fCount it)) it.
Proof.
  intros Hc. unfold PatGen.ChildIter_incr.
  destruct (Z.gtb_spec (PatGen.ci_fCount it) 0) as [Hp | Hp]; [reflexivity |].
  replace (PatGen.ci_fCount it) with 0 by lia. reflexivity.
Qed.

Lemma ChildIter_loop_run (n : nat) :
  forall it fuel, (n < fuel)%nat ->
    PatGen.ChildIter_run fuel (PatGen.ChildIter_loop n it) =
    accepted_trials (PatGen.ci_fParent it) n.
Proof.
  induction n as [| n IH]; intros it fuel Hf;
    (destruct fuel as [| fuel]; [lia |]).
  - reflexivity.
  - rewrite accepted_trials_S. cbn [PatGen.ChildIter_loop].
    destruct (PatGen.trial (PatGen.ci_fParent it) (Z.of_nat n))
      as [raw [[child type] |]] eqn:Et; cbn [snd].
    + cbn [PatGen.ChildIter_run]. unfold PatGen.ChildIter_valid.
      cbn [PatGen.ci_fCount PatGen.ci_fChild PatGen.ci_fType].
      destruct (Z.geb_spec (Z.of_nat n) 0) as [_ | Hneg]; [| lia].
      f_equal. rewrite ChildIter_incr_loop by (simpl; lia).
      cbn [PatGen.ci_fCount]. rewrite Nat2Z.id.
      rewrite IH by lia. reflexivity.
    + rewrite IH by lia. reflexivity.
Qed.

(** The iteration over the children of a pattern, in terms of the
    trials. *)
Lemma children_of_trials (parent : list Z) :
  PatGen.children_of parent =
  accepted_trials parent
    (Z.to_nat (PatGen.Int (Z.shiftl 1 (PatGen.GetNbits parent)))).
Proof.
  set (N := PatGen.Int (Z.shiftl 1 (PatGen.GetNbits parent))).
  rewrite <- (children_of_complete parent (S (Z.to_nat N))).
  - unfold PatGen.ChildIter_new, PatGen.ChildIter_reset.
    cbn [PatGen.ci_fParent PatGen.ci_fChild PatGen.ci_fType]. fold N.
    destruct (Z.le_gt_cases 0 N) as [Hn | Hn].
    + rewrite ChildIter_incr_loop by exact Hn.
      cbn [PatGen.ci_fCount]. now rewrite ChildIter_loop_run by lia.
    + unfold PatGen.ChildIter_incr. cbn [PatGen.ci_fCount].
      destruct (Z.gtb_spec N 0) as [Hp | _]; [lia |].
      replace (Z.to_nat N) with 0%nat by lia. reflexivity.
  - unfold PatGen.ChildIter_new, PatGen.ChildIter_reset.
    cbn [PatGen.ci_fParent PatGen.ci_fChild PatGen.ci_fType]. fold N.
    match goal with
    | |- context [PatGen.ChildIter_incr ?x] =>
        destruct (ChildIter_incr_spec x) as (_ & Hm & Hdec & _)
    end.
    cbn [PatGen.ci_fCount] in *.
    destruct (Z.le_gt_cases 0 N) as [Hn | Hn]; [specialize (Hdec Hn); lia |].
    unfold PatGen.ChildIter_incr in *. cbn [PatGen.ci_fCount] in *.
    destruct (Z.gtb_spec N 0) as [Hp | _]; [lia |]. simpl. lia.
Qed.

(** X16.  For a pattern of fewer than 31 planes, the loop
    [for( ChildIter it(parent); it; ++it )] passes exactly the trials
    that are not skipped, for the bit combinations [2^n-1] down to 0 in
    this order, each with the child and the type the trial computes. *)
Theorem children_of_enumerates_trials (parent : list Z) :
  (length parent < 31)%nat ->
  PatGen.children_of parent = accepted_trials parent (2 ^ length parent).
Proof.
  intros Hn. rewrite children_of_trials. f_equal.
  unfold PatGen.GetNbits. rewrite Z.shiftl_1_l.
  assert (Hp : 0 < 2 ^ Z.of_nat (length parent) < 2 ^ 31).
  { split; [apply Z.pow_pos_nonneg; lia |].
    apply Z.pow_lt_mono_r; lia. }
  unfold PatGen.Int. rewrite Z.mod_small by lia.
  replace (2 ^ Z.of_nat (length parent) + 2 ^ 31 - 2 ^ 31)
    with (2 ^ Z.of_nat (length parent)) by lia.
  apply Nat2Z.inj. rewrite Z2Nat.id by lia.
  now rewrite Nat2Z.inj_pow.
Qed.

End ChildIter_more.

Lemma children_of_enumerates_trials_witness :
  PatGen.children_of [0; 0] = accepted_trials [0; 0] (2 ^ 2).
Proof.
  apply (children_of_enumerates_trials [0; 0]). simpl. lia.
Defined.

(** ** ChildIter: the shape of a child *)

Section ChildIter_shape.

(** Every bin of the pattern lies between 0 and the bin of the last
    plane. *)
Definition spanned (bits : list Z) : Prop :=
  Forall (fun b => 0 <= b <= List.last bits 0) bits.

Lemma last_map_cons (f : Z -> Z) (l : list Z) :
  forall a, List.last (map f (a :: l)) 0 = f (List.last (a :: l) 0).
Proof.
  induction l as [| b l IH]; intros a; [reflexivity |].
  change (List.last (map f (b :: l)) 0 = f (List.last (b :: l) 0)).
  apply IH.
Qed.

Lemma trial_bits_ge (parent : list Z) (count p : Z) :
  p ∈ parent ->
  exists x, In x (PatGen.trial_bits parent count) /\ Z.shiftl p 1 <= x.
Proof.
  intros Hin. apply list_elem_of_lookup_1 in Hin as [i Hi].
  assert (Hx : exists x, PatGen.trial_bits parent count !! i = Some x /\
                         Z.shiftl p 1 <= x).
  { unfold PatGen.trial_bits. rewrite list_lookup_imap, Hi. simpl.
    eexists. split; [reflexivity |]. destruct (negb _); lia. }
  destruct Hx as (x & Hx & Hle). exists x. split; [| exact Hle].
  apply list_elem_of_In. eapply list_elem_of_lookup_2. exact Hx.
Qed.

(** What a trial that is not skipped gives for a normalized parent. *)
Lemma trial_child (parent : list Z) (count : Z)
    (raw child : list Z) (type : Z) :
  normalized parent ->
  PatGen.trial parent count = (raw, Some (child, type)) ->
  spanned child /\
  (type = 0 \/ type = 1 \/ (type = 2 /\ Forall (fun p => p = 0) parent)).
Proof.
  intros Hp. unfold PatGen.trial.
  pose proof (trial_bits_ge parent count) as Hge.
  destruct (trial_bits_shape parent count Hp) as (b0 & rest & Hbits & Hb0 & Hpos).
  rewrite Hbits in *.
  pose proof (trial_maxbit_ge (b0 :: rest)) as [Hmax0 Hmax].
  pose proof (trial_minbit_le (b0 :: rest)) as (Hmin1 & Hmin & Hmin0).
  specialize (Hmin0 Hpos).
  pose proof (Hmin b0 (or_introl eq_refl)) as Hminb0.
  pose proof (last_In b0 rest) as HL.
  pose proof (Hmax _ HL) as HLmax. pose proof (Hmin _ HL) as HLmin.
  unfold PatGen.GetWidth. rewrite last_map_UShort.
  change (List.hd 0 (map UShort (b0 :: rest))) with (UShort b0).
  rewrite (UShort_small b0) by lia.
  pose proof (UShort_range (List.last (b0 :: rest) 0)) as HLt.
  set (L := List.last (b0 :: rest) 0) in *.
  set (mx := PatGen.trial_maxbit (b0 :: rest)) in *.
  set (mn := PatGen.trial_minbit (b0 :: rest)) in *.
  destruct (Z.gtb_spec (mx - mn) (Z.abs (UShort L - b0))) as [Hrej | Hacc];
    [discriminate |].
  assert (Hmx : mx <= 65535) by lia.
  assert (HLs : UShort L = L) by (apply UShort_small; lia).
  rewrite HLs in *.
  assert (Hbnd : forall x, In x (b0 :: rest) -> mn <= x <= mx)
    by (intros x Hx; split; [now apply Hmin | now apply Hmax]).
  assert (Hmap : map UShort (b0 :: rest) = b0 :: rest).
  { rewrite <- (map_id (b0 :: rest)) at 2. apply map_ext_in.
    intros x Hx. apply UShort_small. specialize (Hbnd x Hx). lia. }
  rewrite Hmap.
  destruct Hp as [_ Hpall]. rewrite Forall_forall in Hpall.
  destruct (Z.eqb_spec mn 0) as [Hmn | Hmn];
    destruct (Z.ltb_spec (L - b0) 0) as [Hw | Hw];
    intros H; inversion H; subst child type; clear H.
  - (* mirrored *)
    split.
    + change (spanned (map (fun b => UShort (- (L - b0) - b)) (b0 :: rest))).
      unfold spanned. rewrite last_map_cons. fold L.
      rewrite (UShort_small (- (L - b0) - L)) by lia.
      apply Forall_forall. intros y Hy.
      apply list_elem_of_fmap in Hy as (x & -> & Hx).
      apply list_elem_of_In in Hx. specialize (Hbnd x Hx).
      rewrite UShort_small by lia. lia.
    + right. right. split; [reflexivity |].
      apply Forall_forall. intros p Hin.
      destruct (Hge p Hin) as (x & Hx & Hle). specialize (Hbnd x Hx).
      specialize (Hpall p Hin). rewrite Z.shiftl_mul_pow2 in Hle by lia. lia.
  - (* neither *)
    split; [| now left].
    unfold spanned. fold L. apply Forall_forall. intros x Hx.
    apply list_elem_of_In in Hx. specialize (Hbnd x Hx). lia.
  - (* shifted and mirrored: cannot pass the width test *)
    exfalso. lia.
  - (* shifted *)
    split; [| right; now left].
    change (spanned (map (fun b => UShort (b - 1)) (b0 :: rest))).
    unfold spanned. rewrite last_map_cons. fold L.
    rewrite (UShort_small (L - 1)) by lia.
    apply Forall_forall. intros y Hy.
    apply list_elem_of_fmap in Hy as (x & -> & Hx).
    apply list_elem_of_In in Hx. specialize (Hbnd x Hx).
    rewrite UShort_small by lia. lia.
Qed.

Lemma children_of_trial (parent c : list Z) (t : Z) :
  In (c, t) (PatGen.children_of parent) ->
  exists count raw, PatGen.trial parent count = (raw, Some (c, t)).
Proof.
  rewrite children_of_trials. unfold accepted_trials. intros Hin.
  apply list_elem_of_In, list_elem_of_omap in Hin as (n & _ & Hn).
  exists (Z.of_nat n).
  destruct (PatGen.trial parent (Z.of_nat n)) as [raw o]. simpl in Hn.
  subst o. eauto.
Qed.

(** X17.  For a parent with first bin 0 and bins that fit [UShort_t],
    the type of a child is 0, 1 or 2, never 3 (no child is mirrored and
    shifted at once), and a mirrored child (type 2) comes only from the
    pattern whose bins are all 0, the root. *)
Theorem child_type_is_0_1_or_2 (parent c : list Z) (t : Z) :
  normalized parent ->
  In (c, t) (PatGen.children_of parent) ->
  t = 0 \/ t = 1 \/ (t = 2 /\ Forall (fun p => p = 0) parent).
Proof.
  intros Hp Hin. destruct (children_of_trial _ _ _ Hin) as (count & raw & Ht).
  exact (proj2 (trial_child _ _ _ _ _ Hp Ht)).
Qed.

(** X18.  For a parent with first bin 0 and bins that fit [UShort_t],
    every bin of a child lies between 0, its first bin, and the bin of
    its last plane: the test of [maxbit-minbit] against the width lets
    only such patterns pass. *)
Theorem child_bins_within_width (parent c : list Z) (t : Z) :
  normalized parent ->
  In (c, t) (PatGen.children_of parent) ->
  c !! 0%nat = Some 0 /\
  Forall (fun b => 0 <= b <= List.last c 0) c.
Proof.
  intros Hp Hin. split.
  - exact (proj1 (children_of_normalized _ _ _ Hp Hin)).
  - destruct (children_of_trial _ _ _ Hin) as (count & raw & Ht).
    exact (proj1 (trial_child _ _ _ _ _ Hp Ht)).
Qed.

End ChildIter_shape.

Lemma child_type_is_0_1_or_2_witness :
  2 = 0 \/ 2 = 1 \/ (2 = 2 /\ Forall (fun p => p = 0) [0; 0]).
Proof.
  apply (child_type_is_0_1_or_2 [0; 0] [0; 1] 2).
  - split; [reflexivity |]. repeat constructor; lia.
  - vm_compute. tauto.
Defined.

Lemma child_bins_within_width_witness :
  [0; 1; 3] !! 0%nat = Some 0 /\
  Forall (fun b => 0 <= b <= List.last [0; 1; 3] 0) [0; 1; 3].
Proof.
  apply (child_bins_within_width [0; 1; 2] [0; 1; 3] 1).
  - split; [reflexivity |]. repeat constructor; lia.
  - vm_compute. tauto.
Defined.

(** ** The hash table: insertion and lookup *)

Section Hash_facts.
Variable Hash : list Z -> Z.

Local Abbreviation Find := (PatGen.Find Hash).
Local Abbreviation AddHash := (PatGen.AddHash Hash).
Local Abbreviation bucket_of := (PatGen.bucket_of Hash).

Lemma bucket_of_lt (g : PatGen.PatternGenerator) (bits : list Z) :
  (0 < length (PatGen.fHashTable g))%nat ->
  (bucket_of g bits < length (PatGen.fHashTable g))%nat.
Proof.
  intros Hn. unfold PatGen.bucket_of.
  pose proof (Z.mod_pos_bound (Hash bits)
                (Z.of_nat (length (PatGen.fHashTable g)))) as Hb.
  lia.
Qed.

(** The table [AddHash] inserts into: sized on the first call. *)
Definition sized (g : PatGen.PatternGenerator) : PatGen.PatternGenerator :=
  if (length (PatGen.fHashTable g) =? 0)%nat
  then PatGen.set_table
         (replicate (Z.to_nat (PatGen.Int (Z.shiftl 1 (PatGen.fNlevels g - 1)))) []) g
  else g.

Lemma sized_size (g : PatGen.PatternGenerator) :
  PatGen.fHashTable g <> [] \/ 1 <= PatGen.fNlevels g <= 31 ->
  (0 < length (PatGen.fHashTable (sized g)))%nat.
Proof.
  intros H. unfold sized.
  destruct (Nat.eqb_spec (length (PatGen.fHashTable g)) 0) as [E | E]; [| lia].
  destruct H as [H | H].
  - destruct (PatGen.fHashTable g); [congruence | discriminate].
  - simpl. rewrite length_replicate. rewrite Z.shiftl_1_l.
    assert (Hp : 0 < 2 ^ (PatGen.fNlevels g - 1) < 2 ^ 31).
    { split; [apply Z.pow_pos_nonneg; lia |].
      apply Z.pow_lt_mono_r; lia. }
    unfold PatGen.Int. rewrite Z.mod_small by lia. lia.
Qed.

Lemma Find_sized (g : PatGen.PatternGenerator) (bits : list Z) :
  Find (sized g) bits = Find g bits.
Proof.
  unfold sized.
  destruct (Nat.eqb_spec (length (PatGen.fHashTable g)) 0) as [E | E];
    [| reflexivity].
  unfold PatGen.Find. simpl.
  destruct (PatGen.fHashTable g) as [| c t]; [| discriminate]. simpl.
  destruct (replicate _ _ !! _) as [chain|] eqn:Ec; [| reflexivity].
  apply lookup_replicate in Ec as [-> _]. reflexivity.
Qed.

Lemma AddHash_sized (g : PatGen.PatternGenerator) (pat : nat) :
  AddHash g pat =
  PatGen.set_table
    (alter (fun chain => PatGen.HashNode_new pat :: chain)
           (bucket_of (sized g) (PatGen.bits_at g pat))
           (PatGen.fHashTable (sized g)))
    (sized g).
Proof.
  unfold PatGen.AddHash, sized.
  now destruct (length (PatGen.fHashTable g) =? 0)%nat.
Qed.

(** X19.  Insertion and lookup in the hash table: after
    [AddHash( pat )], [Find] gives the new node for the bits of [pat],
    and for all other bits what it gave before.  The table must have a
    chain, which the first call provides when there are 1 to 31
    levels. *)
Theorem AddHash_then_Find (g : PatGen.PatternGenerator) (pat : nat)
    (bits : list Z) :
  PatGen.fHashTable g <> [] \/ 1 <= PatGen.fNlevels g <= 31 ->
  Find (AddHash g pat) bits =
  if bool_decide (bits = PatGen.bits_at g pat)
  then Some (PatGen.HashNode_new pat)
  else Find g bits.
Proof.
  intros Hsz. apply sized_size in Hsz.
  rewrite AddHash_sized, <- (Find_sized g bits).
  assert (Hb : PatGen.bits_at (sized g) = PatGen.bits_at g)
    by (unfold sized; now destruct (_ =? _)%nat).
  set (g1 := sized g) in *.
  unfold PatGen.Find. unfold PatGen.bucket_of at 1. simpl.
  rewrite length_alter. fold (bucket_of g1 bits).
  change (PatGen.bits_at (PatGen.set_table _ g1)) with (PatGen.bits_at g1).
  rewrite Hb.
  pose proof (bucket_of_lt g1 (PatGen.bits_at g pat) Hsz) as Hk.
  apply lookup_lt_is_Some_2 in Hk as [chain Hchain].
  case_bool_decide as Hbits.
  - subst bits. rewrite list_lookup_alter_eq, Hchain. simpl.
    rewrite bool_decide_eq_true_2 by reflexivity. reflexivity.
  - destruct (decide (bucket_of g1 bits = bucket_of g1 (PatGen.bits_at g pat)))
      as [E | E].
    + rewrite E, list_lookup_alter_eq, Hchain. simpl.
      rewrite bool_decide_eq_false_2 by exact Hbits. reflexivity.
    + rewrite list_lookup_alter_ne by congruence. reflexivity.
Qed.

End Hash_facts.

Lemma AddHash_then_Find_witness :
  PatGen.Find Examples.Hash_last
    (PatGen.AddHash Examples.Hash_last
       (Examples.generated Examples.params_trivial) 1) [0; 1] =
  Some (PatGen.HashNode_new 1).
Proof.
  apply (AddHash_then_Find Examples.Hash_last
           (Examples.generated Examples.params_trivial) 1 [0; 1]).
  left. vm_compute. discriminate.
Defined.

(** ** PatternGenerator: every pattern is stored once *)

Section Generator_unique.
Variable Hash : list Z -> Z.
Variable AddChild : PatGen.Link -> list PatGen.Link -> list PatGen.Link.

Local Abbreviation Find := (PatGen.Find Hash).
Local Abbreviation AddHash := (PatGen.AddHash Hash).
Local Abbreviation bucket_of := (PatGen.bucket_of Hash).
Local Abbreviation add_link := (PatGen.add_link AddChild).
Local Abbreviation try_child := (PatGen.try_child Hash AddChild).
Local Abbreviation MakeChildNodes := (PatGen.MakeChildNodes Hash AddChild).

(** The hash table indexes the arena: the table has a chain, every node
    is in the chain of the hash of its bits, no pattern has two nodes,
    no two nodes have patterns with the same bits, every pattern of the
    arena has a node, and every pattern is spanned. *)
Record unique (g : PatGen.PatternGenerator) : Prop := {
  un_size : (0 < length (PatGen.fHashTable g))%nat;
  un_place : forall k chain node,
    PatGen.fHashTable g !! k = Some chain -> In node chain ->
    bucket_of g (PatGen.bits_at g (PatGen.fPattern node)) = k;
  un_nodup : NoDup (map PatGen.fPattern (PatGen.stored g));
  un_bits : forall n1 n2,
    In n1 (PatGen.stored g) -> In n2 (PatGen.stored g) ->
    PatGen.bits_at g (PatGen.fPattern n1) = PatGen.bits_at g (PatGen.fPattern n2) ->
    PatGen.fPattern n1 = PatGen.fPattern n2;
  un_all : forall p, (p < length (PatGen.arena g))%nat ->
    In p (map PatGen.fPattern (PatGen.stored g));
  un_span : Forall (fun p => spanned (PatGen.fBits p)) (PatGen.arena g)
}.

Lemma concat_alter_cons {A : Type} (x : A) (T : list (list A)) :
  forall k, (k < length T)%nat ->
    concat (alter (fun chain => x :: chain) k T) ≡ₚ x :: concat T.
Proof.
  induction T as [| a T IH]; intros k Hk; simpl in Hk; [lia |].
  destruct k as [| k]; [reflexivity |].
  change (alter (fun chain => x :: chain) (S k) (a :: T))
    with (a :: alter (fun chain => x :: chain) k T).
  cbn [concat]. rewrite IH by lia. symmetry. apply Permutation_middle.
Qed.

Lemma stored_In_chain (g : PatGen.PatternGenerator) (node : PatGen.HashNode) :
  In node (PatGen.stored g) <->
  exists k chain, PatGen.fHashTable g !! k = Some chain /\ In node chain.
Proof.
  unfold PatGen.stored. rewrite in_concat. split.
  - intros (chain & Hc & Hn). apply list_elem_of_In in Hc.
    apply list_elem_of_lookup_1 in Hc as [k Hk]. eauto.
  - intros (k & chain & Hk & Hn). exists chain. split; [| exact Hn].
    apply list_elem_of_In. eapply list_elem_of_lookup_2. exact Hk.
Qed.

(** With every node in its place, a pattern that [Find] does not find is
    not stored. *)
Lemma Find_None_fresh (g : PatGen.PatternGenerator) (bits : list Z)
    (node : PatGen.HashNode) :
  unique g -> Find g bits = None -> In node (PatGen.stored g) ->
  PatGen.bits_at g (PatGen.fPattern node) <> bits.
Proof.
  intros Hu Hf Hin Hb. apply stored_In_chain in Hin as (k & chain & Hk & Hn).
  pose proof (un_place g Hu k chain node Hk Hn) as Hplace.
  rewrite Hb in Hplace. unfold PatGen.Find in Hf. rewrite Hplace, Hk in Hf.
  pose proof (find_none _ _ Hf node Hn) as Hnone. simpl in Hnone.
  rewrite bool_decide_eq_true_2 in Hnone by (now symmetry). discriminate.
Qed.

(** With every node in its place and no two nodes for the same bits,
    [Find] finds every stored node by the bits of its pattern. *)
Lemma Find_stored_node (g : PatGen.PatternGenerator) (node : PatGen.HashNode) :
  unique g -> In node (PatGen.stored g) ->
  Find g (PatGen.bits_at g (PatGen.fPattern node)) = Some node.
Proof.
  intros Hu Hin. pose proof Hin as Hin0.
  apply stored_In_chain in Hin as (k & chain & Hk & Hn).
  pose proof (un_place g Hu k chain node Hk Hn) as Hplace.
  unfold PatGen.Find. rewrite Hplace, Hk.
  destruct (find _ chain) as [x|] eqn:Ef.
  - apply find_some in Ef as [Hx Hbx]. apply bool_decide_eq_true in Hbx.
    assert (Hxs : In x (PatGen.stored g))
      by (apply stored_In_chain; eauto).
    pose proof (un_bits g Hu node x Hin0 Hxs Hbx) as Hp.
    f_equal. symmetry.
    pose proof (un_nodup g Hu) as Hnd.
    revert Hnd Hin0 Hxs Hp. generalize (PatGen.stored g) as l.
    induction l as [| y l IH]; simpl; intros Hnd H1 H2 Hp; [contradiction |].
    apply NoDup_cons in Hnd as [Hy Hnd].
    destruct H1 as [-> | H1], H2 as [E2 | H2]; subst; try reflexivity.
    + exfalso. apply Hy. rewrite Hp. apply list_elem_of_In. now apply in_map.
    + exfalso. apply Hy. rewrite <- Hp. apply list_elem_of_In. now apply in_map.
    + now apply IH.
  - pose proof (find_none _ _ Ef node Hn) as Hnone. simpl in Hnone.
    rewrite bool_decide_eq_true_2 in Hnone by reflexivity. discriminate.
Qed.

Lemma lookup_map {A B : Type} (f : A -> B) (l : list A) (k : nat) :
  map f l !! k = f <$> l !! k.
Proof. exact (list_lookup_fmap f l k). Qed.

Lemma stored_UsedAtDepth (g : PatGen.PatternGenerator) (pat : nat) (d : Z) :
  map PatGen.fPattern (PatGen.stored (PatGen.UsedAtDepth g pat d)) =
  map PatGen.fPattern (PatGen.stored g).
Proof.
  unfold PatGen.stored, PatGen.UsedAtDepth. simpl.
  rewrite <- concat_map, map_map. apply map_ext.
  intros node. now destruct (_ && _).
Qed.

Lemma UsedAtDepth_unique (g : PatGen.PatternGenerator) (pat : nat) (d : Z) :
  unique g -> unique (PatGen.UsedAtDepth g pat d).
Proof.
  intros Hu.
  assert (Hin : forall n, In n (PatGen.stored (PatGen.UsedAtDepth g pat d)) ->
            exists n0, In n0 (PatGen.stored g) /\
                       PatGen.fPattern n = PatGen.fPattern n0).
  { intros n Hn. unfold PatGen.stored, PatGen.UsedAtDepth in Hn. simpl in Hn.
    rewrite <- concat_map in Hn. apply in_map_iff in Hn as (n0 & <- & Hn0).
    exists n0. split; [exact Hn0 |]. now destruct (_ && _). }
  split.
  - unfold PatGen.UsedAtDepth. simpl. rewrite length_map. apply (un_size g Hu).
  - intros k chain node Hk Hn.
    unfold PatGen.UsedAtDepth in Hk. simpl in Hk. rewrite lookup_map in Hk.
    destruct (PatGen.fHashTable g !! k) as [chain0|] eqn:Hk0; [| discriminate].
    simpl in Hk. inversion Hk; subst chain; clear Hk.
    apply in_map_iff in Hn as (n0 & <- & Hn0).
    pose proof (un_place g Hu k chain0 n0 Hk0 Hn0) as Hp.
    assert (E : PatGen.fPattern
                  (if (PatGen.fPattern n0 =? pat)%nat && (d <? PatGen.fMinDepth n0)
                   then PatGen.mkHashNode (PatGen.fPattern n0) d else n0)
                = PatGen.fPattern n0) by now destruct (_ && _).
    rewrite E. unfold PatGen.bucket_of, PatGen.UsedAtDepth in *. simpl.
    rewrite length_map. exact Hp.
  - rewrite stored_UsedAtDepth. apply (un_nodup g Hu).
  - intros n1 n2 H1 H2 Hb.
    destruct (Hin n1 H1) as (m1 & Hm1 & E1).
    destruct (Hin n2 H2) as (m2 & Hm2 & E2).
    rewrite E1, E2 in *. now apply (un_bits g Hu).
  - intros p Hp. rewrite stored_UsedAtDepth. now apply (un_all g Hu).
  - apply (un_span g Hu).
Qed.

Lemma bits_at_add_link (g : PatGen.PatternGenerator) (parent pat : nat)
    (type : Z) (p : nat) :
  PatGen.bits_at (add_link g parent pat type) p = PatGen.bits_at g p.
Proof.
  unfold PatGen.bits_at, PatGen.add_link. simpl.
  destruct (decide (parent = p)) as [-> | Hne].
  - rewrite list_lookup_alter_eq. now destruct (PatGen.arena g !! p).
  - now rewrite list_lookup_alter_ne.
Qed.

Lemma add_link_unique (g : PatGen.PatternGenerator) (parent pat : nat) (type : Z) :
  unique g -> unique (add_link g parent pat type).
Proof.
  intros Hu. split.
  - apply (un_size g Hu).
  - intros k chain node Hk Hn. rewrite bits_at_add_link.
    exact (un_place g Hu k chain node Hk Hn).
  - apply (un_nodup g Hu).
  - intros n1 n2 H1 H2. rewrite !bits_at_add_link. now apply (un_bits g Hu).
  - intros p Hp. apply (un_all g Hu).
    unfold PatGen.add_link in Hp. simpl in Hp. now rewrite length_alter in Hp.
  - unfold PatGen.add_link. simpl. apply Forall_alter; [apply (un_span g Hu) |].
    intros q _ Hq. exact Hq.
Qed.

(** A new pattern that [Find] did not find, put into the arena and into
    the table. *)
Lemma insert_unique (g : PatGen.PatternGenerator) (bits : list Z) :
  table_ok g -> unique g -> Find g bits = None -> spanned bits ->
  unique (AddHash (fst (PatGen.new_Pattern g bits))
                  (snd (PatGen.new_Pattern g bits))).
Proof.
  intros Ht Hu Hf Hsp. unfold PatGen.new_Pattern. cbn [fst snd].
  set (pat := length (PatGen.arena g)).
  set (node := PatGen.HashNode_new pat).
  set (g1 := PatGen.set_arena (PatGen.arena g ++ [PatGen.mkPattern bits []]) g).
  pose proof (un_size g Hu) as Hsz.
  assert (Hnew : PatGen.bits_at g1 pat = bits).
  { unfold PatGen.bits_at, g1, pat. simpl.
    now rewrite list_lookup_middle. }
  assert (Hg' : AddHash g1 pat =
                PatGen.set_table
                  (alter (fun chain => node :: chain) (bucket_of g bits)
                         (PatGen.fHashTable g)) g1).
  { unfold PatGen.AddHash. cbv zeta.
    change (PatGen.fHashTable g1) with (PatGen.fHashTable g).
    destruct (Nat.eqb_spec (length (PatGen.fHashTable g)) 0) as [E | _]; [lia |].
    rewrite Hnew. reflexivity. }
  rewrite Hg'. clear Hg'.
  set (g' := PatGen.set_table _ g1).
  pose proof (bucket_of_lt Hash g bits Hsz) as Hk.
  assert (Hst : PatGen.stored g' ≡ₚ node :: PatGen.stored g).
  { unfold PatGen.stored, g'. simpl. now apply concat_alter_cons. }
  assert (Hold : forall p, (p < pat)%nat -> PatGen.bits_at g' p = PatGen.bits_at g p).
  { intros p Hp. unfold PatGen.bits_at, g', g1. simpl.
    now rewrite lookup_app_l by exact Hp. }
  assert (Hnew' : PatGen.bits_at g' pat = bits) by exact Hnew.
  assert (Hbk : forall b, bucket_of g' b = bucket_of g b).
  { intros b. unfold PatGen.bucket_of, g'. simpl. now rewrite length_alter. }
  assert (Hlt : forall n, In n (PatGen.stored g) -> (PatGen.fPattern n < pat)%nat)
    by (intros n Hn; now apply table_ok_In).
  assert (Hcases : forall n, In n (PatGen.stored g') ->
            n = node \/ In n (PatGen.stored g)).
  { intros n Hn. apply (Permutation_in _ Hst) in Hn. destruct Hn; auto. }
  split.
  - unfold g'. simpl. now rewrite length_alter.
  - intros k chain n Hkc Hn. rewrite Hbk. unfold g' in Hkc. simpl in Hkc.
    destruct (decide (bucket_of g bits = k)) as [E | E].
    + subst k. rewrite list_lookup_alter_eq in Hkc.
      destruct (PatGen.fHashTable g !! bucket_of g bits) as [chain0|] eqn:Hk0;
        [| discriminate].
      simpl in Hkc. inversion Hkc; subst chain; clear Hkc.
      destruct Hn as [<- | Hn].
      * simpl. now rewrite Hnew'.
      * assert (Hs : In n (PatGen.stored g)) by (apply stored_In_chain; eauto).
        rewrite Hold by now apply Hlt.
        exact (un_place g Hu _ chain0 n Hk0 Hn).
    + rewrite list_lookup_alter_ne in Hkc by exact E.
      assert (Hs : In n (PatGen.stored g)) by (apply stored_In_chain; eauto).
      rewrite Hold by now apply Hlt.
      exact (un_place g Hu k chain n Hkc Hn).
  - rewrite (Permutation_map PatGen.fPattern Hst). simpl.
    apply NoDup_cons. split; [| apply (un_nodup g Hu)].
    intros Hin. apply list_elem_of_In, in_map_iff in Hin as (n & En & Hn).
    specialize (Hlt n Hn). lia.
  - intros n1 n2 H1 H2 Hb.
    destruct (Hcases n1 H1) as [-> | Hs1], (Hcases n2 H2) as [-> | Hs2].
    + reflexivity.
    + exfalso. simpl in Hb. rewrite Hnew', (Hold _ (Hlt n2 Hs2)) in Hb.
      now apply (Find_None_fresh g bits n2 Hu Hf Hs2).
    + exfalso. simpl in Hb. rewrite Hnew', (Hold _ (Hlt n1 Hs1)) in Hb.
      now apply (Find_None_fresh g bits n1 Hu Hf Hs1).
    + rewrite (Hold _ (Hlt n1 Hs1)), (Hold _ (Hlt n2 Hs2)) in Hb.
      now apply (un_bits g Hu).
  - intros p Hp. unfold g', g1 in Hp. simpl in Hp.
    rewrite length_app in Hp. simpl in Hp.
    apply (Permutation_in _ (Permutation_sym (Permutation_map PatGen.fPattern Hst))).
    simpl. destruct (decide (p = pat)) as [-> | Hne]; [now left |].
    right. apply (un_all g Hu). fold pat. lia.
  - unfold g', g1. simpl. apply Forall_app. split; [apply (un_span g Hu) |].
    constructor; [exact Hsp | constructor].
Qed.

(** The generator is in order and the table indexes the arena. *)
Definition sound (g : PatGen.PatternGenerator) : Prop :=
  generator_ok g /\ unique g.

Lemma UsedAtDepth_sound (g : PatGen.PatternGenerator) (pat : nat) (d : Z) :
  sound g -> sound (PatGen.UsedAtDepth g pat d).
Proof.
  intros [Hg Hu]. split; [now apply UsedAtDepth_ok | now apply UsedAtDepth_unique].
Qed.

Lemma try_child_sound (g : PatGen.PatternGenerator) (parent : nat) (depth : Z)
    (child : list Z) (type : Z) :
  sound g -> normalized child -> spanned child ->
  sound (try_child parent depth g (child, type)).
Proof.
  intros [Hg Hu] Hc Hs. unfold PatGen.try_child.
  destruct (Find g child) as [node|] eqn:Ef.
  - destruct (_ || _); [| now split].
    split; [now apply add_link_ok | now apply add_link_unique].
  - destruct (_ && _); [| now split].
    split.
    + apply add_link_ok. now apply new_Pattern_AddHash_ok.
    + apply add_link_unique. apply insert_unique; try assumption.
      exact (proj2 Hg).
Qed.

Lemma MakeChildNodes_sound (fuel : nat) :
  forall g pnode depth,
    sound g -> (pnode < length (PatGen.arena g))%nat ->
    sound (MakeChildNodes fuel g pnode depth).
Proof.
  induction fuel as [| fuel IH]; intros g pnode depth Hg Hp.
  - simpl. destruct (depth >? 0); destruct (depth >=? _);
      try exact Hg; now apply UsedAtDepth_sound.
  - simpl.
    set (g1 := if depth >? 0 then PatGen.UsedAtDepth g pnode (depth - 1) else g).
    assert (Hg1 : sound g1).
    { subst g1. destruct (depth >? 0); [now apply UsedAtDepth_sound | exact Hg]. }
    assert (Hp1 : (pnode < length (PatGen.arena g1))%nat).
    { subst g1. now destruct (depth >? 0). }
    destruct (depth >=? PatGen.fNlevels g1); [exact Hg1 |].
    set (g2 := match PatGen.children_at g1 pnode with
               | [] => foldl (try_child pnode depth) g1
                         (PatGen.children_of (PatGen.bits_at g1 pnode))
               | _ :: _ => g1
               end).
    assert (Hg2 : sound g2).
    { subst g2. destruct (PatGen.children_at g1 pnode); [| exact Hg1].
      apply foldl_invariant; [| exact Hg1].
      intros a [c t] Ha Hin.
      assert (Hn : normalized (PatGen.bits_at g1 pnode))
        by (apply bits_at_normalized; [exact (proj1 Hg1) | exact Hp1]).
      apply try_child_sound; [exact Ha | |].
      - eapply children_of_normalized; eassumption.
      - destruct (children_of_trial _ _ _ Hin) as (count & raw & Ht).
        exact (proj1 (trial_child _ _ _ _ _ Hn Ht)). }
    apply foldl_invariant; [| exact Hg2].
    intros a ln Ha _.
    destruct (Find a (PatGen.bits_at a (PatGen.lnkPattern ln))) as [node|] eqn:Ef;
      [| exact Ha].
    apply Find_stored in Ef as [Hin _].
    pose proof (table_ok_In a node (proj2 (proj1 Ha)) Hin) as Hlt.
    destruct (PatGen.children_at a (PatGen.lnkPattern ln)).
    + now apply IH.
    + destruct (PatGen.fMinDepth node >? depth); [now apply IH | exact Ha].
Qed.

Lemma concat_replicate_nil {A : Type} (n : nat) :
  concat (replicate n ([] : list A)) = [].
Proof. induction n as [| n IH]; simpl; [reflexivity | exact IH]. Qed.

(** After the build, for 1 to 31 levels and at least one plane. *)
Lemma build_sound (g : PatGen.PatternGenerator) (p : PatGen.TreeParam_t) :
  PatGen.zpos p <> [] -> 0 <= PatGen.maxdepth p <= 30 ->
  sound (PatGen.build Hash AddChild (PatGen.DeleteTree g) p).
Proof.
  intros Hz Hd. unfold PatGen.build.
  set (g1 := PatGen.mkGen _ _ _ _ _ _ _).
  set (bits := PatGen.fBits (PatGen.Pattern_new (PatGen.fNplanes g1))).
  set (n := Z.to_nat (PatGen.Int (Z.shiftl 1 (PatGen.fNlevels g1 - 1)))).
  assert (Hlev : PatGen.fNlevels g1 = PatGen.maxdepth p + 1).
  { subst g1. simpl. apply UInt_small. lia. }
  assert (Hn : (0 < n)%nat).
  { subst n. rewrite Hlev, Z.shiftl_1_l.
    assert (Hp : 0 < 2 ^ (PatGen.maxdepth p + 1 - 1) < 2 ^ 31).
    { split; [apply Z.pow_pos_nonneg; lia |].
      apply Z.pow_lt_mono_r; lia. }
    unfold PatGen.Int. rewrite Z.mod_small by lia. lia. }
  set (g1' := PatGen.set_table (replicate n []) g1).
  assert (Hbits : normalized bits /\ spanned bits).
  { subst bits g1. simpl. rewrite Nat2Z.id.
    destruct (PatGen.zpos p) as [| z zs]; [congruence |]. simpl. split.
    - split; [reflexivity |]. constructor; [lia |].
      apply Forall_replicate. lia.
    - unfold spanned.
      assert (HL : List.last (0 :: replicate (length zs) 0) 0 = 0).
      { generalize (length zs) as m. intros m.
        change (0 :: replicate m 0) with (replicate (S m) 0).
        induction m as [| m IHm]; [reflexivity |].
        change (replicate (S (S m)) 0) with (0 :: replicate (S m) 0).
        exact IHm. }
      rewrite HL. constructor; [lia |]. apply Forall_replicate. lia. }
  destruct Hbits as [Hnorm Hspan].
  assert (Hok' : generator_ok g1').
  { split.
    - subst g1' g1. unfold arena_ok. simpl. constructor.
    - subst g1' g1. unfold table_ok. simpl. apply Forall_replicate. constructor. }
  assert (Hchain : forall k chain, replicate n ([] : list PatGen.HashNode) !! k
                     = Some chain -> chain = []).
  { intros k chain Hk. now apply lookup_replicate in Hk as [-> _]. }
  assert (Hun' : unique g1').
  { split.
    - subst g1'. simpl. now rewrite length_replicate.
    - intros k chain node Hk Hin. subst g1'. simpl in Hk.
      apply Hchain in Hk. subst chain. contradiction.
    - subst g1'. unfold PatGen.stored. simpl. rewrite concat_replicate_nil.
      constructor.
    - intros n1 n2 H1. subst g1'. unfold PatGen.stored in H1. simpl in H1.
      rewrite concat_replicate_nil in H1. contradiction.
    - intros q Hq. subst g1' g1. simpl in Hq. lia.
    - subst g1' g1. simpl. constructor. }
  assert (Hfind : Find g1' bits = None).
  { unfold PatGen.Find. subst g1'. simpl.
    destruct (replicate n [] !! _) as [chain|] eqn:Ek; [| reflexivity].
    apply Hchain in Ek. now subst chain. }
  pose proof (insert_unique g1' bits (proj2 Hok') Hun' Hfind Hspan) as Hu3.
  pose proof (new_Pattern_AddHash_ok Hash g1' bits Hok' Hnorm) as Hg3.
  assert (Hsame : AddHash (fst (PatGen.new_Pattern g1' bits))
                          (snd (PatGen.new_Pattern g1' bits)) =
                  AddHash (fst (PatGen.new_Pattern g1 bits))
                          (snd (PatGen.new_Pattern g1 bits))).
  { unfold PatGen.new_Pattern, PatGen.AddHash. cbn [fst snd]. cbv zeta.
    subst g1' g1. simpl. rewrite length_replicate.
    destruct (Nat.eqb_spec n 0) as [E | _]; [lia |]. reflexivity. }
  rewrite Hsame in Hu3, Hg3. clear Hsame.
  unfold PatGen.new_Pattern in *. cbv beta iota zeta.
  cbn [fst snd] in Hu3, Hg3.
  set (g2 := PatGen.set_arena _ g1) in *.
  set (root := length (PatGen.arena g1)) in *.
  assert (Hr : (root < length (PatGen.arena (AddHash g2 root)))%nat).
  { subst g2 root. unfold PatGen.AddHash. simpl. lia. }
  pose proof (MakeChildNodes_sound
                (Z.to_nat (PatGen.fNlevels (AddHash g2 root)))
                (AddHash g2 root) root 1 (conj Hg3 Hu3) Hr) as [[Ha Ht] Hu4].
  split; [split; assumption |].
  destruct Hu4 as [U1 U2 U3 U4 U5 U6]. split; assumption.
Qed.

Lemma NoDup_map_of {A B C : Type} (f : A -> B) (h : A -> C) (l : list A) :
  NoDup (map f l) ->
  (forall x y, In x l -> In y l -> h x = h y -> f x = f y) ->
  NoDup (map h l).
Proof.
  induction l as [| a l IH]; simpl; intros Hnd Hinj; [constructor |].
  apply NoDup_cons in Hnd as [Ha Hnd]. apply NoDup_cons. split.
  - intros Hin. apply Ha.
    apply list_elem_of_In, in_map_iff in Hin as (y & Ey & Hy).
    apply list_elem_of_In, in_map_iff. exists y. split; [| exact Hy].
    apply Hinj; auto.
  - apply IH; [exact Hnd |]. intros x y Hx Hy. apply Hinj; auto.
Qed.

Section After_Generate.
Variable Normalize : PatGen.TreeParam_t -> Z * PatGen.TreeParam_t.
Variable g : PatGen.PatternGenerator.
Variables p p' : PatGen.TreeParam_t.
Hypothesis Hnorm : Normalize p = (0, p').
Hypothesis Hplanes : PatGen.zpos p' <> [].
Hypothesis Hdepth : 0 <= PatGen.maxdepth p' <= 30.

Local Abbreviation g' := (snd (PatGen.Generate Hash AddChild Normalize g p)).

Lemma Generate_sound : sound g'.
Proof.
  unfold PatGen.Generate. rewrite Hnorm. simpl.
  now apply build_sound.
Qed.

Lemma Generate_nPatterns :
  PatGen.nPatterns (PatGen.fStats g') = Z.of_nat (length (PatGen.stored g')).
Proof.
  unfold PatGen.Generate. rewrite Hnorm. simpl.
  unfold PatGen.build, PatGen.new_Pattern. cbv beta iota zeta.
  unfold PatGen.CalcStatistics, PatGen.stored. reflexivity.
Qed.

(** X20.  After [Generate] with parameters that [Normalize] accepts
    (at least one plane, a depth of 0 to 30), every pattern is stored
    once: no two hash nodes have patterns with the same bins, the nodes
    point to the patterns of the arena one to one, and the pattern count
    of the statistics is the number of allocated patterns. *)
Theorem Generate_stores_each_pattern_once :
  NoDup (map (fun node => PatGen.bits_at g' (PatGen.fPattern node))
             (PatGen.stored g')) /\
  map PatGen.fPattern (PatGen.stored g') ≡ₚ seq 0 (length (PatGen.arena g')) /\
  PatGen.nPatterns (PatGen.fStats g') = Z.of_nat (length (PatGen.arena g')).
Proof.
  destruct Generate_sound as [[_ Ht] Hu].
  assert (Hperm : map PatGen.fPattern (PatGen.stored g')
                  ≡ₚ seq 0 (length (PatGen.arena g'))).
  { apply NoDup_Permutation; [apply (un_nodup _ Hu) | apply NoDup_seq |].
    intros x. rewrite elem_of_seq. split.
    - intros Hin. apply list_elem_of_In, in_map_iff in Hin as (n & <- & Hn).
      pose proof (table_ok_In _ n Ht Hn). lia.
    - intros Hx. apply list_elem_of_In. apply (un_all _ Hu). lia. }
  split; [| split; [exact Hperm |]].
  - apply (NoDup_map_of PatGen.fPattern); [apply (un_nodup _ Hu) |].
    intros x y Hx Hy. now apply (un_bits _ Hu).
  - rewrite Generate_nPatterns.
    rewrite <- (length_map PatGen.fPattern), (Permutation_length Hperm).
    now rewrite length_seq.
Qed.

(** X21.  After [Generate] with parameters that [Normalize] accepts
    (at least one plane, a depth of 0 to 30), [Find] is exact: it
    returns a node for given bins if and only if the node is in the
    table and its pattern has these bins. *)
Theorem Find_is_exact (bits : list Z) (node : PatGen.HashNode) :
  Find g' bits = Some node <->
  In node (PatGen.stored g') /\
  bits = PatGen.bits_at g' (PatGen.fPattern node).
Proof.
  destruct Generate_sound as [_ Hu]. split.
  - apply Find_stored.
  - intros [Hin ->]. now apply Find_stored_node.
Qed.

(** X22.  After [Generate] with parameters that [Normalize] accepts
    (at least one plane, a depth of 0 to 30), every stored pattern has
    first bin 0 and all its bins between 0 and the bin of its last
    plane. *)
Theorem stored_bins_within_width (node : PatGen.HashNode) :
  In node (PatGen.stored g') ->
  let bits := PatGen.bits_at g' (PatGen.fPattern node) in
  bits !! 0%nat = Some 0 /\
  Forall (fun b => 0 <= b <= List.last bits 0) bits.
Proof.
  intros Hin bits. subst bits.
  destruct Generate_sound as [Hg Hu].
  pose proof (table_ok_In _ node (proj2 Hg) Hin) as Hlt.
  split; [exact (proj1 (bits_at_normalized _ _ Hg Hlt)) |].
  pose proof (un_span _ Hu) as Hs. rewrite Forall_lookup in Hs.
  unfold PatGen.bits_at.
  destruct (PatGen.arena g' !! PatGen.fPattern node) as [pat|] eqn:E.
  - exact (Hs _ _ E).
  - apply lookup_ge_None in E. lia.
Qed.

End After_Generate.

End Generator_unique.

Lemma Generate_stores_each_pattern_once_witness :
  let g' := Examples.generated Examples.params_slope in
  NoDup (map (fun node => PatGen.bits_at g' (PatGen.fPattern node))
             (PatGen.stored g')) /\
  map PatGen.fPattern (PatGen.stored g') ≡ₚ seq 0 (length (PatGen.arena g')) /\
  PatGen.nPatterns (PatGen.fStats g') = Z.of_nat (length (PatGen.arena g')).
Proof.
  apply (Generate_stores_each_pattern_once Examples.Hash_last
           Examples.AddChild_head PatGen.Normalize PatGen.PatternGenerator_new
           Examples.params_slope (snd (PatGen.Normalize Examples.params_slope))).
  - vm_compute. reflexivity.
  - vm_compute. discriminate.
  - simpl. lia.
Defined.

Lemma Find_is_exact_witness :
  let g' := Examples.generated Examples.params_slope in
  PatGen.Find Examples.Hash_last g' [0; 1] = Some (PatGen.mkHashNode 1 1) <->
  In (PatGen.mkHashNode 1 1) (PatGen.stored g') /\
  [0; 1] = PatGen.bits_at g' (PatGen.fPattern (PatGen.mkHashNode 1 1)).
Proof.
  apply (Find_is_exact Examples.Hash_last
           Examples.AddChild_head PatGen.Normalize PatGen.PatternGenerator_new
           Examples.params_slope (snd (PatGen.Normalize Examples.params_slope))).
  - vm_compute. reflexivity.
  - vm_compute. discriminate.
  - simpl. lia.
Defined.

Lemma stored_bins_within_width_witness :
  let g' := Examples.generated Examples.params_slope in
  let bits := PatGen.bits_at g' 3 in
  bits !! 0%nat = Some 0 /\
  Forall (fun b => 0 <= b <= List.last bits 0) bits.
Proof.
  apply (fun H1 H2 H3 =>
           stored_bins_within_width Examples.Hash_last
             Examples.AddChild_head PatGen.Normalize PatGen.PatternGenerator_new
             Examples.params_slope (snd (PatGen.Normalize Examples.params_slope))
             H1 H2 H3 (PatGen.mkHashNode 3 2)).
  - vm_compute. reflexivity.
  - vm_compute. discriminate.
  - simpl. lia.
  - vm_compute. tauto.
Defined.

(** ** Writing the tree: the index of a back reference *)

Lemma Int_congr (x : Z) : exists t, PatGen.Int x = x + 4294967296 * t.
Proof.
  unfold PatGen.Int. exists (- ((x + 2 ^ 31) / 2 ^ 32)).
  pose proof (Z.div_mod (x + 2 ^ 31) (2 ^ 32)). lia.
Qed.

Lemma big_endian_4 (x : Z) :
  PatGen.big_endian 4 x =
  [(x / 16777216) mod 256; (x / 65536) mod 256; (x / 256) mod 256; x mod 256].
Proof.
  unfold PatGen.big_endian. simpl. now rewrite Z.div_1_r.
Qed.

Lemma index_bytes_inj
    (g : PatGen.PatternGenerator) (out : list Z) (i j : Z) :
  PatGen.nPatterns (PatGen.fStats g) <= 2 ^ 32 ->
  0 <= i < PatGen.nPatterns (PatGen.fStats g) ->
  0 <= j < PatGen.nPatterns (PatGen.fStats g) ->
  PatGen.swapped_binary_write out 4 [PatGen.Int i]
    (Z.to_nat (4 - PatGen.index_size g)) =
  PatGen.swapped_binary_write out 4 [PatGen.Int j]
    (Z.to_nat (4 - PatGen.index_size g)) ->
  i = j.
Proof.
  intros Hn Hi Hj. unfold PatGen.index_size.
  destruct (Int_congr i) as [ti Ei]. destruct (Int_congr j) as [tj Ej].
  change (Z.shiftl 1 8) with 256. change (Z.shiftl 1 16) with 65536.
  change (2 ^ 32) with 4294967296 in Hn.
  destruct (Z.ltb_spec (PatGen.nPatterns (PatGen.fStats g)) 256) as [H8 | H8];
    [| destruct (Z.ltb_spec (PatGen.nPatterns (PatGen.fStats g)) 65536)
         as [H16 | H16]].
  - rewrite !(swapped_index _ _ 1) by auto. intros H.
    apply app_inv_head in H. rewrite !big_endian_4, Ei, Ej in H.
    change (Z.to_nat (4 - 1)) with 3%nat in H. simpl in H.
    injection H as H0.
    revert H0. Z.to_euclidean_division_equations. lia.
  - rewrite !(swapped_index _ _ 2) by auto. intros H.
    apply app_inv_head in H. rewrite !big_endian_4, Ei, Ej in H.
    change (Z.to_nat (4 - 2)) with 2%nat in H. simpl in H.
    injection H as H1 H0.
    revert H0 H1. Z.to_euclidean_division_equations. lia.
  - rewrite !(swapped_index _ _ 4) by auto. intros H.
    apply app_inv_head in H. rewrite !big_endian_4, Ei, Ej in H.
    change (Z.to_nat (4 - 4)) with 0%nat in H. simpl in H.
    injection H as H3 H2 H1 H0.
    revert H0 H1 H2 H3. Z.to_euclidean_division_equations. lia.
Qed.

(** X23.  The bytes of a back reference tell the patterns apart: with
    the index size that [Write] chooses from the pattern count (at most
    2^32), two different indices below the pattern count are written as
    different byte sequences, although only the last 1, 2 or 4 bytes of
    the [Int_t] are written. *)
Theorem index_bytes_tell_patterns_apart
    (g : PatGen.PatternGenerator) (out : list Z) (i j : Z) :
  PatGen.nPatterns (PatGen.fStats g) <= 2 ^ 32 ->
  0 <= i < PatGen.nPatterns (PatGen.fStats g) ->
  0 <= j < PatGen.nPatterns (PatGen.fStats g) ->
  i <> j ->
  PatGen.swapped_binary_write out 4 [PatGen.Int i]
    (Z.to_nat (4 - PatGen.index_size g)) <>
  PatGen.swapped_binary_write out 4 [PatGen.Int j]
    (Z.to_nat (4 - PatGen.index_size g)).
Proof.
  intros Hn Hi Hj Hne H. apply Hne. eapply index_bytes_inj; eassumption.
Qed.

Lemma index_bytes_tell_patterns_apart_witness :
  let g := Examples.generated Examples.params_slope in
  PatGen.swapped_binary_write [] 4 [PatGen.Int 3]
    (Z.to_nat (4 - PatGen.index_size g)) <>
  PatGen.swapped_binary_write [] 4 [PatGen.Int 9]
    (Z.to_nat (4 - PatGen.index_size g)).
Proof.
  apply (index_bytes_tell_patterns_apart
           (Examples.generated Examples.params_slope) [] 3 9).
  - vm_compute. discriminate.
  - vm_compute. split; [discriminate | reflexivity].
  - vm_compute. split; [discriminate | reflexivity].
  - lia.
Defined.

(** ** PatternGenerator::CalcStatistics *)

Lemma foldr_max_ge (l : list Z) :
  0 <= foldr Z.max 0 l /\ forall x, In x l -> x <= foldr Z.max 0 l.
Proof.
  induction l as [| a l [IH0 IH]]; simpl; [split; [lia | tauto] |].
  split; [lia |]. intros x [-> | Hx]; [lia |]. specialize (IH x Hx). lia.
Qed.

Lemma foldr_add_le (l : list Z) (m : Z) :
  (forall x, In x l -> x <= m) ->
  foldr Z.add 0 l <= Z.of_nat (length l) * m.
Proof.
  induction l as [| a l IH]; simpl; intros H; [lia |].
  assert (a <= m) by (apply H; now left).
  assert (foldr Z.add 0 l <= Z.of_nat (length l) * m)
    by (apply IH; intros x Hx; apply H; now right).
  lia.
Qed.

Lemma length_concat_sum {A : Type} (T : list (list A)) :
  Z.of_nat (length (concat T)) =
  foldr Z.add 0 (map (fun chain => Z.of_nat (length chain)) T).
Proof.
  induction T as [| a T IH]; simpl; [reflexivity |].
  rewrite length_app. lia.
Qed.

(** X24.  The statistics of [CalcStatistics] fit together: the pattern
    count is the number of hash nodes, no chain of the table is longer
    than [MaxHashDepth] and no child list of a stored pattern longer
    than [MaxChildListLength], so that the pattern count is at most the
    table size times [MaxHashDepth] and the link count at most the
    pattern count times [MaxChildListLength]. *)
Theorem CalcStatistics_consistent (g : PatGen.PatternGenerator) :
  let st := PatGen.fStats (PatGen.CalcStatistics g) in
  PatGen.nPatterns st = Z.of_nat (length (PatGen.stored g)) /\
  (forall chain, In chain (PatGen.fHashTable g) ->
     Z.of_nat (length chain) <= PatGen.MaxHashDepth st) /\
  (forall node, In node (PatGen.stored g) ->
     Z.of_nat (length (PatGen.children_at g (PatGen.fPattern node)))
       <= PatGen.MaxChildListLength st) /\
  PatGen.nPatterns st
    <= Z.of_nat (length (PatGen.fHashTable g)) * PatGen.MaxHashDepth st /\
  PatGen.nLinks st <= PatGen.nPatterns st * PatGen.MaxChildListLength st.
Proof.
  unfold PatGen.CalcStatistics, PatGen.stored. simpl.
  set (lens := map (fun node => Z.of_nat (length (PatGen.children_at g
                                                    (PatGen.fPattern node))))
                   (concat (PatGen.fHashTable g))).
  set (depths := map (fun chain : list PatGen.HashNode => Z.of_nat (length chain))
                     (PatGen.fHashTable g)).
  destruct (foldr_max_ge lens) as [_ Hlens].
  destruct (foldr_max_ge depths) as [_ Hdepths].
  split; [reflexivity |]. split; [| split; [| split]].
  - intros chain Hin. apply Hdepths. subst depths.
    apply in_map_iff. eauto.
  - intros node Hin. apply Hlens. subst lens.
    apply in_map_iff. eauto.
  - rewrite length_concat_sum. fold depths.
    rewrite <- (length_map (fun chain : list PatGen.HashNode =>
                              Z.of_nat (length chain)) (PatGen.fHashTable g)).
    fold depths. now apply foldr_add_le.
  - rewrite <- (length_map (fun node => Z.of_nat (length (PatGen.children_at g
                                                          (PatGen.fPattern node))))
                  (concat (PatGen.fHashTable g))).
    fold lens. now apply foldr_add_le.
Qed.

(** ** MWDC::GetRefTime: reading within the vector *)

(** X25.  For a reference map with a size in the range of [Int_t] that
    is not negative, [GetRefTime] reads within [fRefTime] for every
    index exactly when the vector has at least as many entries as the
    map says: the guard compares with the size of the map, not with the
    size of the vector. *)
Theorem GetRefTime_reads_within_vector (kBig : spec_float) (d : MWDC.t) :
  0 <= MWDC.fRefMap_GetSize d < 2 ^ 31 ->
  ((forall i, 0 <= i < 2 ^ 32 ->
      snd (MWDC.GetRefTime kBig d i) <> MWDC.OutOfBounds) <->
   MWDC.fRefMap_GetSize d <= Z.of_nat (length (MWDC.fRefTime d))).
Proof.
  intros Hn. unfold MWDC.GetRefTime. rewrite UInt_small by lia. split.
  - intros H.
    destruct (Z.le_gt_cases (MWDC.fRefMap_GetSize d)
                (Z.of_nat (length (MWDC.fRefTime d)))) as [Hle | Hgt];
      [exact Hle |].
    exfalso. apply (H (Z.of_nat (length (MWDC.fRefTime d)))); [lia |].
    destruct (Z.ltb_spec (Z.of_nat (length (MWDC.fRefTime d)))
                (MWDC.fRefMap_GetSize d)) as [_ | Hge]; [| lia].
    simpl. unfold MWDC.vector_at. rewrite Nat2Z.id.
    now rewrite (proj2 (lookup_ge_None _ _) (Nat.le_refl _)).
  - intros Hle i Hi.
    destruct (Z.ltb_spec i (MWDC.fRefMap_GetSize d)) as [Hlt | Hge]; simpl;
      [| discriminate].
    unfold MWDC.vector_at.
    destruct (MWDC.fRefTime d !! Z.to_nat i) as [f|] eqn:E; [discriminate |].
    apply lookup_ge_None in E. lia.
Qed.

Lemma GetRefTime_reads_within_vector_witness :
  (forall i, 0 <= i < 2 ^ 32 ->
     snd (MWDC.GetRefTime Examples.kBig Examples.mwdc i) <> MWDC.OutOfBounds) <->
  MWDC.fRefMap_GetSize Examples.mwdc
    <= Z.of_nat (length (MWDC.fRefTime Examples.mwdc)).
Proof.
  apply (GetRefTime_reads_within_vector Examples.kBig Examples.mwdc).
  simpl. lia.
Defined.

(** ** WireDistLess with a distance *)

(** X26.  For a maximal distance that is not negative and wire numbers
    that stay in the range of [Int_t] when the distance is added,
    [WireDistLess] is a strict order as well: no hit is less than itself
    and the relation is transitive. *)
Theorem WireDistLess_strict_order (maxdist : Z) (a b c : WireSort.Hit) :
  0 <= maxdist ->
  - 2 ^ 31 <= WireSort.GetWireNum a /\ WireSort.GetWireNum a + maxdist < 2 ^ 31 ->
  - 2 ^ 31 <= WireSort.GetWireNum b /\ WireSort.GetWireNum b + maxdist < 2 ^ 31 ->
  WireSort.WireDistLess maxdist a a = false /\
  (WireSort.WireDistLess maxdist a b = true ->
   WireSort.WireDistLess maxdist b c = true ->
   WireSort.WireDistLess maxdist a c = true).
Proof.
  intros Hm Ha Hb.
  assert (Hint : forall x, - 2 ^ 31 <= x /\ x + maxdist < 2 ^ 31 ->
            WireSort.Int (x + maxdist) = x + maxdist).
  { intros x Hx. unfold WireSort.Int. rewrite Z.mod_small by lia. lia. }
  unfold WireSort.WireDistLess. rewrite !(Hint _ Ha), !(Hint _ Hb).
  destruct a as [t1 p1 w1 d1], b as [t2 p2 w2 d2], c as [t3 p3 w3 d3].
  simpl in *. rewrite !Z.gtb_ltb. split.
  - rewrite Z.eqb_refl, !Z.ltb_irrefl. simpl.
    destruct (Z.ltb_spec (w1 + maxdist) w1) as [Hlt | _]; [lia |].
    destruct (Z.ltb_spec 0 maxdist); [reflexivity | apply dltb_irrefl].
  - destruct (Z.eqb_spec t1 t2), (Z.eqb_spec t2 t3), (Z.eqb_spec t1 t3); simpl;
      repeat match goal with
             | |- context [?u <? ?v] => destruct (Z.ltb_spec u v)
             end;
      try discriminate; try reflexivity; try lia.
    apply dltb_trans.
Qed.

Lemma WireDistLess_strict_order_witness :
  WireSort.WireDistLess 2 (WireSort.mkHit 0 1 7 (of_Z 3))
                          (WireSort.mkHit 0 1 7 (of_Z 3)) = false /\
  (WireSort.WireDistLess 2 (WireSort.mkHit 0 1 7 (of_Z 3))
                           (WireSort.mkHit 0 1 10 (of_Z 3)) = true ->
   WireSort.WireDistLess 2 (WireSort.mkHit 0 1 10 (of_Z 3))
                           (WireSort.mkHit 0 1 13 (of_Z 3)) = true ->
   WireSort.WireDistLess 2 (WireSort.mkHit 0 1 7 (of_Z 3))
                           (WireSort.mkHit 0 1 13 (of_Z 3)) = true).
Proof.
  apply (WireDistLess_strict_order 2 (WireSort.mkHit 0 1 7 (of_Z 3))
           (WireSort.mkHit 0 1 10 (of_Z 3)) (WireSort.mkHit 0 1 13 (of_Z 3)));
    simpl; lia.
Defined.

(** ** HitPairIter: past the end *)

(** X27.  The end of the iteration is stable: once [Next] has made the
    pair of two nulls current, every further call of [Next] returns,
    leaves the iterator as it is and the pair of two nulls current. *)
Theorem Next_at_end_is_stable {Hit : Type} `{EqDecision Hit}
    (Compare : Hit -> Hit -> spec_float -> Z)
    (it it' : HitPair.HitPairIter) :
  HitPair.Next Compare it = Some it' ->
  HitPair.fCurrent it' = (None, None) ->
  HitPair.Next Compare it' = Some it'.
Proof.
  unfold HitPair.Next at 1. intros Hadv Hcur.
  pose proof (start_started it) as Hst.
  assert (Hend : HitPair.fNext (HitPair.start it) = (None, None) /\
                 it' = HitPair.set_current (None, None) (HitPair.start it)).
  { destruct (HitPair.start it) as [A B cA cB sc sh md st scn cur [[x|] [y|]]].
    - exfalso. revert Hadv.
      unfold HitPair.advance, HitPair.found_pair, HitPair.NextA, HitPair.NextB,
        HitPair.TIter_Next. simpl. intros Hadv.
      repeat (case_match; simplify_eq/=).
    - exfalso. revert Hadv.
      unfold HitPair.advance, HitPair.NextA, HitPair.TIter_Next. simpl.
      intros Hadv. repeat (case_match; simplify_eq/=).
    - exfalso. revert Hadv.
      unfold HitPair.advance, HitPair.NextB, HitPair.TIter_Next. simpl.
      intros Hadv. repeat (case_match; simplify_eq/=).
    - unfold HitPair.advance in Hadv. simpl in Hadv. simplify_eq.
      split; reflexivity. }
  destruct Hend as [Hn ->].
  destruct (HitPair.start it) as [A B cA cB sc sh md st scn cur nxt].
  simpl in *. subst st nxt. reflexivity.
Qed.

Lemma Next_at_end_is_stable_witness :
  let it := HitPair.unstarted ([] : list positive) [] (of_Z 0) in
  let it' := HitPair.mkIter ([] : list positive) [] 0 0 0 None (of_Z 0) true false
               (None, None) (None, None) in
  HitPair.Next Examples.Compare_scan it' = Some it'.
Proof.
  intros it it'.
  apply (Next_at_end_is_stable Examples.Compare_scan it it'); reflexivity.
Defined.

(** ** Road::Add of a descriptor without hits *)

Section Add_empty.
Variable kBig : spec_float.
Variable GetPlaneNum : positive -> Z.
Variable nds : gmap positive Road.NodeDescriptor.

Lemma CheckMatch_empty (b : Road.BuildInfo_t) :
  2 <= Road.fNplanes b -> Road.CheckMatch GetPlaneNum b ∅ = false.
Proof.
  intros Hn. unfold Road.CheckMatch. cbv zeta. rewrite set_map_empty.
  destruct (Z.to_nat (Road.fNplanes b)) as [| [| m]] eqn:E; try lia.
  reflexivity.
Qed.

(** X28.  On a road under construction with two or more planes, [Add]
    of a descriptor that has no hits returns false and leaves the road
    as it is, be it the first pattern or a later one. *)
Theorem Add_rejects_descriptor_without_hits
    (r : Road.Road) (b : Road.BuildInfo_t) (p : positive)
    (nd : Road.NodeDescriptor) :
  Road.building kBig GetPlaneNum nds r ->
  Road.fBuild r = Some b -> 2 <= Road.fNplanes b ->
  nds !! p = Some nd -> Road.hits nd = ∅ ->
  Road.Add GetPlaneNum nds p r = Some (false, r).
Proof.
  intros Hbuild Hb Hn Hnd Hh.
  pose proof (CheckMatch_empty b Hn) as Hempty.
  pose proof (building_coherent kBig GetPlaneNum nds r Hbuild b Hb) as Hco.
  unfold Road.Add. rewrite Hb, Hnd. unfold Road.Add_hits. rewrite Hh.
  case_bool_decide as Hfirst.
  - rewrite Hempty. reflexivity.
  - replace (∅ ∩ Road.fCommonHits b) with (∅ : gset positive) by set_solver.
    rewrite Hempty, size_empty.
    destruct (size (Road.fCommonHits b)) as [| m] eqn:Es.
    + exfalso. apply size_empty_iff in Es. apply leibniz_equiv in Es.
      destruct (Hco Hfirst) as [_ Hck]. rewrite Es, Hempty in Hck.
      discriminate.
    + reflexivity.
Qed.

End Add_empty.

Lemma Add_rejects_descriptor_without_hits_witness :
  Road.Add Examples.plane_of
    (<[3%positive := Road.mkND 3 (fun _ => 5) ∅ 0]> Examples.nds)
    3%positive Examples.road0 = Some (false, Examples.road0).
Proof.
  apply (Add_rejects_descriptor_without_hits Examples.kBig Examples.plane_of
           (<[3%positive := Road.mkND 3 (fun _ => 5) ∅ 0]> Examples.nds)
           Examples.road0 (Road.mkBuild [] ∅ 1 3 3) 3%positive
           (Road.mkND 3 (fun _ => 5) ∅ 0)).
  - apply (Road.building_new _ _ _ (Some Examples.proj3)). reflexivity.
  - vm_compute. reflexivity.
  - simpl. lia.
  - reflexivity.
  - reflexivity.
Defined.

(** ** Generate starts from scratch *)

Section Generate_fresh.
Variable Hash : list Z -> Z.
Variable AddChild : PatGen.Link -> list PatGen.Link -> list PatGen.Link.

Local Abbreviation try_child := (PatGen.try_child Hash AddChild).
Local Abbreviation MakeChildNodes := (PatGen.MakeChildNodes Hash AddChild).

Lemma foldl_commute {A B : Type} (h : A -> A) (f : A -> B -> A) (l : list B) :
  (forall a x, f (h a) x = h (f a x)) ->
  forall a, foldl f (h a) l = h (foldl f a l).
Proof.
  intros Hc. induction l as [| x l IH]; intros a; simpl; [reflexivity |].
  now rewrite Hc, IH.
Qed.

(** The statistics are carried along and read by nothing. *)
Lemma try_child_stats (st : PatGen.Statistics_t) (parent : nat) (depth : Z)
    (g : PatGen.PatternGenerator) (ct : list Z * Z) :
  try_child parent depth (PatGen.set_stats st g) ct =
  PatGen.set_stats st (try_child parent depth g ct).
Proof.
  destruct ct as [child type]. unfold PatGen.try_child.
  change (PatGen.Find Hash (PatGen.set_stats st g) child)
    with (PatGen.Find Hash g child).
  destruct (PatGen.Find Hash g child) as [node|].
  - change (PatGen.TestSlope (PatGen.set_stats st g))
      with (PatGen.TestSlope g).
    change (PatGen.bits_at (PatGen.set_stats st g)) with (PatGen.bits_at g).
    destruct (_ || _); reflexivity.
  - change (PatGen.TestSlope (PatGen.set_stats st g))
      with (PatGen.TestSlope g).
    change (PatGen.LineCheck (PatGen.set_stats st g))
      with (PatGen.LineCheck g).
    destruct (_ && _); [| reflexivity].
    unfold PatGen.new_Pattern, PatGen.add_link, PatGen.AddHash. simpl.
    destruct (_ =? _)%nat; reflexivity.
Qed.

Lemma MakeChildNodes_stats (st : PatGen.Statistics_t) (fuel : nat) :
  forall g pnode depth,
    MakeChildNodes fuel (PatGen.set_stats st g) pnode depth =
    PatGen.set_stats st (MakeChildNodes fuel g pnode depth).
Proof.
  induction fuel as [| fuel IH]; intros g pnode depth.
  - simpl. destruct (depth >? 0); simpl; destruct (depth >=? _); reflexivity.
  - cbn [PatGen.MakeChildNodes].
    set (g1 := if depth >? 0 then PatGen.UsedAtDepth g pnode (depth - 1) else g).
    assert (E1 : (if depth >? 0
                  then PatGen.UsedAtDepth (PatGen.set_stats st g) pnode (depth - 1)
                  else PatGen.set_stats st g) = PatGen.set_stats st g1).
    { subst g1. destruct (depth >? 0); reflexivity. }
    rewrite E1.
    change (PatGen.fNlevels (PatGen.set_stats st g1)) with (PatGen.fNlevels g1).
    destruct (depth >=? PatGen.fNlevels g1); [reflexivity |].
    change (PatGen.children_at (PatGen.set_stats st g1) pnode)
      with (PatGen.children_at g1 pnode).
    change (PatGen.bits_at (PatGen.set_stats st g1) pnode)
      with (PatGen.bits_at g1 pnode).
    set (g2 := match PatGen.children_at g1 pnode with
               | [] => foldl (try_child pnode depth) g1
                         (PatGen.children_of (PatGen.bits_at g1 pnode))
               | _ :: _ => g1
               end).
    assert (E2 : match PatGen.children_at g1 pnode with
                 | [] => foldl (try_child pnode depth) (PatGen.set_stats st g1)
                           (PatGen.children_of (PatGen.bits_at g1 pnode))
                 | _ :: _ => PatGen.set_stats st g1
                 end = PatGen.set_stats st g2).
    { subst g2. destruct (PatGen.children_at g1 pnode); [| reflexivity].
      apply (foldl_commute (PatGen.set_stats st)).
      intros a x. apply try_child_stats. }
    rewrite E2.
    change (PatGen.children_at (PatGen.set_stats st g2) pnode)
      with (PatGen.children_at g2 pnode).
    apply (foldl_commute (PatGen.set_stats st)).
    intros a ln.
    change (PatGen.bits_at (PatGen.set_stats st a)) with (PatGen.bits_at a).
    change (PatGen.Find Hash (PatGen.set_stats st a)) with (PatGen.Find Hash a).
    change (PatGen.children_at (PatGen.set_stats st a)) with (PatGen.children_at a).
    destruct (PatGen.Find Hash a _) as [node|]; [| reflexivity].
    destruct (PatGen.children_at a _); [apply IH |].
    destruct (_ >? depth); [apply IH | reflexivity].
Qed.

(** X29.  [Generate] starts from scratch: when [Normalize] accepts the
    parameters, the generator it leaves is the same whatever tree,
    table, statistics and settings it held before. *)
Theorem Generate_forgets_previous_state
    (Normalize : PatGen.TreeParam_t -> Z * PatGen.TreeParam_t)
    (g : PatGen.PatternGenerator) (p : PatGen.TreeParam_t) :
  fst (Normalize p) = 0 ->
  snd (PatGen.Generate Hash AddChild Normalize g p) =
  snd (PatGen.Generate Hash AddChild Normalize PatGen.PatternGenerator_new p).
Proof.
  intros Herr. unfold PatGen.Generate.
  destruct (Normalize p) as [err p']. simpl in Herr. subst err. simpl.
  unfold PatGen.build, PatGen.DeleteTree. simpl.
  unfold PatGen.new_Pattern. cbv beta iota zeta.
  set (gn := PatGen.mkGen _ _ _ _ [] (PatGen.mkStats 0 0 0 0) _).
  match goal with
  | |- PatGen.CalcStatistics
         (MakeChildNodes _ (PatGen.AddHash Hash ?a ?r) _ 1) =
       PatGen.CalcStatistics
         (MakeChildNodes _ (PatGen.AddHash Hash ?b _) _ 1) =>
      change a with (PatGen.set_stats (PatGen.fStats g) b);
      change (PatGen.AddHash Hash (PatGen.set_stats (PatGen.fStats g) b) r)
        with (PatGen.set_stats (PatGen.fStats g) (PatGen.AddHash Hash b r))
  end.
  rewrite MakeChildNodes_stats. reflexivity.
Qed.

End Generate_fresh.

Lemma Generate_forgets_previous_state_witness :
  snd (PatGen.Generate Examples.Hash_last Examples.AddChild_head PatGen.Normalize
         (Examples.generated Examples.params_slope) Examples.params_trivial) =
  Examples.generated Examples.params_trivial.
Proof.
  apply (Generate_forgets_previous_state Examples.Hash_last
           Examples.AddChild_head PatGen.Normalize
           (Examples.generated Examples.params_slope) Examples.params_trivial).
  vm_compute. reflexivity.
Defined.

(** ** The generator and the hash function *)

Section Hash_congruence.
Variables Hash Hash' : list Z -> Z.
Variable AddChild : PatGen.Link -> list PatGen.Link -> list PatGen.Link.

(** The number of levels and the size the table gets for it. *)
Variable N : Z.

Local Abbreviation T := (Z.to_nat (PatGen.Int (Z.shiftl 1 (N - 1)))).

(** The two hash functions give the same bucket in a table of that
    size. *)
Hypothesis Hagree :
  forall bits, Hash bits mod Z.of_nat T = Hash' bits mod Z.of_nat T.

(** A generator of [N] levels whose table is not sized yet or has its
    size. *)
Definition levelled (g : PatGen.PatternGenerator) : Prop :=
  PatGen.fNlevels g = N /\
  (PatGen.fHashTable g = [] \/ length (PatGen.fHashTable g) = T).

Lemma bucket_agree (g : PatGen.PatternGenerator) (bits : list Z) :
  length (PatGen.fHashTable g) = T ->
  PatGen.bucket_of Hash g bits = PatGen.bucket_of Hash' g bits.
Proof.
  intros Hl. unfold PatGen.bucket_of. now rewrite Hl, Hagree.
Qed.

Lemma Find_agree (g : PatGen.PatternGenerator) (bits : list Z) :
  levelled g -> PatGen.Find Hash g bits = PatGen.Find Hash' g bits.
Proof.
  intros [_ [He | Hl]]; unfold PatGen.Find.
  - rewrite He. reflexivity.
  - now rewrite (bucket_agree g bits Hl).
Qed.

Lemma AddHash_agree (g : PatGen.PatternGenerator) (pat : nat) :
  levelled g ->
  PatGen.AddHash Hash g pat = PatGen.AddHash Hash' g pat /\
  levelled (PatGen.AddHash Hash' g pat).
Proof.
  intros [Hn Ht]. rewrite !AddHash_sized.
  assert (Hs : length (PatGen.fHashTable (sized g)) = T /\
               PatGen.fNlevels (sized g) = N).
  { unfold sized.
    destruct (Nat.eqb_spec (length (PatGen.fHashTable g)) 0) as [E | E].
    - simpl. now rewrite length_replicate, Hn.
    - destruct Ht as [Ht | Ht]; [rewrite Ht in E; simpl in E; lia | auto]. }
  destruct Hs as [Hl Hn']. rewrite (bucket_agree (sized g) _ Hl). split.
  - reflexivity.
  - split; simpl; [exact Hn' | right; now rewrite length_alter].
Qed.

Lemma try_child_agree (parent : nat) (depth : Z) (g : PatGen.PatternGenerator)
    (ct : list Z * Z) :
  levelled g ->
  PatGen.try_child Hash AddChild parent depth g ct =
  PatGen.try_child Hash' AddChild parent depth g ct /\
  levelled (PatGen.try_child Hash' AddChild parent depth g ct).
Proof.
  intros Hg. destruct ct as [child type]. unfold PatGen.try_child.
  rewrite (Find_agree g child Hg).
  destruct (PatGen.Find Hash' g child) as [node|].
  - destruct (_ || _); split; try reflexivity; exact Hg.
  - destruct (_ && _); [| split; [reflexivity | exact Hg]].
    unfold PatGen.new_Pattern.
    assert (Hg1 : levelled (PatGen.set_arena
                              (PatGen.arena g ++ [PatGen.mkPattern child []]) g))
      by exact Hg.
    destruct (AddHash_agree _ (length (PatGen.arena g)) Hg1) as [E Hl].
    rewrite E. split; [reflexivity | exact Hl].
Qed.

Lemma UsedAtDepth_levelled (g : PatGen.PatternGenerator) (pat : nat) (d : Z) :
  levelled g -> levelled (PatGen.UsedAtDepth g pat d).
Proof.
  intros [Hn Ht]. split; [exact Hn |]. unfold PatGen.UsedAtDepth. simpl.
  destruct Ht as [-> | Ht]; [now left | right; now rewrite length_map].
Qed.

Lemma MakeChildNodes_agree (fuel : nat) :
  forall g pnode depth, levelled g ->
    PatGen.MakeChildNodes Hash AddChild fuel g pnode depth =
    PatGen.MakeChildNodes Hash' AddChild fuel g pnode depth /\
    levelled (PatGen.MakeChildNodes Hash' AddChild fuel g pnode depth).
Proof.
  induction fuel as [| fuel IH]; intros g pnode depth Hg.
  - simpl. destruct (depth >? 0); destruct (depth >=? _);
      split; try reflexivity; try exact Hg; now apply UsedAtDepth_levelled.
  - cbn [PatGen.MakeChildNodes].
    set (g1 := if depth >? 0 then PatGen.UsedAtDepth g pnode (depth - 1) else g).
    assert (Hg1 : levelled g1).
    { subst g1. destruct (depth >? 0); [now apply UsedAtDepth_levelled | exact Hg]. }
    destruct (depth >=? PatGen.fNlevels g1); [split; [reflexivity | exact Hg1] |].
    set (g2 := match PatGen.children_at g1 pnode with
               | [] => foldl (PatGen.try_child Hash AddChild pnode depth) g1
                         (PatGen.children_of (PatGen.bits_at g1 pnode))
               | _ :: _ => g1
               end).
    set (g2' := match PatGen.children_at g1 pnode with
                | [] => foldl (PatGen.try_child Hash' AddChild pnode depth) g1
                          (PatGen.children_of (PatGen.bits_at g1 pnode))
                | _ :: _ => g1
                end).
    assert (Hg2 : g2 = g2' /\ levelled g2').
    { subst g2 g2'. destruct (PatGen.children_at g1 pnode);
        [| split; [reflexivity | exact Hg1]].
      split.
      - apply (foldl_ext_invariant levelled); [| | exact Hg1].
        + intros a x Ha. exact (proj1 (try_child_agree pnode depth a x Ha)).
        + intros a x Ha. exact (proj2 (try_child_agree pnode depth a x Ha)).
      - apply foldl_invariant; [| exact Hg1].
        intros a x Ha _. exact (proj2 (try_child_agree pnode depth a x Ha)). }
    destruct Hg2 as [-> Hg2].
    assert (Hstep : forall a ln, levelled a ->
              match PatGen.Find Hash a (PatGen.bits_at a (PatGen.lnkPattern ln)) with
              | Some node =>
                  match PatGen.children_at a (PatGen.lnkPattern ln) with
                  | [] => PatGen.MakeChildNodes Hash AddChild fuel a
                            (PatGen.fPattern node) (depth + 1)
                  | _ :: _ =>
                      if PatGen.fMinDepth node >? depth
                      then PatGen.MakeChildNodes Hash AddChild fuel a
                             (PatGen.fPattern node) (depth + 1)
                      else a
                  end
              | None => a
              end =
              match PatGen.Find Hash' a (PatGen.bits_at a (PatGen.lnkPattern ln)) with
              | Some node =>
                  match PatGen.children_at a (PatGen.lnkPattern ln) with
                  | [] => PatGen.MakeChildNodes Hash' AddChild fuel a
                            (PatGen.fPattern node) (depth + 1)
                  | _ :: _ =>
                      if PatGen.fMinDepth node >? depth
                      then PatGen.MakeChildNodes Hash' AddChild fuel a
                             (PatGen.fPattern node) (depth + 1)
                      else a
                  end
              | None => a
              end /\
              levelled
                match PatGen.Find Hash' a (PatGen.bits_at a (PatGen.lnkPattern ln)) with
                | Some node =>
                    match PatGen.children_at a (PatGen.lnkPattern ln) with
                    | [] => PatGen.MakeChildNodes Hash' AddChild fuel a
                              (PatGen.fPattern node) (depth + 1)
                    | _ :: _ =>
                        if PatGen.fMinDepth node >? depth
                        then PatGen.MakeChildNodes Hash' AddChild fuel a
                               (PatGen.fPattern node) (depth + 1)
                        else a
                    end
                | None => a
                end).
    { intros a ln Ha. rewrite (Find_agree a _ Ha).
      destruct (PatGen.Find Hash' a _) as [node|]; [| split; [reflexivity | exact Ha]].
      destruct (PatGen.children_at a _); [now apply IH |].
      destruct (_ >? depth); [now apply IH | split; [reflexivity | exact Ha]]. }
    split.
    + apply (foldl_ext_invariant levelled); [| | exact Hg2].
      * intros a ln Ha. exact (proj1 (Hstep a ln Ha)).
      * intros a ln Ha. exact (proj2 (Hstep a ln Ha)).
    + apply foldl_invariant; [| exact Hg2].
      intros a ln Ha _. exact (proj2 (Hstep a ln Ha)).
Qed.

(** The build depends on the hash function only through the buckets it
    gives. *)
Lemma build_agree (g : PatGen.PatternGenerator) (p : PatGen.TreeParam_t) :
  UInt (PatGen.maxdepth p + 1) = N ->
  PatGen.build Hash AddChild (PatGen.DeleteTree g) p =
  PatGen.build Hash' AddChild (PatGen.DeleteTree g) p.
Proof.
  intros HN. unfold PatGen.build.
  set (g1 := PatGen.mkGen _ _ _ _ _ _ _).
  unfold PatGen.new_Pattern. cbv beta iota zeta.
  set (g2 := PatGen.set_arena _ g1).
  assert (Hg2 : levelled g2).
  { split; [exact HN | now left]. }
  destruct (AddHash_agree g2 (length (PatGen.arena g1)) Hg2) as [E Hg3].
  rewrite E.
  destruct (MakeChildNodes_agree
              (Z.to_nat (PatGen.fNlevels (PatGen.AddHash Hash' g2
                                            (length (PatGen.arena g1)))))
              _ (length (PatGen.arena g1)) 1 Hg3) as [E' _].
  now rewrite E'.
Qed.

End Hash_congruence.

(** ** PatternGenerator: the trivial tree, for every hash function *)

(** A hash function with the values [b0] and [b1] for the patterns [0,0]
    and [0,1]. *)
Definition hash_on (b0 b1 : Z) (Hash : list Z -> Z) (bits : list Z) : Z :=
  if bool_decide (bits = [0; 0]) then b0
  else if bool_decide (bits = [0; 1]) then b1
  else Hash bits.

(** For the trivial parameters the table has two chains, so that only
    the parity of the hash of [0,0] and of [0,1] counts. *)
Lemma trivial_generated (Hash : list Z -> Z)
    (AddChild : PatGen.Link -> list PatGen.Link -> list PatGen.Link) :
  exists b0 b1, (b0 = 0 \/ b0 = 1) /\ (b1 = 0 \/ b1 = 1) /\
    snd (PatGen.Generate Hash AddChild PatGen.Normalize
           PatGen.PatternGenerator_new Examples.params_trivial) =
    snd (PatGen.Generate (hash_on b0 b1 Hash) AddChild PatGen.Normalize
           PatGen.PatternGenerator_new Examples.params_trivial).
Proof.
  exists (Hash [0; 0] mod 2), (Hash [0; 1] mod 2).
  split; [pose proof (Z.mod_pos_bound (Hash [0; 0]) 2); lia |].
  split; [pose proof (Z.mod_pos_bound (Hash [0; 1]) 2); lia |].
  unfold PatGen.Generate.
  replace (PatGen.Normalize Examples.params_trivial)
    with (0, snd (PatGen.Normalize Examples.params_trivial))
    by (vm_compute; reflexivity).
  cbn [Z.eqb negb snd].
  apply (build_agree _ _ AddChild 2); [| reflexivity].
  intros bits. change (Z.of_nat (Z.to_nat (PatGen.Int (Z.shiftl 1 (2 - 1))))) with 2.
  unfold hash_on. repeat case_bool_decide; subst;
    try reflexivity; now rewrite Z.mod_mod.
Qed.

(** C7, amended.  For maxDepth 1, width 1, planes at 0 and 1 and maxSlope
    0, and for every hash function, the generator has two levels and
    two patterns: the root [0,0], used at depth 0, and the pattern
    [0,1], used at depth 1; the root has four links, two to itself
    (types 1 and 0) and two to [0,1] (types 0 and 2), in the order in
    which [AddChild] keeps them, and [0,1] has none.  Where the two
    nodes are in the table depends on the hash function.  When the root
    is alone in the first chain of the table, where [Write] looks for
    it, the file has 16 bytes: the record of the root, with one header
    byte, two bytes for its one bin and two for the child count, then,
    for the four links in list order, the record of [0,1] in five bytes
    at its first link and a back-reference of two bytes for each of the
    other three.  When the node of [0,1] is the first of the first
    chain, [Write] takes [0,1] for the root and the file is its record
    of five bytes.  The links are given for [AddChild] putting a link at
    the head of the list ([g]) and at its tail ([g']). *)
Theorem trivial_tree_two_patterns (Hash : list Z -> Z) :
  let g := snd (PatGen.Generate Hash Examples.AddChild_head PatGen.Normalize
                  PatGen.PatternGenerator_new Examples.params_trivial) in
  let g' := snd (PatGen.Generate Hash Examples.AddChild_tail PatGen.Normalize
                   PatGen.PatternGenerator_new Examples.params_trivial) in
  (PatGen.fNlevels g = 2 /\
   PatGen.arena g =
     [PatGen.mkPattern [0; 0]
        [PatGen.mkLink 0 0; PatGen.mkLink 1 2; PatGen.mkLink 1 0; PatGen.mkLink 0 1];
      PatGen.mkPattern [0; 1] []] /\
   PatGen.stored_patterns g ≡ₚ [([0; 0], 0); ([0; 1], 1)] /\
   (PatGen.fHashTable g !! 0%nat = Some [PatGen.mkHashNode 0 0] ->
    Examples.file_of g =
      [128; 0; 0; 0; 4] ++ [0; 0] ++ [130; 0; 1; 0; 0] ++ [0; 1] ++ [1; 0] /\
    length (Examples.file_of g) = 16%nat) /\
   (forall chain,
      PatGen.fHashTable g !! 0%nat = Some (PatGen.mkHashNode 1 1 :: chain) ->
      Examples.file_of g = [128; 0; 1; 0; 0])) /\
  (PatGen.fNlevels g' = 2 /\
   PatGen.arena g' =
     [PatGen.mkPattern [0; 0]
        [PatGen.mkLink 0 1; PatGen.mkLink 1 0; PatGen.mkLink 1 2; PatGen.mkLink 0 0];
      PatGen.mkPattern [0; 1] []] /\
   PatGen.stored_patterns g' ≡ₚ [([0; 0], 0); ([0; 1], 1)] /\
   (PatGen.fHashTable g' !! 0%nat = Some [PatGen.mkHashNode 0 0] ->
    Examples.file_of g' =
      [128; 0; 0; 0; 4] ++ [1; 0] ++ [128; 0; 1; 0; 0] ++ [2; 1] ++ [0; 0] /\
    length (Examples.file_of g') = 16%nat) /\
   (forall chain,
      PatGen.fHashTable g' !! 0%nat = Some (PatGen.mkHashNode 1 1 :: chain) ->
      Examples.file_of g' = [128; 0; 1; 0; 0])).
Proof.
  intros g g'. subst g g'. split.
  - destruct (trivial_generated Hash Examples.AddChild_head)
      as (b0 & b1 & [-> | ->] & [-> | ->] & ->).
    all: split; [vm_compute; reflexivity |].
    all: split; [vm_compute; reflexivity |].
    all: split; [vm_compute; first [reflexivity | apply perm_swap] |].
    all: split;
      [ intros H; first [vm_compute in H; discriminate H
                        | split; vm_compute; reflexivity]
      | intros chain H; first [vm_compute in H; discriminate H
                              | vm_compute; reflexivity] ].
  - destruct (trivial_generated Hash Examples.AddChild_tail)
      as (b0 & b1 & [-> | ->] & [-> | ->] & ->).
    all: split; [vm_compute; reflexivity |].
    all: split; [vm_compute; reflexivity |].
    all: split; [vm_compute; first [reflexivity | apply perm_swap] |].
    all: split;
      [ intros H; first [vm_compute in H; discriminate H
                        | split; vm_compute; reflexivity]
      | intros chain H; first [vm_compute in H; discriminate H
                              | vm_compute; reflexivity] ].
Qed.

Lemma trivial_tree_two_patterns_witness :
  Examples.file_of (Examples.generated Examples.params_trivial) =
    [128; 0; 0; 0; 4] ++ [0; 0] ++ [130; 0; 1; 0; 0] ++ [0; 1] ++ [1; 0] /\
  length (Examples.file_of (Examples.generated Examples.params_trivial)) = 16%nat.
Proof.
  destruct (trivial_tree_two_patterns Examples.Hash_last)
    as [(_ & _ & _ & Hfile & _) _].
  apply Hfile. vm_compute. reflexivity.
Defined.
